(** * The scaffolder task broker: StorageTaskBroker.ts

    A shallow embedding of [plugins/scaffolder-backend/src/scaffolder/tasks]:
    the types of [types.ts], the [TaskAgent] and [StorageTaskBroker] classes
    of [StorageTaskBroker.ts], and an in-memory double of the [TaskStore]
    contract they consume.

    JavaScript runs the code of one process on a single thread: an [async]
    function runs without interruption up to its next [await], and goes on
    (in a later job of the event loop) once the awaited promise has settled.
    Every [async] function is therefore embedded as the state machine the
    language turns it into: one state per [await], one transition per piece
    of straight-line code between two [await]s.  The order in which the
    store answers, timers fire and callers call is the environment's choice;
    it is the list of labels a run is driven by. *)

From Stdlib Require Import ZArith Lia.
From stdpp Require Import base option list sorting strings pretty gmap.

Open Scope string_scope.
Open Scope list_scope.

(** ** types.ts *)

(** The value of a thrown [Error]: its message. *)
Definition Error : Type := string.

Inductive Status : Type := open | processing | failed | cancelled | completed.

Inductive CompletedTaskState : Type := result_failed | result_completed.

Inductive TaskEventType : Type := completion | log.

#[export] Instance Status_eq_dec : EqDecision Status.
Proof. solve_decision. Defined.

#[export] Instance CompletedTaskState_eq_dec : EqDecision CompletedTaskState.
Proof. solve_decision. Defined.

#[export] Instance TaskEventType_eq_dec : EqDecision TaskEventType.
Proof. solve_decision. Defined.

(** The string a [CompletedTaskState] is at run time. *)
Definition result_string (result : CompletedTaskState) : string :=
  match result with
  | result_failed => "failed"
  | result_completed => "completed"
  end.

Module Step.
(** One element of [TaskSpec.steps]; the JSON values of [parameters] are kept
    in serialised form. *)
Record t : Type := mk {
  id : string;
  name : string;
  action : string;
  parameters : option (list (string * string));
}.
End Step.

Module TaskSpec.
Record t : Type := mk { steps : list Step.t }.
End TaskSpec.

Module DbTaskRow.
Record t : Type := mk {
  id : string;
  spec : TaskSpec.t;
  status : Status;
  lastHeartbeat : option string;
  retryCount : Z;
  createdAt : string;
  runId : option string;
}.
End DbTaskRow.

Module DbTaskEventRow.
(** [body] is the [{ message }] object both emitters build. *)
Record t : Type := mk {
  id : Z;
  runId : option string;
  taskId : string;
  body : string;
  type : TaskEventType;
  createdAt : string;
}.
End DbTaskEventRow.

Module DispatchResult.
Record t : Type := mk { taskId : string }.
End DispatchResult.

Module TaskStoreEmitOptions.
(** [runId] is declared a string; [TaskAgent] passes [this.state.runId],
    which is [undefined] when the claimed row had none. *)
Record t : Type := mk {
  taskId : string;
  runId : option string;
  body : string;
  type : TaskEventType;
}.
End TaskStoreEmitOptions.

Module TaskStoreGetEventsOptions.
Record t : Type := mk {
  taskId : string;
  after : option Z;
}.
End TaskStoreGetEventsOptions.

(** The calls of the [TaskStore] interface this core makes, and what their
    promises are fulfilled with. *)
Inductive StoreCall : Type :=
| call_createTask (task : TaskSpec.t)
| call_claimTask
| call_heartbeat (runId : string)
| call_setStatus (runId : option string) (status : Status)
| call_emit (options : TaskStoreEmitOptions.t)
| call_getEvents (options : TaskStoreGetEventsOptions.t).

Inductive StoreValue : Type :=
| value_taskId (taskId : string)
| value_row (row : option DbTaskRow.t)
| value_void
| value_events (events : list DbTaskEventRow.t).

(** A settled promise. *)
Inductive Settled : Type :=
| fulfilled (v : StoreValue)
| rejected (e : Error).

(** An awaited store call: sent and not yet answered, or answered and not yet
    picked up by the continuation of the [await]. *)
Inductive Awaited : Type :=
| sent (c : StoreCall)
| settled (r : Settled).

(** ** The store *)

Module Store.

(** Modelled from the spec: the durable store behind the [TaskStore]
    interface is not part of the sources; this in-memory double follows the
    storage contract of the specification (section 6).  Task and run
    identifiers are drawn from counters, time stamps from a logical clock. *)
Record t : Type := mk {
  tasks : list DbTaskRow.t;
  events : list DbTaskEventRow.t;
  nextTask : nat;
  nextRun : nat;
  nextEvent : Z;
  clock : nat;
}.

Definition empty : t := mk [] [] 1 1 1 0.

Definition now (s : t) : string := pretty (clock s).

(** Modelled from the spec: [createTask(spec) -> {taskId}] persists a new
    [open] task (retry counter zero, no run id). *)
Definition createTask (task : TaskSpec.t) (s : t) : t * string :=
  let taskId := "T" +:+ pretty (nextTask s) in
  let row := DbTaskRow.mk taskId task open None 0 (now s) None in
  (mk (tasks s ++ [row]) (events s) (S (nextTask s)) (nextRun s)
      (nextEvent s) (S (clock s)),
   taskId).

Definition claim_row (run : string) (row : DbTaskRow.t) : DbTaskRow.t :=
  DbTaskRow.mk (DbTaskRow.id row) (DbTaskRow.spec row) processing
    (DbTaskRow.lastHeartbeat row) (DbTaskRow.retryCount row)
    (DbTaskRow.createdAt row) (Some run).

Fixpoint claim_first (run : string) (rows : list DbTaskRow.t)
  : option (DbTaskRow.t * list DbTaskRow.t) :=
  match rows with
  | [] => None
  | row :: rest =>
      if bool_decide (DbTaskRow.status row = open) then
        Some (claim_row run row, claim_row run row :: rest)
      else
        match claim_first run rest with
        | Some (got, rest') => Some (got, row :: rest')
        | None => None
        end
  end.

(** Modelled from the spec: [claimTask() -> TaskRow | empty] selects one
    [open] task, moves it to [processing] with a fresh run id and returns the
    row; it returns nothing when no task is open. *)
Definition claimTask (s : t) : t * option DbTaskRow.t :=
  match claim_first ("R" +:+ pretty (nextRun s)) (tasks s) with
  | Some (row, rows) =>
      (mk rows (events s) (nextTask s) (S (nextRun s)) (nextEvent s)
          (S (clock s)),
       Some row)
  | None => (s, None)
  end.

Definition beat_row (run : string) (stamp : string) (row : DbTaskRow.t) : DbTaskRow.t :=
  if bool_decide (DbTaskRow.runId row = Some run) then
    DbTaskRow.mk (DbTaskRow.id row) (DbTaskRow.spec row) (DbTaskRow.status row)
      (Some stamp) (DbTaskRow.retryCount row) (DbTaskRow.createdAt row)
      (DbTaskRow.runId row)
  else row.

(** Modelled from the spec: [heartbeat(runId)] updates the last-heartbeat
    time stamp of the run. *)
Definition heartbeat (run : string) (s : t) : t :=
  mk (beat_row run (now s) <$> tasks s) (events s) (nextTask s) (nextRun s)
     (nextEvent s) (S (clock s)).

Definition status_row (run : option string) (st : Status) (row : DbTaskRow.t) : DbTaskRow.t :=
  if bool_decide (is_Some run ∧ DbTaskRow.runId row = run) then
    DbTaskRow.mk (DbTaskRow.id row) (DbTaskRow.spec row) st
      (DbTaskRow.lastHeartbeat row) (DbTaskRow.retryCount row)
      (DbTaskRow.createdAt row) (DbTaskRow.runId row)
  else row.

(** Modelled from the spec: [setStatus(runId, status)] moves the task of the
    run to [status]. *)
Definition setStatus (run : option string) (st : Status) (s : t) : t :=
  mk (status_row run st <$> tasks s) (events s) (nextTask s) (nextRun s)
     (nextEvent s) (S (clock s)).

(** Modelled from the spec: [emit({taskId, runId, body, type})] appends an
    event row under the next sequence number. *)
Definition emit (o : TaskStoreEmitOptions.t) (s : t) : t :=
  let row :=
    DbTaskEventRow.mk (nextEvent s) (TaskStoreEmitOptions.runId o)
      (TaskStoreEmitOptions.taskId o) (TaskStoreEmitOptions.body o)
      (TaskStoreEmitOptions.type o) (now s) in
  mk (tasks s) (events s ++ [row]) (nextTask s) (nextRun s)
     (nextEvent s + 1)%Z (S (clock s)).

(** Modelled from the spec: the events a [getEvents] call selects, those of
    the task, past the cursor when one is given. *)
Definition selected (o : TaskStoreGetEventsOptions.t) (e : DbTaskEventRow.t) : Prop :=
  DbTaskEventRow.taskId e = TaskStoreGetEventsOptions.taskId o ∧
  match TaskStoreGetEventsOptions.after o with
  | Some a => (a < DbTaskEventRow.id e)%Z
  | None => True
  end.

#[export] Instance selected_dec o e : Decision (selected o e).
Proof.
  unfold selected. destruct (TaskStoreGetEventsOptions.after o); apply _.
Defined.

(** Modelled from the spec: [getEvents({taskId, after}) -> {events[]}]
    returns the events with a sequence number greater than [after], in
    ascending order (the order of the log). *)
Definition getEvents (o : TaskStoreGetEventsOptions.t) (s : t) : list DbTaskEventRow.t :=
  filter (selected o) (events s).

(** Modelled from the spec: the store serving one call of the contract;
    [get] and [listStaleTasks] are not called by this core. *)
Definition exec (c : StoreCall) (s : t) : t * StoreValue :=
  match c with
  | call_createTask task =>
      let '(s', taskId) := createTask task s in (s', value_taskId taskId)
  | call_claimTask =>
      let '(s', row) := claimTask s in (s', value_row row)
  | call_heartbeat run => (heartbeat run s, value_void)
  | call_setStatus run st => (setStatus run st s, value_void)
  | call_emit o => (emit o s, value_void)
  | call_getEvents o => (s, value_events (getEvents o s))
  end.

End Store.

(** ** StorageTaskBroker.observe *)

(** What [catch (error)] binds in [observe].  JavaScript throws any value,
    and the [catch] block hands the value on as it is: the callback takes
    an [Error] or [undefined] as its first argument, and so a thrown value
    is one of the two.  An error is read as a thrown value where one is
    expected. *)
Inductive Thrown : Type :=
| thrown_undefined
| thrown_error (e : string).

Coercion thrown_error : string >-> Thrown.

#[global] Instance Thrown_eq_dec : EqDecision Thrown.
Proof. solve_decision. Defined.

(** The thrown value as the first argument of the callback. *)
Definition as_error (v : Thrown) : option Error :=
  match v with
  | thrown_undefined => None
  | thrown_error e => Some e
  end.

Module Observe.

(** Where the polling loop of the subscription is suspended, or how it
    ended: [returned] when the [while] condition failed, [threw] when an
    exception left the [async] function. *)
Inductive Loop : Type :=
| await_getEvents (p : Awaited)
| await_delay
| returned
| threw (v : Thrown).

(** One call of the callback: its two arguments, and the value the cursor
    variable [after] had when the call was made. *)
Record Invocation : Type := invoked {
  error : option Error;
  batch : list DbTaskEventRow.t;
  cursor : option Z;
}.

(** What one run of the callback does, besides changing the observer's own
    state: it may call the [unsubscribe] handle and it may throw. *)
Record Outcome (O : Type) : Type := outcome {
  next : O;
  unsubscribes : bool;
  throws : option Thrown;
}.
Arguments outcome {O}.
Arguments next {O}.
Arguments unsubscribes {O}.
Arguments throws {O}.

Definition Callback (O : Type) : Type :=
  option Error → list DbTaskEventRow.t → O → Outcome O.

(** The subscription and its surroundings: the store, the variables
    [cancelled] and [after] of the closure, the point the loop is at, the
    observer's state.  [polls] and [invocations] record, in order, every
    [getEvents] call begun and every callback call made. *)
Record t (O : Type) : Type := mk {
  store : Store.t;
  taskId : string;
  cancelled : bool;
  after : option Z;
  loop : Loop;
  observer : O;
  polls : list TaskStoreGetEventsOptions.t;
  invocations : list Invocation;
}.
Arguments mk {O}.
Arguments store {O}.
Arguments taskId {O}.
Arguments cancelled {O}.
Arguments after {O}.
Arguments loop {O}.
Arguments observer {O}.
Arguments polls {O}.
Arguments invocations {O}.

(** What the environment does next. *)
Inductive Label : Type :=
| emits (o : TaskStoreEmitOptions.t)
| store_answers
| store_rejects (e : Error)
| resumes
| delay_elapsed
| unsubscribe.

Section Subscription.
Context {O : Type} (callback : Callback O).

Definition set_loop (l : Loop) (w : t O) : t O :=
  mk (store w) (taskId w) (cancelled w) (after w) l (observer w) (polls w)
     (invocations w).

Definition set_store (s : Store.t) (w : t O) : t O :=
  mk s (taskId w) (cancelled w) (after w) (loop w) (observer w) (polls w)
     (invocations w).

Definition set_after (a : option Z) (w : t O) : t O :=
  mk (store w) (taskId w) (cancelled w) a (loop w) (observer w) (polls w)
     (invocations w).

Definition set_cancelled (w : t O) : t O :=
  mk (store w) (taskId w) true (after w) (loop w) (observer w) (polls w)
     (invocations w).

(** [callback(error, { events })]: the call is recorded, the observer moves
    on, [cancelled] is set if the callback used the handle; the result is
    what the call threw, if anything. *)
Definition invoke (err : option Error) (events : list DbTaskEventRow.t) (w : t O)
  : t O * option Thrown :=
  let out := callback err events (observer w) in
  (mk (store w) (taskId w) (cancelled w || unsubscribes out) (after w) (loop w)
      (next out) (polls w)
      (invocations w ++ [invoked err events (after w)]),
   throws out).

(** The head of [while (!cancelled)] and, when the loop goes on, the call
    [this.storage.getEvents({ taskId, after })] up to its [await]. *)
Definition loop_head (w : t O) : t O :=
  if cancelled w then set_loop returned w
  else
    let o := TaskStoreGetEventsOptions.mk (taskId w) (after w) in
    mk (store w) (taskId w) (cancelled w) (after w)
       (await_getEvents (sent (call_getEvents o))) (observer w)
       (polls w ++ [o]) (invocations w).

(** From the [await] of [getEvents] to the [await] of the delay. *)
Definition deliver (events : list DbTaskEventRow.t) (w : t O) : t O :=
  if bool_decide (length events ≠ 0) then
    let w1 := set_after (DbTaskEventRow.id <$> last events) w in
    match invoke None events w1 with
    | (w2, None) => set_loop await_delay w2
    | (w2, Some error) =>
        match invoke (as_error error) [] w2 with
        | (w3, None) => set_loop await_delay w3
        | (w3, Some error') => set_loop (threw error') w3
        end
    end
  else set_loop await_delay w.

Definition step (l : Label) (w : t O) : option (t O) :=
  match l with
  | emits o => Some (set_store (Store.emit o (store w)) w)
  | unsubscribe => Some (set_cancelled w)
  | store_answers =>
      match loop w with
      | await_getEvents (sent c) =>
          let '(s, v) := Store.exec c (store w) in
          Some (set_loop (await_getEvents (settled (fulfilled v))) (set_store s w))
      | _ => None
      end
  | store_rejects e =>
      match loop w with
      | await_getEvents (sent c) =>
          Some (set_loop (await_getEvents (settled (rejected e))) w)
      | _ => None
      end
  | resumes =>
      match loop w with
      | await_getEvents (settled (fulfilled (value_events events))) =>
          Some (deliver events w)
      | await_getEvents (settled (rejected e)) => Some (set_loop (threw e) w)
      | _ => None
      end
  | delay_elapsed =>
      match loop w with
      | await_delay => Some (loop_head w)
      | _ => None
      end
  end.

Fixpoint run (ls : list Label) (w : t O) : option (t O) :=
  match ls with
  | [] => Some w
  | l :: ls' =>
      match step l w with
      | Some w' => run ls' w'
      | None => None
      end
  end.

(** [observe(options, callback)], up to the point where it returns the
    handle: the closure variables are set up and the loop runs to its first
    [await]. *)
Definition observe (s : Store.t) (options : TaskStoreGetEventsOptions.t) (o : O) : t O :=
  loop_head
    (mk s (TaskStoreGetEventsOptions.taskId options) false
        (TaskStoreGetEventsOptions.after options) returned o [] []).

End Subscription.

End Observe.

(** ** TaskAgent *)

Module TaskState.
(** [runId] is declared a string and filled from [pendingTask.runId!], the
    optional [runId] of the claimed row: it is [undefined] at run time when
    the row has none. *)
Record t : Type := mk {
  spec : TaskSpec.t;
  taskId : string;
  runId : option string;
}.
End TaskState.

Module TaskAgent.

(** [heartbeatInterval] is the handle [setInterval] returned, once [start]
    has run. *)
Record t : Type := mk {
  state : TaskState.t;
  heartbeatInterval : option nat;
}.

(** What a template literal prints for a string that may be [undefined]. *)
Definition interpolate (v : option string) : string :=
  match v with
  | Some s => s
  | None => "undefined"
  end.

(** The test [!v] on a string that may be [undefined]. *)
Definition not_truthy (v : option string) : bool :=
  match v with
  | Some s => bool_decide (s = EmptyString)
  | None => true
  end.

Definition spec (a : t) : TaskSpec.t := TaskState.spec (state a).

Definition getWorkspaceName (a : t) : string :=
  TaskState.taskId (state a) +:+ "_" +:+ interpolate (TaskState.runId (state a)).

(** The argument of [this.storage.emit] in [emitLog]. *)
Definition emitLog_options (message : string) (a : t) : TaskStoreEmitOptions.t :=
  TaskStoreEmitOptions.mk (TaskState.taskId (state a))
    (TaskState.runId (state a)) message log.

(** The arguments of [this.storage.setStatus] in [complete]. *)
Definition complete_status (result : CompletedTaskState) : Status :=
  if bool_decide (result = result_failed) then failed else completed.

(** The argument of [this.storage.emit] in [complete]. *)
Definition complete_options (result : CompletedTaskState) (a : t) : TaskStoreEmitOptions.t :=
  TaskStoreEmitOptions.mk (TaskState.taskId (state a))
    (TaskState.runId (state a))
    ("Run completed with status: " +:+ result_string result) completion.

(** What one run of the interval callback of [start] does: it throws, or it
    calls [this.storage.heartbeat] and drops the promise. *)
Definition beat (a : t) : Error + StoreCall :=
  match TaskState.runId (state a) with
  | Some runId =>
      if not_truthy (Some runId) then inl "no run id provided"
      else inr (call_heartbeat runId)
  | None => inl "no run id provided"
  end.

End TaskAgent.

(** ** StorageTaskBroker *)

Module Broker.

(** An [async] call in flight, named after the [await] it is suspended at,
    or the way it ended; [unawaited] is a store promise nobody waits for. *)
Inductive Job : Type :=
| claim_await_claimTask (p : Awaited)
| claim_await_dispatch (promise : nat)
| claim_returned (agent : nat)
| dispatch_await_createTask (p : Awaited)
| dispatch_returned (r : DispatchResult.t)
| emitLog_await_emit (p : Awaited)
| complete_await_setStatus (agent : nat) (result : CompletedTaskState) (p : Awaited)
| returned_void
| threw (e : Error)
| unawaited (p : Awaited).

(** An interval set by [TaskAgent.start]: the agent whose callback it runs,
    and whether it has not been cleared. *)
Record Interval : Type := interval {
  owner : nat;
  live : bool;
}.

(** One broker process.  [deferredDispatch] is the promise of the current
    deferred, [resolved] the promises whose [resolve] has been called and
    [deferreds] the number of promises [defer] has made.  [jobs], [agents]
    and [intervals] grow at the end; an index is an identity.  [uncaught]
    collects what interval callbacks threw. *)
Record t : Type := mk {
  storage : Store.t;
  deferredDispatch : nat;
  resolved : list nat;
  deferreds : nat;
  jobs : list Job;
  agents : list TaskAgent.t;
  intervals : list Interval;
  uncaught : list Error;
}.

(** [new StorageTaskBroker(storage)]. *)
Definition create (s : Store.t) : t := mk s 0 [] 1 [] [] [] [].

Inductive Label : Type :=
| calls_claim
| calls_dispatch (spec : TaskSpec.t)
| calls_emitLog (agent : nat) (message : string)
| calls_complete (agent : nat) (result : CompletedTaskState)
| store_answers (job : nat)
| store_rejects (job : nat) (e : Error)
| resumes (job : nat)
| interval_fires (handle : nat).

Definition set_storage (s : Store.t) (w : t) : t :=
  mk s (deferredDispatch w) (resolved w) (deferreds w) (jobs w) (agents w)
     (intervals w) (uncaught w).

Definition set_jobs (js : list Job) (w : t) : t :=
  mk (storage w) (deferredDispatch w) (resolved w) (deferreds w) js (agents w)
     (intervals w) (uncaught w).

Definition set_job (j : nat) (job : Job) (w : t) : t :=
  set_jobs (<[j := job]> (jobs w)) w.

Definition add_job (job : Job) (w : t) : t := set_jobs (jobs w ++ [job]) w.

(** [signalDispatch]: resolve the current deferred, install a fresh one. *)
Definition signalDispatch (w : t) : t :=
  mk (storage w) (deferreds w) (deferredDispatch w :: resolved w)
     (S (deferreds w)) (jobs w) (agents w) (intervals w) (uncaught w).

(** [waitForDispatch]: the promise of the current deferred. *)
Definition waitForDispatch (w : t) : nat := deferredDispatch w.

(** [TaskAgent.create(state, storage)]: the new agent, with its interval
    set by [start]. *)
Definition TaskAgent_create (st : TaskState.t) (w : t) : t * nat :=
  (mk (storage w) (deferredDispatch w) (resolved w) (deferreds w) (jobs w)
      (agents w ++ [TaskAgent.mk st (Some (length (intervals w)))])
      (intervals w ++ [interval (length (agents w)) true]) (uncaught w),
   length (agents w)).

Definition clear (i : Interval) : Interval := interval (owner i) false.

(** [if (this.heartbeatInterval) clearInterval(this.heartbeatInterval)]. *)
Definition clearInterval (a : TaskAgent.t) (w : t) : t :=
  match TaskAgent.heartbeatInterval a with
  | Some h =>
      mk (storage w) (deferredDispatch w) (resolved w) (deferreds w) (jobs w)
         (agents w) (alter clear h (intervals w)) (uncaught w)
  | None => w
  end.

Definition add_uncaught (e : Error) (w : t) : t :=
  mk (storage w) (deferredDispatch w) (resolved w) (deferreds w) (jobs w)
     (agents w) (intervals w) (uncaught w ++ [e]).

(** The store call a job waits for. *)
Definition awaited (job : Job) : option Awaited :=
  match job with
  | claim_await_claimTask p => Some p
  | dispatch_await_createTask p => Some p
  | emitLog_await_emit p => Some p
  | complete_await_setStatus _ _ p => Some p
  | unawaited p => Some p
  | _ => None
  end.

Definition settle (r : Settled) (job : Job) : Job :=
  match job with
  | claim_await_claimTask _ => claim_await_claimTask (settled r)
  | dispatch_await_createTask _ => dispatch_await_createTask (settled r)
  | emitLog_await_emit _ => emitLog_await_emit (settled r)
  | complete_await_setStatus a result _ => complete_await_setStatus a result (settled r)
  | unawaited _ => unawaited (settled r)
  | other => other
  end.

(** The code that runs when job [j] goes on after its [await]. *)
Definition resume (j : nat) (job : Job) (w : t) : option t :=
  match job with
  | claim_await_claimTask (settled (fulfilled (value_row (Some pendingTask)))) =>
      let '(w', a) :=
        TaskAgent_create
          (TaskState.mk (DbTaskRow.spec pendingTask) (DbTaskRow.id pendingTask)
             (DbTaskRow.runId pendingTask)) w in
      Some (set_job j (claim_returned a) w')
  | claim_await_claimTask (settled (fulfilled (value_row None))) =>
      Some (set_job j (claim_await_dispatch (waitForDispatch w)) w)
  | claim_await_dispatch promise =>
      if bool_decide (promise ∈ resolved w) then
        Some (set_job j (claim_await_claimTask (sent call_claimTask)) w)
      else None
  | dispatch_await_createTask (settled (fulfilled (value_taskId taskId))) =>
      Some (set_job j (dispatch_returned (DispatchResult.mk taskId))
              (signalDispatch w))
  | emitLog_await_emit (settled (fulfilled _)) => Some (set_job j returned_void w)
  | complete_await_setStatus a result (settled (fulfilled _)) =>
      match agents w !! a with
      | Some agent =>
          Some (set_job j returned_void
                  (clearInterval agent
                     (add_job
                        (unawaited (sent (call_emit (TaskAgent.complete_options result agent))))
                        w)))
      | None => None
      end
  | claim_await_claimTask (settled (rejected e))
  | dispatch_await_createTask (settled (rejected e))
  | emitLog_await_emit (settled (rejected e))
  | complete_await_setStatus _ _ (settled (rejected e)) =>
      Some (set_job j (threw e) w)
  | _ => None
  end.

Definition step (l : Label) (w : t) : option t :=
  match l with
  | calls_claim => Some (add_job (claim_await_claimTask (sent call_claimTask)) w)
  | calls_dispatch spec =>
      Some (add_job (dispatch_await_createTask (sent (call_createTask spec))) w)
  | calls_emitLog a message =>
      match agents w !! a with
      | Some agent =>
          Some (add_job
                  (emitLog_await_emit (sent (call_emit (TaskAgent.emitLog_options message agent))))
                  w)
      | None => None
      end
  | calls_complete a result =>
      match agents w !! a with
      | Some agent =>
          Some (add_job
                  (complete_await_setStatus a result
                     (sent (call_setStatus (TaskState.runId (TaskAgent.state agent))
                              (TaskAgent.complete_status result))))
                  w)
      | None => None
      end
  | store_answers j =>
      match jobs w !! j with
      | Some job =>
          match awaited job with
          | Some (sent c) =>
              let '(s, v) := Store.exec c (storage w) in
              Some (set_job j (settle (fulfilled v) job) (set_storage s w))
          | _ => None
          end
      | None => None
      end
  | store_rejects j e =>
      match jobs w !! j with
      | Some job =>
          match awaited job with
          | Some (sent c) => Some (set_job j (settle (rejected e) job) w)
          | _ => None
          end
      | None => None
      end
  | resumes j =>
      match jobs w !! j with
      | Some job => resume j job w
      | None => None
      end
  | interval_fires h =>
      match intervals w !! h with
      | Some (interval a true) =>
          match agents w !! a with
          | Some agent =>
              match TaskAgent.beat agent with
              | inl e => Some (add_uncaught e w)
              | inr c => Some (add_job (unawaited (sent c)) w)
              end
          | None => None
          end
      | _ => None
      end
  end.

Fixpoint run (ls : list Label) (w : t) : option t :=
  match ls with
  | [] => Some w
  | l :: ls' =>
      match step l w with
      | Some w' => run ls' w'
      | None => None
      end
  end.

End Broker.

(** ** traversal/collect: the standard collectors

    [collectNodes] and the collectors built on it by
    [CollectorFactoryContextImpl].  A collector is the object [collectNodes]
    returns together with the variables its closures share: the bounds, the
    result under construction and the set [seenRefs].  A node is handed over
    by calling [visitNode]; what the collector does with it may wait for the
    node's entity to be loaded ([node.entity()] is a promise), so the calls
    of [visitNode] that are waiting are part of the state, and the loads are
    answered by the environment, in any order. *)

Module TraverseCatalogNode.
(** [entity], the function that loads the node's entity, is not a field
    here: its answers are steps of the environment. *)
Record t : Type := mk {
  depth : Z;
  entityRef : string;
}.
End TraverseCatalogNode.

Module DepthOptions.
Record t : Type := mk {
  minDepth : option Z;
  maxDepth : option Z;
}.
End DepthOptions.

Module RefOptions.
Record t : Type := mk {
  minDepth : option Z;
  maxDepth : option Z;
  includeMissing : option bool;
}.
End RefOptions.

Module Collect.

(** [new Set(items)] read back in iteration order: the items in the order
    of their first occurrence. *)
Definition set_add {A} `{EqDecision A} (seen : list A) (x : A) : list A :=
  if decide (x ∈ seen) then seen else seen ++ [x].

Definition insertion_order {A} `{EqDecision A} (items : list A) : list A :=
  foldl set_add [] items.

Section CollectNodes.
Context {Entity R : Type}.

(** What the [visit] argument of [collectNodes] does with a node: it
    changes the target at once, or it awaits [node.entity()] first and then
    changes the target as it is at that time. *)
Inductive Visit : Type :=
| at_once (f : R → R)
| with_entity (f : option Entity → R → R).

Record t : Type := mk {
  minDepth : Z;
  maxDepth : Z;
  result : R;
  seenRefs : gset string;
  visit : TraverseCatalogNode.t → Visit;
  loading : list (option TraverseCatalogNode.t);
}.

(** [collectNodes(init, visit, options)]. *)
Definition collectNodes (init : R) (visit : TraverseCatalogNode.t → Visit)
    (options : option DepthOptions.t) : t :=
  mk (default 0%Z (options ≫= DepthOptions.minDepth))
     (default 100%Z (options ≫= DepthOptions.maxDepth))
     init ∅ visit [].

(** The test that makes [visitNode] return at once. *)
Definition skipped (node : TraverseCatalogNode.t) (c : t) : Prop :=
  (TraverseCatalogNode.depth node < minDepth c)%Z ∨
  (TraverseCatalogNode.depth node > maxDepth c)%Z ∨
  TraverseCatalogNode.entityRef node ∈ seenRefs c.

(** [visitNode({ node })], up to its first [await]. *)
Definition visitNode (node : TraverseCatalogNode.t) (c : t) : t :=
  if decide (skipped node c) then c
  else
    let seen := seenRefs c ∪ {[TraverseCatalogNode.entityRef node]} in
    match visit c node with
    | at_once f =>
        mk (minDepth c) (maxDepth c) (f (result c)) seen (visit c) (loading c)
    | with_entity _ =>
        mk (minDepth c) (maxDepth c) (result c) seen (visit c)
           (loading c ++ [Some node])
    end.

(** [complete()]. *)
Definition complete (c : t) : R := result c.

Inductive Label : Type :=
| visits (node : TraverseCatalogNode.t)
| entity_loaded (k : nat) (entity : option Entity)
| entity_failed (k : nat).

(** The call of [visitNode] that waits for load [k] goes on with the
    entity, or the load fails and the call throws. *)
Definition settle_load (k : nat) (entity : option (option Entity)) (c : t) : option t :=
  match loading c !! k with
  | Some (Some node) =>
      let rest := <[k := None]> (loading c) in
      match entity, visit c node with
      | Some e, with_entity f =>
          Some (mk (minDepth c) (maxDepth c) (f e (result c)) (seenRefs c)
                  (visit c) rest)
      | _, _ =>
          Some (mk (minDepth c) (maxDepth c) (result c) (seenRefs c) (visit c) rest)
      end
  | _ => None
  end.

Definition step (l : Label) (c : t) : option t :=
  match l with
  | visits node => Some (visitNode node c)
  | entity_loaded k entity => settle_load k (Some entity) c
  | entity_failed k => settle_load k None c
  end.

Fixpoint run (ls : list Label) (c : t) : option t :=
  match ls with
  | [] => Some c
  | l :: ls' =>
      match step l c with
      | Some c' => run ls' c'
      | None => None
      end
  end.

End CollectNodes.

Arguments Visit : clear implicits.
Arguments t : clear implicits.
Arguments Label : clear implicits.

Section Standard.
Context {Entity : Type}.

(** [toEntityArray(options)]. *)
Definition toEntityArray (options : option DepthOptions.t) : t Entity (list Entity) :=
  collectNodes []
    (λ node,
       with_entity
         (λ entity array,
            match entity with
            | Some e => array ++ [e]
            | None => array
            end))
    options.

(** The [visit] of [toEntityRefArray]: [includeMissing || (await
    node.entity()) !== undefined] awaits nothing when [includeMissing]
    holds. *)
Definition visit_ref_array (includeMissing : bool) (node : TraverseCatalogNode.t)
  : Visit Entity (list string) :=
  if includeMissing then
    at_once (λ array, array ++ [TraverseCatalogNode.entityRef node])
  else
    with_entity
      (λ entity array,
         match entity with
         | Some _ => array ++ [TraverseCatalogNode.entityRef node]
         | None => array
         end).

(** [toEntityRefArray(options)]. *)
Definition toEntityRefArray (options : option RefOptions.t) : t Entity (list string) :=
  collectNodes []
    (visit_ref_array (default true (options ≫= RefOptions.includeMissing)))
    (Some (DepthOptions.mk (options ≫= RefOptions.minDepth)
             (options ≫= RefOptions.maxDepth))).

Definition visit_ref_set (includeMissing : bool) (node : TraverseCatalogNode.t)
  : Visit Entity (gset string) :=
  if includeMissing then
    at_once (λ set, set ∪ {[TraverseCatalogNode.entityRef node]})
  else
    with_entity
      (λ entity set,
         match entity with
         | Some _ => set ∪ {[TraverseCatalogNode.entityRef node]}
         | None => set
         end).

(** [toEntityRefSet(options)]. *)
Definition toEntityRefSet (options : option RefOptions.t) : t Entity (gset string) :=
  collectNodes ∅
    (visit_ref_set (default true (options ≫= RefOptions.includeMissing)))
    (Some (DepthOptions.mk (options ≫= RefOptions.minDepth)
             (options ≫= RefOptions.maxDepth))).

End Standard.

End Collect.

(** ** traversal/traverseCatalog.ts: the fields asked of the catalog *)

Module TraverseCatalog.

(** The fields without which entity refs cannot be formed and relations
    cannot be followed. *)
Definition required : list string :=
  ["kind"; "relations"; "metadata.name"; "metadata.namespace"].

(** [options.fields?.length ? Array.from(new Set([...])) : undefined]. *)
Definition fields (requested : option (list string)) : option (list string) :=
  match requested with
  | Some (f :: fs) => Some (Collect.insertion_order (required ++ f :: fs))
  | _ => None
  end.

End TraverseCatalog.

(** ** traversal/traverseCatalog.ts: the traversal

    [traverseCatalog] as the state machine of its [await]s.  The catalog,
    the collector and the follower are the caller's: what they answer, and
    when, is the environment's choice, and the calls the traversal makes to
    them are recorded in order.  [currentLayer.map] starts the callbacks of
    one layer one after the other, each running up to its first [await];
    then they run side by side under [Promise.all]: each stands at one of
    its [await]s, and goes on when the promise it waits for settles.  A
    [visit] closure handed to the follower stays callable for good. *)

Module Traverse.

Section TraverseCatalog.
Context {Entity EdgeData Filter : Type}.

(** [stringifyEntityRef] of [@backstage/catalog-model]. *)
Variable stringifyEntityRef : Entity → string.

Record InternalNode : Type := mkInternal {
  node : TraverseCatalogNode.t;
  edgeData : option EdgeData;
}.

(** [makeNode(entityRef, depth, edgeData)]. *)
Definition makeNode (entityRef : string) (depth : Z) (edgeData : option EdgeData)
  : InternalNode :=
  mkInternal (TraverseCatalogNode.mk depth entityRef) edgeData.

(** [options.initial], by the branch that [traverseCatalog] takes on it. *)
Inductive TraverseCatalogInitialSet : Type :=
| initial_entityRef (entityRef : string)
| initial_entityRefs (entityRefs : list string)
| initial_filter (filter : Filter).

(** The calls that a traversal makes. *)
Inductive Call : Type :=
| catalogApi_getEntities (filter : Filter) (fields : option (list string))
| collect_visitNode (current : InternalNode)
| follow_visitNode (current : InternalNode)
| collect_visitEdge (previousNode : TraverseCatalogNode.t) (next : InternalNode)
| collect_complete.

(** Where one callback of [currentLayer.map(async current => ...)] stands. *)
Inductive Callback : Type :=
| await_collect_visitNode
| await_follow_visitNode
| await_collect_visitEdge (i : nat)
| finished
| rejected_with (e : Thrown).

(** Where [traverseCatalog] itself stands.  [in_map rest]: within
    [currentLayer.map(...)], the callbacks of [rest] are still to start. *)
Inductive Main : Type :=
| await_getEntities
| in_map (rest : list InternalNode)
| await_all
| returned
| threw (e : Thrown).

(** [has_visitNode] and [has_visitEdge]: whether the collector has these
    optional methods.  [rejection]: the reason [Promise.all] rejects with,
    that of the first callback that failed. *)
Record t : Type := mk {
  has_visitNode : bool;
  has_visitEdge : bool;
  visitedNodes : gset string;
  nextLayer : list InternalNode;
  currentLayer : list (InternalNode * Callback);
  rejection : option Thrown;
  main : Main;
  calls : list Call;
}.

Definition set_nextLayer (layer : list InternalNode) (w : t) : t :=
  mk (has_visitNode w) (has_visitEdge w) (visitedNodes w) layer (currentLayer w)
     (rejection w) (main w) (calls w).

Definition set_currentLayer (layer : list (InternalNode * Callback)) (w : t) : t :=
  mk (has_visitNode w) (has_visitEdge w) (visitedNodes w) (nextLayer w) layer
     (rejection w) (main w) (calls w).

Definition set_main (m : Main) (w : t) : t :=
  mk (has_visitNode w) (has_visitEdge w) (visitedNodes w) (nextLayer w)
     (currentLayer w) (rejection w) m (calls w).

Definition add_calls (cs : list Call) (w : t) : t :=
  mk (has_visitNode w) (has_visitEdge w) (visitedNodes w) (nextLayer w)
     (currentLayer w) (rejection w) (main w) (calls w ++ cs).

Definition set_callback (j : nat) (current : InternalNode) (at_ : Callback) (w : t) : t :=
  set_currentLayer (<[j := (current, at_)]> (currentLayer w)) w.

(** A call of an optional method: made only if the method is there. *)
Definition optional (present : bool) (c : Call) : list Call :=
  if present then [c] else [].

(** [Promise.all] rejects with the reason of the first of its promises
    that rejects. *)
Definition first_rejection (e : Thrown) (w : t) : option Thrown :=
  match rejection w with Some e0 => Some e0 | None => Some e end.

(** One callback of the layer, from its start to its first [await].
    [thrown]: what [collect.visitNode] throws when it is called, if it
    throws rather than returns; the callback's promise rejects with it. *)
Definition enter (current : InternalNode) (thrown : option Thrown) (w : t) : t :=
  let ref := TraverseCatalogNode.entityRef (node current) in
  if decide (ref ∈ visitedNodes w) then
    set_currentLayer (currentLayer w ++ [(current, finished)]) w
  else
    match (if has_visitNode w then thrown else None) with
    | None =>
        mk (has_visitNode w) (has_visitEdge w) (visitedNodes w ∪ {[ref]}) (nextLayer w)
           (currentLayer w ++ [(current, await_collect_visitNode)])
           (rejection w) (main w)
           (calls w ++ optional (has_visitNode w) (collect_visitNode current))
    | Some e =>
        mk (has_visitNode w) (has_visitEdge w) (visitedNodes w ∪ {[ref]}) (nextLayer w)
           (currentLayer w ++ [(current, rejected_with e)])
           (first_rejection e w) (main w)
           (calls w ++ optional (has_visitNode w) (collect_visitNode current))
    end.

(** Whether the callback for [current] calls [collect.visitNode]. *)
Definition calls_collect (current : InternalNode) (w : t) : bool :=
  has_visitNode w &&
  bool_decide (TraverseCatalogNode.entityRef (node current) ∉ visitedNodes w).

(** Only a call that is made can throw. *)
Definition may_start (current : InternalNode) (thrown : option Thrown) (w : t) : bool :=
  match thrown with
  | Some _ => calls_collect current w
  | None => true
  end.

(** [currentLayer.map(...)] with the callbacks of [rest] still to start:
    when none is left, [await Promise.all(...)]. *)
Definition map_from (rest : list InternalNode) : Main :=
  match rest with
  | [] => await_all
  | _ => in_map rest
  end.

(** [while (nextLayer.length) { ... }], from the test of the loop to the
    call of [currentLayer.map], and [return collect.complete()] after it. *)
Definition loop_head (w : t) : t :=
  match nextLayer w with
  | [] => set_main returned (add_calls [collect_complete] w)
  | layer => set_main (in_map layer) (set_currentLayer [] (set_nextLayer [] w))
  end.

(** [for (const next of nextLayer)], at index [i]: the array is read as it
    is at that time. *)
Definition next_edge (j : nat) (current : InternalNode) (i : nat) (w : t) : t :=
  match nextLayer w !! i with
  | Some next =>
      set_callback j current (await_collect_visitEdge i)
        (add_calls (optional (has_visitEdge w) (collect_visitEdge (node current) next)) w)
  | None => set_callback j current finished w
  end.

(** Callback [j] throws: its promise rejects, and [Promise.all] with it
    unless it has rejected already. *)
Definition reject (j : nat) (current : InternalNode) (e : Thrown) (w : t) : t :=
  mk (has_visitNode w) (has_visitEdge w) (visitedNodes w) (nextLayer w)
     (<[j := (current, rejected_with e)]> (currentLayer w))
     (first_rejection e w)
     (main w) (calls w).

(** The [visit] closures made so far, one for each call of
    [follow.visitNode]: each keeps the node of its callback. *)
Definition visit_closures (w : t) : list InternalNode :=
  omap (λ c, match c with follow_visitNode current => Some current | _ => None end)
    (calls w).

(** Within [currentLayer.map] no callback is resumed: the map runs in one
    go. *)
Definition mapping (w : t) : bool :=
  match main w with
  | in_map _ => true
  | _ => false
  end.

Definition empty (has_visitNode has_visitEdge : bool) : t :=
  mk has_visitNode has_visitEdge ∅ [] [] None await_all [].

(** [traverseCatalog(options)], up to its first [await].  The loader, and
    with it [node.entity()], is the environment's. *)
Definition traverseCatalog (fields : option (list string))
    (initial : TraverseCatalogInitialSet) (has_visitNode has_visitEdge : bool) : t :=
  let w := empty has_visitNode has_visitEdge in
  match initial with
  | initial_entityRef entityRef =>
      loop_head (set_nextLayer [makeNode entityRef 0 None] w)
  | initial_entityRefs entityRefs =>
      loop_head (set_nextLayer ((λ entityRef, makeNode entityRef 0 None) <$> entityRefs) w)
  | initial_filter filter =>
      set_main await_getEntities
        (add_calls [catalogApi_getEntities filter (TraverseCatalog.fields fields)] w)
  end.

(** What the environment does: the catalog answers; the map starts its
    next callback, whose call of [collect.visitNode] returns or throws; a
    promise that callback [j] awaits settles; the follower calls [visit],
    the closure it was given at its [k]-th call, which it may do at any
    time from then on; [Promise.all] has settled and [traverseCatalog] goes
    on. *)
Inductive Label : Type :=
| catalog_answers (entities : list Entity)
| catalog_rejects (e : Thrown)
| callback_starts (thrown : option Thrown)
| collect_resolves (j : nat)
| collect_rejects (j : nat) (e : Thrown)
| follower_visits (k : nat) (entityRef : string) (edgeData : option EdgeData)
| follow_resolves (j : nat)
| follow_rejects (j : nat) (e : Thrown)
| all_settles.

Definition all_finished (w : t) : Prop :=
  Forall (λ c, c.2 = finished) (currentLayer w).

#[export] Instance Callback_eq_dec : EqDecision Callback.
Proof. solve_decision. Defined.

Definition step (l : Label) (w : t) : option t :=
  match l with
  | catalog_answers entities =>
      match main w with
      | await_getEntities =>
          Some (loop_head
                  (set_nextLayer
                     ((λ entity, makeNode (stringifyEntityRef entity) 0 None) <$> entities)
                     w))
      | _ => None
      end
  | catalog_rejects e =>
      match main w with
      | await_getEntities => Some (set_main (threw e) w)
      | _ => None
      end
  | callback_starts thrown =>
      match main w with
      | in_map (current :: rest) =>
          if may_start current thrown w
          then Some (set_main (map_from rest) (enter current thrown w))
          else None
      | _ => None
      end
  | collect_resolves j =>
      if mapping w then None else
      match currentLayer w !! j with
      | Some (current, await_collect_visitNode) =>
          Some (set_callback j current await_follow_visitNode
                  (add_calls [follow_visitNode current] w))
      | Some (current, await_collect_visitEdge i) => Some (next_edge j current (S i) w)
      | _ => None
      end
  | collect_rejects j e =>
      if mapping w then None else
      match currentLayer w !! j with
      | Some (current, await_collect_visitNode) =>
          if has_visitNode w then Some (reject j current e w) else None
      | Some (current, await_collect_visitEdge _) =>
          if has_visitEdge w then Some (reject j current e w) else None
      | _ => None
      end
  | follower_visits k entityRef edgeData =>
      match visit_closures w !! k with
      | Some current =>
          Some (set_nextLayer
                  (nextLayer w ++
                   [makeNode entityRef (TraverseCatalogNode.depth (node current) + 1)
                      edgeData])
                  w)
      | None => None
      end
  | follow_resolves j =>
      if mapping w then None else
      match currentLayer w !! j with
      | Some (current, await_follow_visitNode) => Some (next_edge j current 0 w)
      | _ => None
      end
  | follow_rejects j e =>
      if mapping w then None else
      match currentLayer w !! j with
      | Some (current, await_follow_visitNode) => Some (reject j current e w)
      | _ => None
      end
  | all_settles =>
      match main w, rejection w with
      | await_all, Some e => Some (set_main (threw e) w)
      | await_all, None =>
          if decide (all_finished w) then Some (loop_head w) else None
      | _, _ => None
      end
  end.

Fixpoint run (ls : list Label) (w : t) : option t :=
  match ls with
  | [] => Some w
  | l :: ls' =>
      match step l w with
      | Some w' => run ls' w'
      | None => None
      end
  end.

End TraverseCatalog.

Arguments InternalNode : clear implicits.
Arguments Call : clear implicits.
Arguments t : clear implicits.
Arguments Label : clear implicits.
Arguments TraverseCatalogInitialSet : clear implicits.

End Traverse.

(** ** Inputs of the examples *)

Module Scenario.

Definition two_steps : TaskSpec.t :=
  TaskSpec.mk
    [Step.mk "fetch" "Fetch the skeleton" "fetch:plain" None;
     Step.mk "publish" "Publish" "publish:github" (Some [("repoUrl", "demo")])].

(** The store once run [R1] of task [T1] has logged one message. *)
Definition one_event : Store.t :=
  Store.emit (TaskStoreEmitOptions.mk "T1" (Some "R1") "step 1 done" log)
    Store.empty.

(** The event [complete("completed")] emits for that run. *)
Definition completion_event : TaskStoreEmitOptions.t :=
  TaskStoreEmitOptions.mk "T1" (Some "R1")
    "Run completed with status: completed" completion.

(** The store once the run has completed as well. *)
Definition two_events : Store.t := Store.emit completion_event one_event.

Definition from_zero : TaskStoreGetEventsOptions.t :=
  TaskStoreGetEventsOptions.mk "T1" (Some 0%Z).

(** Three observers without a state of their own: one whose callback never
    throws, one whose callback throws when handed events and takes the
    error that comes back, one whose callback throws on every call. *)
Definition accepts : Observe.Callback unit :=
  λ _ _ o, Observe.outcome o false None.

Definition throws_on_events : Observe.Callback unit :=
  λ error _ o,
    Observe.outcome o false
      (match error with
       | None => Some (thrown_error "bad event")
       | Some _ => None
       end).

Definition always_throws : Observe.Callback unit :=
  λ _ _ o, Observe.outcome o false (Some (thrown_error "observer is broken")).

(** An observer that remembers whether it has been called: its callback
    throws [undefined] on its first call and returns from the next. *)
Definition throws_undefined : Observe.Callback bool :=
  λ _ _ called,
    Observe.outcome true false
      (if called then None else Some thrown_undefined).


(** A subscription from sequence number zero whose first poll has been
    answered with that event and not yet been picked up. *)
Definition batch_ready : Observe.t unit :=
  Observe.mk one_event "T1" false (Some 0%Z)
    (Observe.await_getEvents
       (settled (fulfilled (value_events (Store.events one_event)))))
    tt [from_zero] [].

(** An agent whose claimed row carried no run id. *)
Definition agent_without_run : TaskAgent.t :=
  TaskAgent.mk (TaskState.mk two_steps "T1" None) (Some 0).

(** A consumer calls [claim] on an empty store and the store finds nothing;
    before the consumer's call goes on, a producer dispatches a task. *)
Definition dispatch_in_the_gap : list Broker.Label :=
  [Broker.calls_claim; Broker.store_answers 0;
   Broker.calls_dispatch two_steps; Broker.store_answers 1;
   Broker.resumes 1; Broker.resumes 0].

(** A task is dispatched and claimed: job 0 is the call of [dispatch], job
    1 the call of [claim], agent 0 and interval 0 are those of the run. *)
Definition dispatched_and_claimed : list Broker.Label :=
  [Broker.calls_dispatch two_steps; Broker.store_answers 0; Broker.resumes 0;
   Broker.calls_claim; Broker.store_answers 1; Broker.resumes 1].

(** The broker after that. *)
Definition running : Broker.t :=
  default (Broker.create Store.empty)
    (Broker.run dispatched_and_claimed (Broker.create Store.empty)).

(** The broker when a task has been dispatched and [claim] has just been
    called (job 1). *)
Definition claiming : Broker.t :=
  default (Broker.create Store.empty)
    (Broker.run (take 4 dispatched_and_claimed) (Broker.create Store.empty)).

(** The broker when [claim] has just been called on an empty store (job
    0). *)
Definition asking : Broker.t :=
  default (Broker.create Store.empty)
    (Broker.run [Broker.calls_claim] (Broker.create Store.empty)).

(** A broker holding an agent without a run id and its interval. *)
Definition unbound : Broker.t :=
  Broker.mk Store.empty 0 [] 1 [] [agent_without_run]
    [Broker.interval 0 true] [].

(** The broker once [complete("completed")] has been called on the agent
    (job 2) and the store has set the status. *)
Definition completing : Broker.t :=
  default running
    (Broker.run [Broker.calls_complete 0 result_completed; Broker.store_answers 2]
       running).

(** The broker once the interval of the run has fired: job 2 is the
    heartbeat call it made. *)
Definition beating : Broker.t :=
  default running (Broker.step (Broker.interval_fires 0) running).

End Scenario.

(** ** The properties the runs are checked against *)

Module Claimed.

Section Observe.
Import Observe.
Context {O : Type} (callback : Callback O).

(** The batches handed to the callback so far, end to end. *)
Definition delivered (w : t O) : list DbTaskEventRow.t :=
  concat (batch <$> invocations w).

(** The events of the subscription's task in the store. *)
Definition persisted (w : t O) : list DbTaskEventRow.t :=
  filter (λ e, DbTaskEventRow.taskId e = taskId w) (Store.events (store w)).

(** Rows in the order of their sequence numbers, none twice. *)
Definition ascending (l : list DbTaskEventRow.t) : Prop :=
  StronglySorted (λ x y, (DbTaskEventRow.id x < DbTaskEventRow.id y)%Z) l.


(** The calls of the callback come in rounds, one for each batch that is
    not empty: the batch is handed over without an error, the cursor being
    at the batch's last row already; and if that call throws, the [catch]
    block calls once more, with the value thrown for an error (none when
    the value is [undefined]) and no row. *)
Inductive in_rounds : list Invocation → Prop :=
| rounds_none : in_rounds []
| rounds_delivery l events :
    in_rounds l → events ≠ [] →
    in_rounds (l ++ [invoked None events (DbTaskEventRow.id <$> last events)])
| rounds_caught l events v :
    in_rounds l → events ≠ [] →
    in_rounds (l ++ [invoked None events (DbTaskEventRow.id <$> last events);
                     invoked (as_error v) [] (DbTaskEventRow.id <$> last events)]).

(** The loop has ended: its condition failed, or an exception left it. *)
Definition over (w : t O) : Prop :=
  loop w = returned ∨ ∃ e, loop w = threw e.

(** The callback calls that can still begin once the handle has been
    called: none, or the delivery of one batch, followed by the call of the
    [catch] block when that delivery throws. *)
Definition late_calls (extra : list Invocation) : Prop :=
  extra = [] ∨
  ∃ events c,
    events ≠ [] ∧
    (extra = [invoked None events c] ∨
     ∃ v, extra = [invoked None events c; invoked (as_error v) [] c]).

(** A throw of the callback on a batch leaves the loop polling. *)
Definition polling_survives_throw (w : t O) : Prop :=
  ∀ events e w',
    loop w = await_getEvents (settled (fulfilled (value_events events))) →
    throws (callback None events (observer w)) = Some e →
    step callback resumes w = Some w' →
    loop w' = await_delay.



End Observe.

Section Broker.
Import Broker.

(** The worlds a broker process can get into, from a fresh broker on some
    store. *)
Definition reachable (w : t) : Prop :=
  ∃ s ls, run ls (create s) = Some w.

(** The job a label picks up or answers. *)
Definition touched (l : Label) : option nat :=
  match l with
  | store_answers j | store_rejects j _ | resumes j => Some j
  | _ => None
  end.

(** A call of [claim], [dispatch], [emitLog] or [complete] suspended at the
    store call it awaits. *)
Definition awaits_store (job : Job) : Prop :=
  match job with
  | claim_await_claimTask (sent _)
  | dispatch_await_createTask (sent _)
  | emitLog_await_emit (sent _)
  | complete_await_setStatus _ _ (sent _) => True
  | _ => False
  end.

(** A call that has returned or thrown. *)
Definition ended (job : Job) : Prop :=
  match job with
  | claim_returned _ | dispatch_returned _ | returned_void | threw _ => True
  | _ => False
  end.

(** The promises resolved so far are older than the current one. *)
Definition gate_fresh (w : t) : Prop :=
  deferredDispatch w < deferreds w ∧
  Forall (λ p, p < deferredDispatch w) (resolved w).

(** The state the run [Scenario.dispatch_in_the_gap] leaves the broker in,
    as far as the first call of [claim] is concerned: it waits for the
    second promise, only the first has been resolved, and no call of
    [dispatch] is on its way to resolve another. *)
Definition missed (w : t) : Prop :=
  jobs w !! 0 = Some (claim_await_dispatch 1) ∧
  resolved w = [0] ∧
  Forall (λ job, ∀ p, job ≠ dispatch_await_createTask p) (jobs w).

(** Any step but a new call of [dispatch]. *)
Definition not_dispatch (l : Label) : Prop :=
  match l with
  | calls_dispatch _ => False
  | _ => True
  end.

(** Once [complete] has been called on an agent, its interval does not fire
    any more. *)
Definition no_beat_once_complete_is_called
    (w : t) (a : nat) (result : CompletedTaskState) : Prop :=
  ∀ agent h ls w',
    agents w !! a = Some agent →
    TaskAgent.heartbeatInterval agent = Some h →
    run (calls_complete a result :: ls) w = Some w' →
    step (interval_fires h) w' = None.

(** When the store rejects the call of job [j], the job goes on and ends
    by throwing the error to its caller. *)
Definition failure_propagates (w : t) (j : nat) (e : Error) : Prop :=
  ∀ w1,
    step (store_rejects j e) w = Some w1 →
    ∃ w2, step (resumes j) w1 = Some w2 ∧ jobs w2 !! j = Some (threw e).

End Broker.

(** Event rows carry strictly increasing, positive sequence numbers below
    the next one to be handed out. *)
Definition numbered (s : Store.t) : Prop :=
  StronglySorted (λ x y, (DbTaskEventRow.id x < DbTaskEventRow.id y)%Z)
    (Store.events s) ∧
  Forall (λ e, (0 < DbTaskEventRow.id e < Store.nextEvent s)%Z) (Store.events s) ∧
  (0 < Store.nextEvent s)%Z.



End Claimed.

(** ** Further properties of the broker and its agents *)

Module Further.

Section Broker.
Import Broker.

(** No task of the store is waiting to be claimed. *)
Definition none_open (s : Store.t) : Prop :=
  Forall (λ row, DbTaskRow.status row ≠ open) (Store.tasks s).


(** A run id the heartbeat callback accepts. *)
Definition bound (v : option string) : Prop := TaskAgent.not_truthy v = false.

(** A claimed row on its way to a call of [claim] carries a run id. *)
Definition brings_bound_row (job : Job) : Prop :=
  match job with
  | claim_await_claimTask (settled (fulfilled (value_row (Some row)))) =>
      bound (DbTaskRow.runId row)
  | _ => True
  end.

(** Every agent has a run id, and no interval callback has thrown. *)
Definition runs_bound (w : t) : Prop :=
  Forall (λ agent, bound (TaskState.runId (TaskAgent.state agent))) (agents w) ∧
  Forall brings_bound_row (jobs w) ∧
  uncaught w = [].

(** The completion events of a log, as pairs of run id and message. *)
Definition completions (s : Store.t) : list (option string * string) :=
  (λ e, (DbTaskEventRow.runId e, DbTaskEventRow.body e))
    <$> filter (λ e, DbTaskEventRow.type e = completion) (Store.events s).

End Broker.

Section Observe.
Import Observe Claimed.
Context {O : Type}.

(** The rows a subscription started at [start] asks for: all rows when it
    was given no cursor, the rows past the cursor otherwise. *)
Definition past (start : option Z) (e : DbTaskEventRow.t) : Prop :=
  match start with
  | Some a => (a < DbTaskEventRow.id e)%Z
  | None => True
  end.

#[export] Instance past_dec start e : Decision (past start e).
Proof. unfold past. destruct start; apply _. Defined.

(** The events of the subscription's task in the store that a subscription
    started at [start] is to hand over. *)
Definition wanted (start : option Z) (w : t O) : list DbTaskEventRow.t :=
  filter (past start) (persisted w).

(** Where the cursor stands once the rows [l] have been handed over. *)
Definition cursor_from (start : option Z) (l : list DbTaskEventRow.t) : option Z :=
  match last l with
  | Some e => Some (DbTaskEventRow.id e)
  | None => start
  end.

(** What holds of a subscription started at [start] all along. *)
Definition following (start : option Z) (w : t O) : Prop :=
  numbered (store w) ∧
  in_rounds (invocations w) ∧
  after w = cursor_from start (delivered w) ∧
  (∃ rest, wanted start w = delivered w ++ rest) ∧
  (invocations w = [] ∨ delivered w ≠ []) ∧
  match loop w with
  | await_getEvents (sent c) =>
      c = call_getEvents (TaskStoreGetEventsOptions.mk (taskId w) (after w))
  | await_getEvents (settled (fulfilled v)) =>
      ∃ events rest,
        v = value_events events ∧ wanted start w = (delivered w ++ events) ++ rest
  | _ => True
  end.

(** The steps of the polling loop itself, as opposed to what happens around
    it (events being emitted, the handle being called). *)
Definition loop_step (l : Label) : Prop :=
  match l with
  | emits _ | unsubscribe => False
  | _ => True
  end.

#[export] Instance loop_step_dec l : Decision (loop_step l).
Proof. destruct l; apply _. Defined.

(** The number of steps a cancelled loop has left. *)
Definition steps_left (w : t O) : nat :=
  match loop w with
  | await_getEvents (sent _) => 3
  | await_getEvents (settled _) => 2
  | await_delay => 1
  | _ => 0
  end.

End Observe.

Section Collect.
Import Collect.
Context {Entity R : Type}.

(** The nodes handed to [visitNode] in the course of a run, in order. *)
Definition nodes_of (ls : list (Label Entity)) : list TraverseCatalogNode.t :=
  omap (λ l, match l with visits node => Some node | _ => None end) ls.

(** The entities the loads of a run came back with, in order. *)
Definition found (ls : list (Label Entity)) : list Entity :=
  omap (λ l, match l with entity_loaded _ (Some e) => Some e | _ => None end) ls.

(** A node within given depth bounds. *)
Definition in_window (lo hi : Z) (node : TraverseCatalogNode.t) : Prop :=
  (lo ≤ TraverseCatalogNode.depth node ≤ hi)%Z.

#[export] Instance in_window_dec lo hi node : Decision (in_window lo hi node).
Proof. unfold in_window. apply _. Defined.

(** The refs of the nodes of a run that lie within the bounds of a
    collector, in order. *)
Definition window_refs (c : t Entity R) (ls : list (Label Entity)) : list string :=
  TraverseCatalogNode.entityRef
    <$> filter (in_window (minDepth c) (maxDepth c)) (nodes_of ls).

(** The refs of the calls of [visitNode] that wait for a load. *)
Definition waiting_refs (c : t Entity R) : list string :=
  TraverseCatalogNode.entityRef <$> omap id (loading c).

End Collect.

Section Traverse.
Import Traverse.
Context {Entity EdgeData Filter : Type}.

Definition ref_of (n : InternalNode EdgeData) : string :=
  TraverseCatalogNode.entityRef (node n).

Definition depth_of (n : InternalNode EdgeData) : Z :=
  TraverseCatalogNode.depth (node n).

(** The nodes handed to [collect.visitNode], in the order of the calls. *)
Definition collected (cs : list (Call EdgeData Filter)) : list (InternalNode EdgeData) :=
  omap (λ c, match c with collect_visitNode n => Some n | _ => None end) cs.

(** The nodes handed to [follow.visitNode], in the order of the calls. *)
Definition followed (cs : list (Call EdgeData Filter)) : list (InternalNode EdgeData) :=
  omap (λ c, match c with follow_visitNode n => Some n | _ => None end) cs.

(** The nodes of the layer at hand whose callbacks are still to start. *)
Definition to_map (w : Traverse.t EdgeData Filter) : list (InternalNode EdgeData) :=
  match main w with
  | in_map rest => rest
  | _ => []
  end.

(** The nodes of the callbacks that wait for [collect.visitNode]. *)
Definition pending (layer : list (InternalNode EdgeData * Callback))
  : list (InternalNode EdgeData) :=
  omap (λ c, match c.2 with await_collect_visitNode => Some c.1 | _ => None end) layer.

(** The entity refs that a step of the environment names: the entities
    that the catalog answers with, the node that the follower puts
    forward. *)
Definition named (stringifyEntityRef : Entity → string) (l : Label Entity EdgeData)
  : list string :=
  match l with
  | catalog_answers entities => stringifyEntityRef <$> entities
  | follower_visits _ entityRef _ => [entityRef]
  | _ => []
  end.

(** The entity refs that a traversal was pointed to: by its initial set,
    and by the environment in the course of the run. *)
Definition asked (stringifyEntityRef : Entity → string)
    (initial : TraverseCatalogInitialSet Filter) (ls : list (Label Entity EdgeData))
  : list string :=
  match initial with
  | initial_entityRef entityRef => [entityRef]
  | initial_entityRefs entityRefs => entityRefs
  | initial_filter _ => []
  end ++ (ls ≫= named stringifyEntityRef).

(** No entity is handed over twice: the nodes handed to the collector have
    distinct refs, and so have those handed to the follower together with
    those that wait to be; all of them are in [visitedNodes]. *)
Definition once (w : Traverse.t EdgeData Filter) : Prop :=
  NoDup (ref_of <$> collected (calls w)) ∧
  (∀ n, n ∈ collected (calls w) → ref_of n ∈ visitedNodes w) ∧
  NoDup (ref_of <$> followed (calls w) ++ pending (currentLayer w)) ∧
  (∀ n, n ∈ followed (calls w) ++ pending (currentLayer w) →
        ref_of n ∈ visitedNodes w).

(** Nothing has happened yet. *)
Definition untouched (w : Traverse.t EdgeData Filter) : Prop :=
  currentLayer w = [] ∧ nextLayer w = [] ∧ visitedNodes w = ∅ ∧
  collected (calls w) = [] ∧ followed (calls w) = [] ∧ rejection w = None.

(** How the state of [traverseCatalog] itself goes with that of its
    callbacks. *)
Definition orderly (w : Traverse.t EdgeData Filter) : Prop :=
  match main w with
  | await_getEntities => untouched w ∧ collect_complete ∉ calls w
  | in_map _ | await_all => collect_complete ∉ calls w
  | returned =>
      all_finished w ∧ rejection w = None ∧
      ∃ cs, calls w = cs ++ [collect_complete] ∧ collect_complete ∉ cs
  | threw e =>
      (collect_complete ∉ calls w) ∧
      (rejection w = Some e ∨ (rejection w = None ∧ currentLayer w = []))
  end.

(** A node is an initial one, or one step below a node that was handed to
    the follower. *)
Definition rooted (cs : list (Call EdgeData Filter)) (n : InternalNode EdgeData) : Prop :=
  depth_of n = 0%Z ∨
  ∃ m, m ∈ followed cs ∧ depth_of n = (depth_of m + 1)%Z.

(** The traversal works on the layer at depth [d]: its callbacks, those
    still to start too, are for nodes at that depth, the nodes put forward
    are one step below, and the calls so far were for nodes at depths up to
    [d], in ascending order. *)
Definition layered (d : Z) (w : Traverse.t EdgeData Filter) : Prop :=
  (-1 ≤ d)%Z ∧
  Forall (λ n, depth_of n = d ∧ (0 ≤ d)%Z ∧ rooted (calls w) n) (to_map w) ∧
  Forall (λ c, depth_of c.1 = d ∧ (0 ≤ d)%Z ∧ rooted (calls w) c.1 ∧
               (c.2 = await_follow_visitNode → c.1 ∈ followed (calls w)))
    (currentLayer w) ∧
  Forall (λ n, depth_of n = (d + 1)%Z ∧ rooted (calls w) n) (nextLayer w) ∧
  Forall (λ n, (0 ≤ depth_of n ≤ d)%Z ∧ rooted (calls w) n) (collected (calls w)) ∧
  Forall (λ n, (0 ≤ depth_of n ≤ d)%Z ∧ rooted (calls w) n) (followed (calls w)) ∧
  StronglySorted Z.le (depth_of <$> collected (calls w)) ∧
  StronglySorted Z.le (depth_of <$> followed (calls w)).

(** The entities pointed to are those that were visited, those whose
    callbacks are still to start, and those that wait in the next layer. *)
Definition pointed (refs : list string) (w : Traverse.t EdgeData Filter) : Prop :=
  ∀ r, r ∈ refs ↔
       r ∈ visitedNodes w ∨ r ∈ ref_of <$> to_map w ∨ r ∈ ref_of <$> nextLayer w.

(** A call of [visit], as opposed to the other steps of the environment. *)
Definition is_visit (l : Label Entity EdgeData) : Prop :=
  match l with
  | follower_visits _ _ _ => True
  | _ => False
  end.

(** A follower that calls [visit] in time: while the callback that made
    the closure waits for the promise that [follow.visitNode] returned. *)
Definition in_time (l : Label Entity EdgeData) (w : Traverse.t EdgeData Filter) : bool :=
  match l with
  | follower_visits k _ _ =>
      match followed (calls w) !! k with
      | Some current =>
          existsb
            (λ c, String.eqb (ref_of c.1) (ref_of current) &&
                  match c.2 with await_follow_visitNode => true | _ => false end)
            (currentLayer w)
      | None => true
      end
  | _ => true
  end.

(** Every call of [visit] in a run is made in time. *)
Fixpoint timely (stringifyEntityRef : Entity → string) (ls : list (Label Entity EdgeData))
    (w : Traverse.t EdgeData Filter) : bool :=
  match ls with
  | [] => true
  | l :: ls' =>
      in_time l w &&
      match Traverse.step stringifyEntityRef l w with
      | Some w' => timely stringifyEntityRef ls' w'
      | None => true
      end
  end.

(** Every visited entity was handed to the follower, unless its callback
    still waits for the collector or has failed; and to the collector, if
    that has a [visitNode]. *)
Definition accounted (w : Traverse.t EdgeData Filter) : Prop :=
  (∀ r, r ∈ visitedNodes w →
        r ∈ ref_of <$> followed (calls w) ∨
        ∃ j n at_, currentLayer w !! j = Some (n, at_) ∧ ref_of n = r ∧
                   (at_ = await_collect_visitNode ∨ ∃ e, at_ = rejected_with e)) ∧
  (has_visitNode w = true →
   ∀ r, r ∈ visitedNodes w → r ∈ ref_of <$> collected (calls w)).

End Traverse.

End Further.

(** ** Inputs of the further examples *)

Module Cases.

(** A call of [claim] has found the store empty and waits on the gate. *)
Definition waiting : Broker.t :=
  default (Broker.create Store.empty)
    (Broker.run [Broker.calls_claim; Broker.store_answers 0; Broker.resumes 0]
       (Broker.create Store.empty)).

(** A task has then been dispatched, and the store has answered the call
    of [dispatch] (job 1). *)
Definition dispatch_answered : Broker.t :=
  default waiting
    (Broker.run [Broker.calls_dispatch Scenario.two_steps; Broker.store_answers 1]
       waiting).

(** A subscription from sequence number zero to a log of two events, and
    what it is once the first poll has been answered and picked up. *)
Definition subscribed : Observe.t unit :=
  Observe.observe Scenario.two_events Scenario.from_zero tt.

Definition polled : Observe.t unit :=
  default subscribed
    (Observe.run Scenario.accepts [Observe.store_answers; Observe.resumes] subscribed).

(** The subscription cancelled while its first poll is in flight. *)
Definition unsubscribed : Observe.t unit :=
  default subscribed (Observe.run Scenario.accepts [Observe.unsubscribe] subscribed).

(** Nodes handed to a collector: [web] at depth 0, [orders] at depths 1
    and 2, [team] at depth 101. *)
Definition web : TraverseCatalogNode.t :=
  TraverseCatalogNode.mk 0 "component:default/web".

Definition orders : TraverseCatalogNode.t :=
  TraverseCatalogNode.mk 1 "api:default/orders".

Definition orders_again : TraverseCatalogNode.t :=
  TraverseCatalogNode.mk 2 "api:default/orders".

Definition team_far : TraverseCatalogNode.t :=
  TraverseCatalogNode.mk 101 "group:default/team".

(** Entities are stood for by their names. *)
Definition visits_only : list (Collect.Label string) :=
  [Collect.visits web; Collect.visits team_far; Collect.visits orders;
   Collect.visits orders_again].

(** The loads come back in another order than the nodes came, and the
    second finds nothing. *)
Definition visits_and_loads : list (Collect.Label string) :=
  [Collect.visits web; Collect.visits orders; Collect.visits orders_again;
   Collect.entity_loaded 1 (Some "orders"); Collect.entity_loaded 0 None].

Definition from_depth_one : option RefOptions.t :=
  Some (RefOptions.mk (Some 1%Z) None None).

Definition without_missing : option RefOptions.t :=
  Some (RefOptions.mk None None (Some false)).

(** A traversal from [web], whose follower puts forward [orders] and
    [team] for it, and [team] again for [orders]; the collector has a
    [visitNode] and no [visitEdge].  Edge data is the type of the
    relation. *)
Definition from_web : Traverse.t string unit :=
  Traverse.traverseCatalog None
    (Traverse.initial_entityRef "component:default/web") true false.

Definition first_layer : list (Traverse.Label string string) :=
  [Traverse.callback_starts None; Traverse.collect_resolves 0;
   Traverse.follower_visits 0 "api:default/orders" (Some "dependsOn");
   Traverse.follower_visits 0 "group:default/team" (Some "ownedBy");
   Traverse.follow_resolves 0; Traverse.collect_resolves 0;
   Traverse.collect_resolves 0; Traverse.all_settles].

Definition second_layer : list (Traverse.Label string string) :=
  [Traverse.callback_starts None; Traverse.callback_starts None;
   Traverse.collect_resolves 0; Traverse.collect_resolves 1;
   Traverse.follower_visits 1 "group:default/team" (Some "ownedBy");
   Traverse.follow_resolves 0; Traverse.follow_resolves 1;
   Traverse.collect_resolves 0; Traverse.collect_resolves 1;
   Traverse.all_settles; Traverse.callback_starts None; Traverse.all_settles].

Definition traversed : Traverse.t string unit :=
  default from_web (Traverse.run id (first_layer ++ second_layer) from_web).

(** The same traversal when the collector throws on [orders], at once. *)
Definition collector_fails : list (Traverse.Label string string) :=
  first_layer ++
  [Traverse.callback_starts (Some (thrown_error "collector is broken"))].

Definition failing : Traverse.t string unit :=
  default from_web (Traverse.run id collector_fails from_web).

Definition failed_through : Traverse.t string unit :=
  default failing
    (Traverse.run id
       [Traverse.callback_starts None; Traverse.collect_resolves 1;
        Traverse.all_settles]
       failing).

(** The same traversal, and a call of [visit] after it has returned. *)
Definition visit_after_return : list (Traverse.Label string string) :=
  first_layer ++ second_layer ++
  [Traverse.follower_visits 0 "system:default/shop" None].

Definition visited_after_return : Traverse.t string unit :=
  default from_web (Traverse.run id visit_after_return from_web).

(** A follower that keeps the [visit] of [web], and calls it while [orders]
    is followed. *)
Definition late_visit : list (Traverse.Label string string) :=
  [Traverse.callback_starts None; Traverse.collect_resolves 0;
   Traverse.follower_visits 0 "api:default/orders" (Some "dependsOn");
   Traverse.follow_resolves 0; Traverse.collect_resolves 0; Traverse.all_settles;
   Traverse.callback_starts None; Traverse.collect_resolves 0;
   Traverse.follower_visits 1 "resource:default/db" (Some "dependsOn");
   Traverse.follower_visits 0 "group:default/team" (Some "ownedBy");
   Traverse.follow_resolves 0; Traverse.collect_resolves 0;
   Traverse.collect_resolves 0; Traverse.all_settles;
   Traverse.callback_starts None; Traverse.callback_starts None].

Definition visited_late : Traverse.t string unit :=
  default from_web (Traverse.run id late_visit from_web).

(** The calls [collect.visitNode] of the traversal as steps of a
    collector. *)
Definition handed_over : list (Collect.Label string) :=
  Collect.visits ∘ Traverse.node <$> Further.collected (Traverse.calls traversed).

End Cases.

(** * The event subscription *)

Section ObserveFacts.
Import Observe Claimed.
Context {O : Type} (callback : Callback O).

Implicit Types (w : t O) (ls : list Label).

Lemma observe_run_app ls1 ls2 w :
  run callback (ls1 ++ ls2) w = run callback ls1 w ≫= run callback ls2.
Proof.
  revert w. induction ls1 as [|l ls1 IH]; intros w; simpl; [done|].
  destruct (step callback l w); simpl; [apply IH | done].
Qed.

(** A loop that is over stays over: nothing is polled, nothing is called. *)
Lemma over_step l w w' :
  over w → step callback l w = Some w' →
  loop w' = loop w ∧ polls w' = polls w ∧ invocations w' = invocations w.
Proof.
  intros Hover Hstep.
  destruct l; simpl in Hstep;
    try (destruct Hover as [Hl | [e' Hl]]; rewrite Hl in Hstep; discriminate);
    by inversion Hstep.
Qed.

Lemma over_run ls w w' :
  over w → run callback ls w = Some w' →
  loop w' = loop w ∧ polls w' = polls w ∧ invocations w' = invocations w.
Proof.
  revert w. induction ls as [|l ls IH]; intros w Hover Hrun; simpl in Hrun.
  - by inversion Hrun.
  - destruct (step callback l w) as [w1|] eqn:Hstep; [|done].
    destruct (over_step _ _ _ Hover Hstep) as (Hl & Hp & Hi).
    assert (over w1) as Hover1 by (unfold over in *; by rewrite Hl).
    destruct (IH _ Hover1 Hrun) as (Hl' & Hp' & Hi').
    by rewrite Hl', Hp', Hi', Hl, Hp, Hi.
Qed.

(** A rejected poll that has not been picked up is only ever picked up. *)
Lemma rejected_run e ls w w' :
  loop w = await_getEvents (settled (rejected e)) →
  run callback ls w = Some w' →
  (loop w' = await_getEvents (settled (rejected e)) ∨ loop w' = threw e) ∧
  polls w' = polls w ∧ invocations w' = invocations w.
Proof.
  revert w. induction ls as [|l ls IH]; intros w Hl Hrun; simpl in Hrun.
  - inversion Hrun; subst. auto.
  - destruct (step callback l w) as [w1|] eqn:Hstep; [|done].
    destruct l; simpl in Hstep; rewrite ?Hl in Hstep; try discriminate;
      inversion Hstep; subst; clear Hstep.
    + by apply (IH (set_store (Store.emit o (store w)) w) Hl) in Hrun.
    + assert (over (set_loop (threw e) w)) as Hover by (right; by exists e).
      destruct (over_run _ _ _ Hover Hrun) as (Hl' & Hp' & Hi').
      rewrite Hl', Hp', Hi'. simpl. auto.
    + by apply (IH (set_cancelled w) Hl) in Hrun.
Qed.

(** C10. When the store rejects a [getEvents] call of the polling loop, the
    loop ends for good once it picks the rejection up: whatever happens
    afterwards, no further poll begins and the callback is not called
    again, so the store's error never reaches its error channel. *)
Theorem getEvents_rejection_ends_the_loop (c : StoreCall) (e : Error) w :
  loop w = await_getEvents (sent c) →
  (∃ w', run callback [store_rejects e; resumes] w = Some w' ∧
         loop w' = threw e) ∧
  ∀ ls w',
    run callback (store_rejects e :: ls) w = Some w' →
    (loop w' = await_getEvents (settled (rejected e)) ∨ loop w' = threw e) ∧
    polls w' = polls w ∧ invocations w' = invocations w.
Proof.
  intros Hl. split.
  - simpl. rewrite Hl. simpl. eauto.
  - intros ls w' Hrun. simpl in Hrun. rewrite Hl in Hrun.
    by apply (rejected_run e) in Hrun.
Qed.

(** What [deliver] does, case by case. *)
Lemma deliver_cases events w :
  (events = [] ∧ deliver callback events w = set_loop await_delay w) ∨
  (events ≠ [] ∧
   let c := DbTaskEventRow.id <$> last events in
   let o1 := callback None events (observer w) in
   match throws o1 with
   | None =>
       deliver callback events w =
       mk (store w) (taskId w) (cancelled w || unsubscribes o1) c await_delay
          (next o1) (polls w) (invocations w ++ [invoked None events c])
   | Some e =>
       let o2 := callback (as_error e) [] (next o1) in
       deliver callback events w =
       mk (store w) (taskId w)
          (cancelled w || unsubscribes o1 || unsubscribes o2) c
          (match throws o2 with None => await_delay | Some e' => threw e' end)
          (next o2) (polls w)
          ((invocations w ++ [invoked None events c]) ++ [invoked (as_error e) [] c])
   end).
Proof.
  destruct events as [|ev events].
  - left. done.
  - right. split; [done|]. unfold deliver, invoke. simpl length.
    rewrite bool_decide_eq_true_2 by done. cbn zeta.
    cbn [observer set_after store taskId cancelled after loop polls invocations].
    destruct (throws (callback None (ev :: events) (observer w))) as [e|]; [|done].
    cbn [observer set_after store taskId cancelled after loop polls invocations].
    by destruct (throws (callback (as_error e) [] _)).
Qed.

Lemma deliver_after_unsubscribe events w :
  cancelled w = true →
  polls (deliver callback events w) = polls w ∧
  cancelled (deliver callback events w) = true ∧
  (∀ p, loop (deliver callback events w) ≠ await_getEvents p) ∧
  ∃ extra,
    invocations (deliver callback events w) = invocations w ++ extra ∧
    late_calls extra.
Proof.
  intros Hc.
  destruct (deliver_cases events w) as [[-> ->] | [Hne Hd]].
  - simpl. split_and!; [done..|]. exists []. rewrite app_nil_r.
    split; [done|by left].
  - cbn zeta in Hd.
    destruct (throws (callback None events (observer w))) as [e|];
      rewrite Hd, ?Hc; simpl.
    + split_and!; [done|done|by destruct (throws _)|].
      eexists. rewrite <-app_assoc. split; [done|]. right. eauto 10.
    + split_and!; [done..|]. eexists. split; [done|]. right. eauto 10.
Qed.



Lemma emits_run os w :
  run callback (emits <$> os) w =
  Some (set_store (foldl (λ s o, Store.emit o s) (store w) os) w).
Proof.
  revert w. induction os as [|o os IH]; intros w; simpl.
  - by destruct w.
  - by rewrite IH.
Qed.

(** One round of a loop that is waiting for its delay and has not been
    cancelled: it polls past its cursor and hands over what it finds. *)
Lemma next_round w :
  loop w = await_delay →
  cancelled w = false →
  let poll := TaskStoreGetEventsOptions.mk (taskId w) (after w) in
  let events' := Store.getEvents poll (store w) in
  ∃ w2,
    run callback [delay_elapsed; store_answers; resumes] w = Some w2 ∧
    polls w2 = polls w ++ [poll] ∧
    (events' ≠ [] →
     ∃ extra,
       invocations w2 =
         invocations w ++
         invoked None events' (DbTaskEventRow.id <$> last events') :: extra).
Proof.
  intros Hl Hc poll events'.
  cbn [run step]. rewrite Hl. unfold loop_head. rewrite Hc.
  cbn [loop Store.exec]. unfold set_loop, set_store.
  cbn [store taskId cancelled after loop observer polls invocations].
  fold poll. fold events'.
  match goal with
  | |- context [deliver callback events' ?wq] =>
      destruct (deliver_cases events' wq) as [[Hnil Hd] | [Hne' Hd]]
  end.
  - eexists. split; [done|]. rewrite Hd. by split.
  - cbn zeta in Hd. cbn [observer store taskId cancelled polls invocations] in Hd.
    eexists. split; [done|].
    destruct (throws (callback None events' (observer w))) as [e'|]; rewrite Hd;
      cbn [polls invocations].
    + split; [done|]. intros _. eexists. by rewrite <-(app_assoc _ [_] [_]).
    + split; [done|]. intros _. by eexists.
Qed.

(** C2, as amended.  When the callback throws on a batch, the loop catches
    what was thrown and calls the callback again at once, with that value
    for an error (with no error when the value is [undefined]) and no
    events.  If this second call returns, the loop goes on to its delay; and
    unless the subscription has been cancelled, the next poll asks for the
    events past the batch and hands what it finds to the callback.  If the
    second call throws as well, what it throws leaves the loop: no poll
    begins and the callback is not called any more. *)
Theorem observer_error_is_handed_back events v w :
  loop w = await_getEvents (settled (fulfilled (value_events events))) →
  events ≠ [] →
  throws (callback None events (observer w)) = Some v →
  let c := DbTaskEventRow.id <$> last events in
  ∃ w1,
    step callback resumes w = Some w1 ∧
    invocations w1 =
      invocations w ++ [invoked None events c; invoked (as_error v) [] c] ∧
    after w1 = c ∧ polls w1 = polls w ∧
    match
      throws (callback (as_error v) [] (next (callback None events (observer w))))
    with
    | None =>
        loop w1 = await_delay ∧
        (cancelled w1 = false →
         ∀ os,
           let poll := TaskStoreGetEventsOptions.mk (taskId w) c in
           let events' :=
             Store.getEvents poll (foldl (λ s o, Store.emit o s) (store w) os) in
           ∃ w2,
             run callback ((emits <$> os) ++ [delay_elapsed; store_answers; resumes]) w1
               = Some w2 ∧
             polls w2 = polls w ++ [poll] ∧
             (events' ≠ [] →
              ∃ extra,
                invocations w2 =
                  invocations w1 ++
                  invoked None events' (DbTaskEventRow.id <$> last events') :: extra))
    | Some v' =>
        loop w1 = threw v' ∧
        ∀ ls w2,
          run callback ls w1 = Some w2 →
          loop w2 = threw v' ∧ polls w2 = polls w1 ∧ invocations w2 = invocations w1
    end.
Proof.
  intros Hl Hne Ht1 c.
  destruct (deliver_cases events w) as [[-> _] | [_ Hd]]; [done|].
  cbn zeta in Hd. rewrite Ht1 in Hd. fold c in Hd.
  exists (deliver callback events w). simpl. rewrite Hl.
  split; [done|]. rewrite Hd. cbn [invocations loop after polls cancelled].
  split_and!; [by rewrite <-app_assoc|done..|].
  destruct (throws (callback (as_error v) [] _)) as [v'|] eqn:Ht2.
  - split; [done|]. intros ls w2 Hrun.
    apply over_run in Hrun as (H1 & H2 & H3); [|right; by eexists].
    by rewrite H1, H2, H3.
  - split; [done|].
    intros Hc os. rewrite observe_run_app, emits_run. cbn [mbind option_bind].
    match goal with
    | |- context [run callback _ ?wq] =>
        destruct (next_round wq eq_refl Hc) as (w2 & Hrun & Hp & Hi)
    end.
    exists w2. split; [done|]. split; [done|]. exact Hi.
Qed.

(** *** The batches replay the log *)

Lemma ascending_filter (P : DbTaskEventRow.t → Prop) `{!∀ x, Decision (P x)} l :
  ascending l → ascending (filter P l).
Proof.
  unfold ascending. induction 1 as [|x l Hl IH Hx]; [constructor|].
  rewrite filter_cons. destruct (decide (P x)); [|done].
  constructor; [done|]. rewrite Forall_forall in Hx |- *.
  intros y [_ Hy]%list_elem_of_filter. by apply Hx.
Qed.

Lemma filter_all {A} (P : A → Prop) `{!∀ x, Decision (P x)} (l : list A) :
  Forall P l → filter P l = l.
Proof.
  induction 1 as [|x l Hx _ IH]; [done|].
  by rewrite filter_cons, decide_True, IH.
Qed.

Lemma filter_none {A} (P : A → Prop) `{!∀ x, Decision (P x)} (l : list A) :
  Forall (λ x, ¬ P x) l → filter P l = [].
Proof.
  induction 1 as [|x l Hx _ IH]; [done|].
  by rewrite filter_cons, decide_False, IH.
Qed.


Lemma numbered_emit o s : numbered s → numbered (Store.emit o s).
Proof.
  intros (Hasc & Hrange & Hnext). unfold numbered. simpl. split_and!.
  - apply StronglySorted_app_2; [|done|repeat constructor].
    intros x1 x2 Hx1 ->%list_elem_of_singleton. simpl.
    rewrite Forall_forall in Hrange. specialize (Hrange x1 Hx1). lia.
  - apply Forall_app. split.
    + eapply Forall_impl; [done|]. simpl. intros; lia.
    + repeat constructor; simpl; lia.
  - lia.
Qed.

(** Whatever call the store serves, its events stay numbered. *)
Lemma numbered_exec c s : numbered s → numbered (fst (Store.exec c s)).
Proof.
  intros Hnum. destruct c; simpl; try done.
  - unfold Store.claimTask. by destruct (Store.claim_first _ _) as [[? ?]|].
  - by apply numbered_emit.
Qed.

Lemma persisted_numbered w :
  numbered (store w) →
  ascending (persisted w) ∧
  Forall (λ e, (0 < DbTaskEventRow.id e)%Z) (persisted w).
Proof.
  intros (Hasc & Hrange & _). split.
  - by apply ascending_filter.
  - rewrite Forall_forall in Hrange |- *.
    intros x [_ Hx]%list_elem_of_filter. specialize (Hrange x Hx). lia.
Qed.

Lemma getEvents_persisted a w :
  Store.getEvents (TaskStoreGetEventsOptions.mk (taskId w) (Some a)) (store w) =
  filter (λ e, (a < DbTaskEventRow.id e)%Z) (persisted w).
Proof.
  unfold Store.getEvents, persisted. rewrite list_filter_filter.
  apply list_filter_iff. intros e. unfold Store.selected. simpl. tauto.
Qed.

Lemma delivered_snoc (l : list Invocation) i :
  concat (batch <$> (l ++ [i])) = concat (batch <$> l) ++ batch i.
Proof. by rewrite fmap_app, concat_app; simpl; rewrite app_nil_r. Qed.





Lemma taskId_deliver events w : taskId (deliver callback events w) = taskId w.
Proof.
  destruct (deliver_cases events w) as [[-> ->] | [_ Hd]]; [done|].
  cbn zeta in Hd. by destruct (throws _); rewrite Hd.
Qed.

Lemma taskId_step l w w' :
  step callback l w = Some w' → taskId w' = taskId w.
Proof.
  intros Hstep. destruct l; simpl in Hstep.
  - by inversion Hstep.
  - destruct (loop w) as [[c|r]| | |]; try discriminate.
    destruct (Store.exec c (store w)). by inversion Hstep.
  - destruct (loop w) as [[c|r]| | |]; try discriminate. by inversion Hstep.
  - destruct (loop w) as [[c|[[ | | |events]|e]]| | |]; try discriminate;
      inversion Hstep; subst; [apply taskId_deliver|done].
  - destruct (loop w); try discriminate. inversion Hstep; subst.
    unfold loop_head. by destruct (cancelled w).
  - by inversion Hstep.
Qed.

Lemma taskId_run ls w w' :
  run callback ls w = Some w' → taskId w' = taskId w.
Proof.
  revert w. induction ls as [|l ls IH]; intros w Hrun; simpl in Hrun.
  - by inversion Hrun.
  - destruct (step callback l w) as [w1|] eqn:Hstep; [|done].
    rewrite (IH _ Hrun). by eapply taskId_step.
Qed.



End ObserveFacts.

(** A first poll that the store rejects: the observer is never called. *)
Lemma getEvents_rejection_ends_the_loop_witness :
  let w := Observe.observe Scenario.one_event Scenario.from_zero tt in
  Observe.loop w = Observe.await_getEvents (sent (call_getEvents Scenario.from_zero)) ∧
  ((∃ w', Observe.run Scenario.accepts
            [Observe.store_rejects "connection lost"; Observe.resumes] w = Some w' ∧
          Observe.loop w' = Observe.threw "connection lost") ∧
   ∀ ls w',
     Observe.run Scenario.accepts (Observe.store_rejects "connection lost" :: ls) w = Some w' →
     (Observe.loop w' = Observe.await_getEvents (settled (rejected "connection lost")) ∨
      Observe.loop w' = Observe.threw "connection lost") ∧
     Observe.polls w' = Observe.polls w ∧
     Observe.invocations w' = Observe.invocations w).
Proof.
  split; [reflexivity|].
  apply (getEvents_rejection_ends_the_loop Scenario.accepts
           (call_getEvents Scenario.from_zero)).
  reflexivity.
Defined.



(** C2 as written fails for a callback that throws on every call: its
    throw on the error channel leaves the loop, which never polls again. *)
Lemma broken_observer_ends_polling :
  ¬ Claimed.polling_survives_throw Scenario.always_throws Scenario.batch_ready.
Proof.
  intros Hsurvives.
  specialize (Hsurvives _ (thrown_error "observer is broken") _
                eq_refl eq_refl eq_refl).
  vm_compute in Hsurvives. discriminate.
Qed.

Lemma observer_error_is_handed_back_witness :
  let w := Scenario.batch_ready in
  let events := Store.events Scenario.one_event in
  let c := Some 1%Z in
  (∃ w1,
     Observe.step Scenario.throws_on_events Observe.resumes w = Some w1 ∧
     Observe.invocations w1 =
       Observe.invocations w ++
       [Observe.invoked None events c; Observe.invoked (Some "bad event") [] c] ∧
     Observe.after w1 = c ∧ Observe.polls w1 = Observe.polls w ∧
     Observe.loop w1 = Observe.await_delay ∧
     (Observe.cancelled w1 = false →
      ∀ os,
        let poll := TaskStoreGetEventsOptions.mk (Observe.taskId w) c in
        let events' :=
          Store.getEvents poll
            (foldl (λ s o, Store.emit o s) (Observe.store w) os) in
        ∃ w2,
          Observe.run Scenario.throws_on_events
            ((Observe.emits <$> os) ++
             [Observe.delay_elapsed; Observe.store_answers; Observe.resumes]) w1
            = Some w2 ∧
          Observe.polls w2 = Observe.polls w ++ [poll] ∧
          (events' ≠ [] →
           ∃ extra,
             Observe.invocations w2 =
               Observe.invocations w1 ++
               Observe.invoked None events' (DbTaskEventRow.id <$> last events')
               :: extra))) ∧
  (∃ w1,
     Observe.step Scenario.always_throws Observe.resumes w = Some w1 ∧
     Observe.invocations w1 =
       Observe.invocations w ++
       [Observe.invoked None events c;
        Observe.invoked (Some "observer is broken") [] c] ∧
     Observe.after w1 = c ∧ Observe.polls w1 = Observe.polls w ∧
     Observe.loop w1 = Observe.threw "observer is broken" ∧
     ∀ ls w2,
       Observe.run Scenario.always_throws ls w1 = Some w2 →
       Observe.loop w2 = Observe.threw "observer is broken" ∧
       Observe.polls w2 = Observe.polls w1 ∧
       Observe.invocations w2 = Observe.invocations w1).
Proof.
  split.
  - exact (observer_error_is_handed_back Scenario.throws_on_events
             (Store.events Scenario.one_event) (thrown_error "bad event")
             Scenario.batch_ready eq_refl ltac:(discriminate) eq_refl).
  - exact (observer_error_is_handed_back Scenario.always_throws
             (Store.events Scenario.one_event)
             (thrown_error "observer is broken")
             Scenario.batch_ready eq_refl ltac:(discriminate) eq_refl).
Defined.

Lemma numbered_empty : Claimed.numbered Store.empty.
Proof. unfold Claimed.numbered. simpl. split_and!; [constructor|constructor|lia]. Qed.

Lemma numbered_one_event : Claimed.numbered Scenario.one_event.
Proof. apply numbered_emit, numbered_empty. Qed.



(** A callback that throws [undefined] is called again with no error at
    all: the call of the [catch] block differs from a delivery by its empty
    batch only. *)
Example undefined_is_handed_back_as_no_error :
  Observe.invocations
    <$> Observe.run Scenario.throws_undefined [Observe.store_answers; Observe.resumes]
          (Observe.observe Scenario.one_event Scenario.from_zero false)
  = Some [Observe.invoked None (Store.events Scenario.one_event) (Some 1%Z);
          Observe.invoked None [] (Some 1%Z)].
Proof. reflexivity. Qed.

(** * The broker and its agents *)

Section BrokerFacts.
Import Broker Claimed.

Implicit Types (w : t) (ls : list Label) (j : nat) (job : Job).

(** The shapes a job can have when it is asked to go on. *)
Ltac job_cases job :=
  destruct job
    as [[c|[[ |[row|]| | ]|e]]|p| |[c|[[taskId| | | ]|e]]| |[c|[v|e]]
       |a' result [c|[v|e]]| | |].

Lemma lookup_set_job_eq j job w :
  j < length (jobs w) → jobs (set_job j job w) !! j = Some job.
Proof. intros Hj. by apply list_lookup_insert_eq. Qed.

Lemma broker_run_app ls1 ls2 w :
  run (ls1 ++ ls2) w = run ls1 w ≫= run ls2.
Proof.
  revert w. induction ls1 as [|l ls1 IH]; intros w; simpl; [done|].
  destruct (step l w); simpl; [apply IH | done].
Qed.

(** A step leaves alone every job it does not pick up or answer. *)
Lemma step_other_job l w w' j job :
  step l w = Some w' →
  touched l ≠ Some j →
  jobs w !! j = Some job →
  jobs w' !! j = Some job.
Proof.
  intros Hstep Hl Hj.
  assert (∀ job', (jobs w ++ [job']) !! j = Some job) as Happ.
  { intros job'. by apply lookup_app_l_Some. }
  destruct l; simpl in Hstep, Hl.
  - inversion Hstep; subst. apply Happ.
  - inversion Hstep; subst. apply Happ.
  - destruct (agents w !! agent); [|done]. inversion Hstep; subst. apply Happ.
  - destruct (agents w !! agent); [|done]. inversion Hstep; subst. apply Happ.
  - destruct (jobs w !! job0) as [job1|]; [|done].
    destruct (awaited job1) as [[c|r]|]; try done.
    destruct (Store.exec c (storage w)). inversion Hstep; subst. simpl.
    rewrite list_lookup_insert_ne; [done|congruence].
  - destruct (jobs w !! job0) as [job1|]; [|done].
    destruct (awaited job1) as [[c|r]|]; try done.
    inversion Hstep; subst. simpl.
    rewrite list_lookup_insert_ne; [done|congruence].
  - destruct (jobs w !! job0) as [job1|]; [|done].
    assert (job0 ≠ j) as Hne by congruence.
    job_cases job1;
      simpl in Hstep; try discriminate.
    all: try (inversion Hstep; subst; simpl; by rewrite list_lookup_insert_ne).
    + case_bool_decide; [|done]. inversion Hstep; subst; simpl.
      by rewrite list_lookup_insert_ne.
    + destruct (agents w !! a') as [ag|]; [|done]. inversion Hstep; subst.
      unfold clearInterval. destruct (TaskAgent.heartbeatInterval ag); simpl;
        by rewrite list_lookup_insert_ne.
  - destruct (intervals w !! handle) as [[a [|]]|]; try done.
    destruct (agents w !! a) as [ag|]; [|done].
    destruct (TaskAgent.beat ag); inversion Hstep; subst; [done|apply Happ].
Qed.

(** A call that has ended takes no further step. *)
Lemma ended_no_step l w j job :
  ended job → jobs w !! j = Some job → touched l = Some j → step l w = None.
Proof.
  intros Hend Hj Hl.
  destruct l; simpl in Hl; try discriminate; injection Hl as ->; simpl;
    rewrite Hj; by destruct job.
Qed.

Lemma ended_stays ls w w' j job :
  ended job → jobs w !! j = Some job → run ls w = Some w' →
  jobs w' !! j = Some job.
Proof.
  intros Hend. revert w. induction ls as [|l ls IH]; intros w Hj Hrun; simpl in Hrun.
  - by inversion Hrun; subst.
  - destruct (step l w) as [w1|] eqn:Hstep; [|done].
    apply (IH w1); [|done].
    apply (step_other_job l w); [done| |done].
    intros Hl. by rewrite (ended_no_step l w j job) in Hstep.
Qed.

(** C6, as amended.  When the store rejects the call that [claim],
    [dispatch], [emitLog] or [complete] awaits ([claimTask], [createTask],
    [emit], [setStatus]), the call throws that error to its caller: it is
    over, has touched neither the store nor the dispatch gate nor any agent
    or interval, and never calls the store again. *)
Theorem awaited_failure_reaches_the_caller w j job e :
  jobs w !! j = Some job →
  awaits_store job →
  ∃ w1,
    step (store_rejects j e) w = Some w1 ∧
    step (resumes j) w1 = Some (set_job j (threw e) w) ∧
    jobs (set_job j (threw e) w) !! j = Some (threw e) ∧
    ∀ ls w', run ls (set_job j (threw e) w) = Some w' →
             jobs w' !! j = Some (threw e).
Proof.
  intros Hj Hjob.
  assert (j < length (jobs w)) as Hlen by by eapply lookup_lt_Some.
  assert (jobs (set_job j (threw e) w) !! j = Some (threw e)) as Hthrew
    by by apply lookup_set_job_eq.
  eexists. split_and!.
  - simpl. rewrite Hj.
    destruct job as [[c|r]|p| |[c|r]| |[c|r]|a result [c|r]| | |]; try done.
  - destruct job as [[c|r]|p| |[c|r]| |[c|r]|a result [c|r]| | |]; try done;
      simpl; rewrite list_lookup_insert_eq by done; simpl;
      unfold set_job, set_jobs; simpl; by rewrite list_insert_insert_eq.
  - done.
  - intros ls w' Hrun. by eapply ended_stays.
Qed.

(** *** The heartbeat interval *)

Lemma step_intervals l w w' :
  step l w = Some w' →
  intervals w' = intervals w ∨
  (∃ i, intervals w' = intervals w ++ [i]) ∨
  (∃ k, intervals w' = alter clear k (intervals w)).
Proof.
  intros Hstep. destruct l; simpl in Hstep.
  - inversion Hstep; auto.
  - inversion Hstep; auto.
  - destruct (agents w !! agent); [|done]. inversion Hstep; auto.
  - destruct (agents w !! agent); [|done]. inversion Hstep; auto.
  - destruct (jobs w !! job) as [job1|]; [|done].
    destruct (awaited job1) as [[c|r]|]; try done.
    destruct (Store.exec c (storage w)). inversion Hstep; auto.
  - destruct (jobs w !! job) as [job1|]; [|done].
    destruct (awaited job1) as [[c|r]|]; try done. inversion Hstep; auto.
  - destruct (jobs w !! job) as [job1|]; [|done].
    job_cases job1;
      simpl in Hstep; try discriminate.
    all: try (inversion Hstep; subst; simpl; by eauto).
    + case_bool_decide; [|done]. inversion Hstep; auto.
    + destruct (agents w !! a') as [ag|]; [|done]. inversion Hstep; subst.
      unfold clearInterval. destruct (TaskAgent.heartbeatInterval ag); simpl; eauto.
  - destruct (intervals w !! handle) as [[a [|]]|]; try done.
    destruct (agents w !! a) as [ag|]; [|done].
    destruct (TaskAgent.beat ag); inversion Hstep; auto.
Qed.

(** A cleared interval stays cleared, and does not fire. *)
Lemma cleared_stays ls w w' h a :
  intervals w !! h = Some (interval a false) →
  run ls w = Some w' →
  intervals w' !! h = Some (interval a false).
Proof.
  revert w. induction ls as [|l ls IH]; intros w Hh Hrun; simpl in Hrun.
  - by inversion Hrun; subst.
  - destruct (step l w) as [w1|] eqn:Hstep; [|done].
    apply (IH w1); [|done].
    destruct (step_intervals _ _ _ Hstep) as [-> | [[i ->] | [k ->]]]; [done|..].
    + by apply lookup_app_l_Some.
    + destruct (decide (k = h)) as [->|Hne].
      * by rewrite list_lookup_alter_eq, Hh.
      * by rewrite list_lookup_alter_ne.
Qed.

Lemma cleared_silent w h a :
  intervals w !! h = Some (interval a false) → step (interval_fires h) w = None.
Proof. intros Hh. simpl. by rewrite Hh. Qed.

Lemma setStatus_rows r st s :
  Forall (λ row, DbTaskRow.runId row = Some r → DbTaskRow.status row = st)
    (Store.tasks (Store.setStatus (Some r) st s)).
Proof.
  simpl. apply Forall_fmap, Forall_forall. intros row _. simpl.
  unfold Store.status_row. case_bool_decide as Hrow; simpl; [done|].
  intros Hr. destruct Hrow. split; [by eexists|done].
Qed.

(** C5, as amended.  [complete(result)] calls [setStatus] for the agent's
    run, with [failed] when the result is [failed] and [completed]
    otherwise, which is the status the store then gives the rows of that
    run.  Once that call has been answered and [complete] goes on, it sends
    the emission of a [completion] event for the run, without waiting for
    it, clears the heartbeat interval and returns; from then on the interval
    never fires again. *)
Theorem complete_ends_the_run w a agent h i result :
  agents w !! a = Some agent →
  TaskAgent.heartbeatInterval agent = Some h →
  intervals w !! h = Some i →
  let run_id := TaskState.runId (TaskAgent.state agent) in
  let status :=
    match result with result_failed => failed | result_completed => completed end in
  step (calls_complete a result) w =
    Some (add_job (complete_await_setStatus a result (sent (call_setStatus run_id status))) w) ∧
  (∀ s r, run_id = Some r →
     Forall (λ row, DbTaskRow.runId row = Some r → DbTaskRow.status row = status)
       (Store.tasks (fst (Store.exec (call_setStatus run_id status) s)))) ∧
  ∀ j v,
    jobs w !! j = Some (complete_await_setStatus a result (settled (fulfilled v))) →
    ∃ w',
      step (resumes j) w = Some w' ∧
      jobs w' !! j = Some returned_void ∧
      jobs w' !! length (jobs w) =
        Some (unawaited
                (sent (call_emit
                         (TaskStoreEmitOptions.mk
                            (TaskState.taskId (TaskAgent.state agent)) run_id
                            ("Run completed with status: " +:+ result_string result)
                            completion)))) ∧
      storage w' = storage w ∧
      ∀ ls w'', run ls w' = Some w'' → step (interval_fires h) w'' = None.
Proof.
  intros Ha Hh Hi run_id status. split_and!.
  - simpl. rewrite Ha. by destruct result.
  - intros s r ->. replace status with (TaskAgent.complete_status result)
      by by destruct result.
    apply setStatus_rows.
  - intros j v Hj.
    assert (j < length (jobs w)) as Hlen by by eapply lookup_lt_Some.
    simpl. rewrite Hj. simpl. rewrite Ha.
    eexists. split; [done|]. unfold clearInterval. rewrite Hh. simpl.
    split_and!.
    + apply list_lookup_insert_eq. rewrite length_app. lia.
    + rewrite list_lookup_insert_ne by lia. by apply list_lookup_middle.
    + done.
    + intros ls w'' Hrun. destruct i as [o l].
      eapply cleared_silent, cleared_stays; [|done].
      simpl. by rewrite list_lookup_alter_eq, Hi.
Qed.

(** *** Claiming *)

Lemma gate_fresh_step l w w' : gate_fresh w → step l w = Some w' → gate_fresh w'.
Proof.
  intros Hw Hstep. destruct l; simpl in Hstep.
  - by inversion Hstep.
  - by inversion Hstep.
  - destruct (agents w !! agent); [|done]. by inversion Hstep.
  - destruct (agents w !! agent); [|done]. by inversion Hstep.
  - destruct (jobs w !! job) as [job1|]; [|done].
    destruct (awaited job1) as [[c|r]|]; try done.
    destruct (Store.exec c (storage w)). by inversion Hstep.
  - destruct (jobs w !! job) as [job1|]; [|done].
    destruct (awaited job1) as [[c|r]|]; try done. by inversion Hstep.
  - destruct (jobs w !! job) as [job1|]; [|done].
    job_cases job1;
      simpl in Hstep; try discriminate.
    all: try (inversion Hstep; subst; by simpl).
    + case_bool_decide; [|done]. by inversion Hstep.
    + inversion Hstep; subst. destruct Hw as [Hlt Hall].
      unfold gate_fresh. simpl. split; [lia|].
      constructor; [done|]. eapply Forall_impl; [done|]. simpl. lia.
    + destruct (agents w !! a') as [ag|]; [|done]. inversion Hstep; subst.
      unfold clearInterval. by destruct (TaskAgent.heartbeatInterval ag).
  - destruct (intervals w !! handle) as [[a [|]]|]; try done.
    destruct (agents w !! a) as [ag|]; [|done].
    destruct (TaskAgent.beat ag); by inversion Hstep.
Qed.

Lemma gate_fresh_reachable w : reachable w → gate_fresh w.
Proof.
  intros (s & ls & Hrun).
  assert (gate_fresh (create s)) as Hinit.
  { unfold gate_fresh. simpl. split; [lia|constructor]. }
  revert Hrun Hinit. generalize (create s). clear s.
  induction ls as [|l ls IH]; intros w0 Hrun Hw0; simpl in Hrun.
  - by inversion Hrun; subst.
  - destruct (step l w0) as [w1|] eqn:Hstep; [|done].
    eapply IH; [done|]. by eapply gate_fresh_step.
Qed.

Lemma gate_fresh_unresolved w : gate_fresh w → deferredDispatch w ∉ resolved w.
Proof.
  intros [_ Hall] Hin. rewrite Forall_forall in Hall.
  specialize (Hall _ Hin). lia.
Qed.

(** A call of [claim] returns only by going on with a row. *)
Lemma claim_returned_from_row l w w' j a :
  step l w = Some w' →
  jobs w' !! j = Some (claim_returned a) →
  jobs w !! j = Some (claim_returned a) ∨
  ∃ row,
    l = resumes j ∧
    jobs w !! j =
      Some (claim_await_claimTask (settled (fulfilled (value_row (Some row))))) ∧
    agents w' !! a =
      Some (TaskAgent.mk
              (TaskState.mk (DbTaskRow.spec row) (DbTaskRow.id row)
                 (DbTaskRow.runId row))
              (Some (length (intervals w)))).
Proof.
  intros Hstep Hj.
  assert (∀ job', job' ≠ claim_returned a →
                  (jobs w ++ [job']) !! j = Some (claim_returned a) →
                  jobs w !! j = Some (claim_returned a)) as Happ.
  { intros job' Hne [[_ H]|[_ H]]%lookup_snoc_Some; [done|congruence]. }
  assert (∀ k job', job' ≠ claim_returned a →
                    <[k := job']> (jobs w) !! j = Some (claim_returned a) →
                    jobs w !! j = Some (claim_returned a)) as Hins.
  { intros k job' Hne [(_ & H & _)|[_ H]]%list_lookup_insert_Some; [congruence|done]. }
  destruct l; simpl in Hstep.
  - inversion Hstep; subst. left. eapply Happ; [|exact Hj]; discriminate.
  - inversion Hstep; subst. left. eapply Happ; [|exact Hj]; discriminate.
  - destruct (agents w !! agent); [|done]. inversion Hstep; subst.
    left. eapply Happ; [|exact Hj]; discriminate.
  - destruct (agents w !! agent); [|done]. inversion Hstep; subst.
    left. eapply Happ; [|exact Hj]; discriminate.
  - destruct (jobs w !! job) as [job1|] eqn:Hjob; [|done].
    destruct (awaited job1) as [[c|r]|] eqn:Haw; try done.
    destruct (Store.exec c (storage w)). inversion Hstep; subst. left.
    eapply Hins; [|exact Hj]. by destruct job1.
  - destruct (jobs w !! job) as [job1|] eqn:Hjob; [|done].
    destruct (awaited job1) as [[c|r]|] eqn:Haw; try done.
    inversion Hstep; subst. left. eapply Hins; [|exact Hj]. by destruct job1.
  - destruct (jobs w !! job) as [job1|] eqn:Hjob; [|done].
    job_cases job1;
      simpl in Hstep; try discriminate.
    all: try (inversion Hstep; subst; left; eapply Hins; [|exact Hj]; discriminate).
    + inversion Hstep; subst; clear Hstep. simpl in Hj.
      apply list_lookup_insert_Some in Hj as [(-> & [= <-] & Hlen)|[_ Hj]]; [|by left].
      right. exists row. split_and!; [done..|]. simpl. by apply list_lookup_middle.
    + case_bool_decide; [|done]. inversion Hstep; subst. left. eapply Hins; [|exact Hj]; discriminate.
    + destruct (agents w !! a') as [ag|]; [|done]. inversion Hstep; subst.
      left. unfold clearInterval in Hj.
      destruct (TaskAgent.heartbeatInterval ag); simpl in Hj.
      * apply list_lookup_insert_Some in Hj as [(_ & [=] & _)|[_ Hj]].
        eapply Happ; [|exact Hj]; discriminate.
      * apply list_lookup_insert_Some in Hj as [(_ & [=] & _)|[_ Hj]].
        eapply Happ; [|exact Hj]; discriminate.
  - destruct (intervals w !! handle) as [[a' [|]]|]; try done.
    destruct (agents w !! a') as [ag|]; [|done].
    destruct (TaskAgent.beat ag); inversion Hstep; subst; left; [done|].
    eapply Happ; [|exact Hj]; discriminate.
Qed.

(** A call of [claim] that waits for a dispatch moves only by going on
    once its promise is resolved, and then asks the store again. *)
Lemma waiting_claim_step l w w' j p :
  jobs w !! j = Some (claim_await_dispatch p) →
  step l w = Some w' →
  jobs w' !! j = Some (claim_await_dispatch p) ∨
  (l = resumes j ∧ p ∈ resolved w ∧ storage w' = storage w ∧
   jobs w' !! j = Some (claim_await_claimTask (sent call_claimTask))).
Proof.
  intros Hj Hstep.
  destruct (decide (touched l = Some j)) as [Hl|Hl];
    [|left; by eapply step_other_job].
  assert (j < length (jobs w)) as Hlen by by eapply lookup_lt_Some.
  destruct l; simpl in Hl; try discriminate; injection Hl as ->;
    simpl in Hstep; rewrite Hj in Hstep; simpl in Hstep; try discriminate.
  case_bool_decide; [|done]. inversion Hstep; subst.
  right. split_and!; [done..|]. by apply lookup_set_job_eq.
Qed.

(** C7.  A call of [claim] asks the store for a task.  When the store hands
    over a row, the call returns a new agent whose state is the run id, the
    task id and the spec of that row, with its heartbeat interval set.  When
    the store has none, the call takes the promise of the dispatch gate and
    is suspended on it: as long as that promise is unresolved the call
    cannot go on (it does not spin), and once [signalDispatch] has resolved
    it the call goes on and asks the store again, so that it is where it
    started.  This holds of every call that waits on a promise of the gate.
    A call of [claim] returns in no other way than with the row of a claimed
    task. *)
Theorem claim_returns_a_claimed_task_or_waits w j :
  reachable w →
  jobs w !! j = Some (claim_await_claimTask (sent call_claimTask)) →
  (∃ w',
     run [store_answers j; resumes j] w = Some w' ∧
     storage w' = fst (Store.claimTask (storage w)) ∧
     match snd (Store.claimTask (storage w)) with
     | Some row =>
         jobs w' !! j = Some (claim_returned (length (agents w))) ∧
         agents w' !! length (agents w) =
           Some (TaskAgent.mk
                   (TaskState.mk (DbTaskRow.spec row) (DbTaskRow.id row)
                      (DbTaskRow.runId row))
                   (Some (length (intervals w)))) ∧
         intervals w' !! length (intervals w) =
           Some (interval (length (agents w)) true)
     | None =>
         jobs w' !! j = Some (claim_await_dispatch (deferredDispatch w)) ∧
         storage w' = storage w ∧ agents w' = agents w ∧
         step (resumes j) w' = None ∧
         ∃ w'',
           step (resumes j) (signalDispatch w') = Some w'' ∧
           jobs w'' !! j = Some (claim_await_claimTask (sent call_claimTask)) ∧
           storage w'' = storage w ∧ agents w'' = agents w
     end) ∧
  (∀ w0 k p,
     jobs w0 !! k = Some (claim_await_dispatch p) →
     (p ∉ resolved w0 → step (resumes k) w0 = None) ∧
     (p ∈ resolved w0 →
      ∃ w1,
        step (resumes k) w0 = Some w1 ∧
        jobs w1 !! k = Some (claim_await_claimTask (sent call_claimTask)) ∧
        storage w1 = storage w0 ∧ agents w1 = agents w0)) ∧
  (∀ w0 k p l w1,
     jobs w0 !! k = Some (claim_await_dispatch p) →
     step l w0 = Some w1 →
     jobs w1 !! k = Some (claim_await_dispatch p) ∨
     (l = resumes k ∧ p ∈ resolved w0 ∧ storage w1 = storage w0 ∧
      jobs w1 !! k = Some (claim_await_claimTask (sent call_claimTask)))) ∧
  (∀ w0 k a l w1,
     step l w0 = Some w1 →
     jobs w1 !! k = Some (claim_returned a) →
     jobs w0 !! k = Some (claim_returned a) ∨
     ∃ row,
       l = resumes k ∧
       jobs w0 !! k =
         Some (claim_await_claimTask (settled (fulfilled (value_row (Some row))))) ∧
       agents w1 !! a =
         Some (TaskAgent.mk
                 (TaskState.mk (DbTaskRow.spec row) (DbTaskRow.id row)
                    (DbTaskRow.runId row))
                 (Some (length (intervals w0))))).
Proof.
  intros Hreach Hj.
  assert (j < length (jobs w)) as Hlen by by eapply lookup_lt_Some.
  split_and!.
  - cbn [run step]. rewrite Hj. cbn [awaited Store.exec].
    destruct (Store.claimTask (storage w)) as [s [row|]] eqn:Hclaim;
      cbn [settle set_job set_jobs set_storage jobs storage fst snd].
    + rewrite list_lookup_insert_eq by done. cbn [resume TaskAgent_create].
      eexists. split; [done|]. simpl. split_and!; [done| | |].
      * rewrite list_lookup_insert_eq; [done|by rewrite length_insert].
      * by apply list_lookup_middle.
      * by apply list_lookup_middle.
    + rewrite list_lookup_insert_eq by done. cbn [resume].
      eexists. split; [done|]. simpl.
      assert (s = storage w) as ->.
      { unfold Store.claimTask in Hclaim.
        destruct (Store.claim_first _ _) as [[? ?]|]; by inversion Hclaim. }
      split_and!; [done| |done..| |].
      * rewrite list_lookup_insert_eq; [done|by rewrite length_insert].
      * rewrite list_lookup_insert_eq by by rewrite length_insert.
        simpl. rewrite bool_decide_eq_false_2; [done|].
        by apply gate_fresh_unresolved, gate_fresh_reachable.
      * rewrite list_lookup_insert_eq by by rewrite length_insert.
        simpl. rewrite bool_decide_eq_true_2 by by left.
        eexists. split; [done|]. simpl. split_and!; [|done..].
        rewrite list_lookup_insert_eq; [done|]. by rewrite !length_insert.
  - intros w0 k p Hk.
    assert (k < length (jobs w0)) as Hlenk by by eapply lookup_lt_Some.
    split; intros Hp; simpl; rewrite Hk; simpl.
    + by rewrite bool_decide_eq_false_2.
    + rewrite bool_decide_eq_true_2 by done. eexists. split; [done|].
      split_and!; [|done..]. by apply lookup_set_job_eq.
  - intros w0 k p l w1. apply waiting_claim_step.
  - intros w0 k a l w1. apply claim_returned_from_row.
Qed.

(** C8.  When the interval of an agent fires and the agent's state holds no
    run id ([undefined], or the empty string), the callback throws [no run
    id provided] and makes no store call; when it holds one, the callback
    calls [heartbeat] with it.  In both cases the interval stays set. *)
Theorem heartbeat_needs_a_run_id w h a agent :
  intervals w !! h = Some (interval a true) →
  agents w !! a = Some agent →
  ∃ w',
    step (interval_fires h) w = Some w' ∧
    intervals w' = intervals w ∧ storage w' = storage w ∧
    match TaskState.runId (TaskAgent.state agent) with
    | Some r =>
        if bool_decide (r = EmptyString) then
          uncaught w' = uncaught w ++ ["no run id provided"] ∧ jobs w' = jobs w
        else
          uncaught w' = uncaught w ∧
          jobs w' = jobs w ++ [unawaited (sent (call_heartbeat r))]
    | None =>
        uncaught w' = uncaught w ++ ["no run id provided"] ∧ jobs w' = jobs w
    end.
Proof.
  intros Hh Ha. simpl. rewrite Hh, Ha. unfold TaskAgent.beat.
  destruct (TaskState.runId (TaskAgent.state agent)) as [r|]; simpl.
  - case_bool_decide; eexists; by split_and!.
  - eexists; by split_and!.
Qed.

(** C9.  For an agent of task [T] and run [R], [getWorkspaceName] is the
    task id, an underscore and the run id; it is a function of the agent's
    state alone. *)
Theorem workspace_name_is_task_underscore_run
    (spec : TaskSpec.t) (T R : string) (handle : option nat) :
  TaskAgent.getWorkspaceName (TaskAgent.mk (TaskState.mk spec T (Some R)) handle)
  = T +:+ "_" +:+ R.
Proof. reflexivity. Qed.

(** *** The dispatch gate *)

Lemma missed_step l w w' :
  missed w → not_dispatch l → step l w = Some w' → missed w'.
Proof.
  intros (Hj & Hres & Hjobs) Hl Hstep.
  assert (jobs w' !! 0 = Some (claim_await_dispatch 1)) as Hj'.
  { destruct (waiting_claim_step _ _ _ _ _ Hj Hstep) as [H|(_ & Hin & _)]; [done|].
    rewrite Hres in Hin. by apply list_elem_of_singleton in Hin. }
  split; [done|]. clear Hj'.
  assert (∀ k job', (∀ p, job' ≠ dispatch_await_createTask p) →
            Forall (λ job, ∀ p, job ≠ dispatch_await_createTask p)
              (<[k := job']> (jobs w))) as Hins.
  { intros k job' Hne. by apply Forall_insert. }
  assert (∀ job', (∀ p, job' ≠ dispatch_await_createTask p) →
            Forall (λ job, ∀ p, job ≠ dispatch_await_createTask p)
              (jobs w ++ [job'])) as Happ.
  { intros job' Hne. apply Forall_app. split; [done|]. by constructor. }
  destruct l; simpl in Hstep, Hl; try done.
  - inversion Hstep; subst. split; [done|]. by apply Happ.
  - destruct (agents w !! agent); [|done]. inversion Hstep; subst.
    split; [done|]. by apply Happ.
  - destruct (agents w !! agent); [|done]. inversion Hstep; subst.
    split; [done|]. by apply Happ.
  - destruct (jobs w !! job) as [job1|] eqn:Hjob; [|done].
    destruct (awaited job1) as [[c|r]|] eqn:Haw; try done.
    destruct (Store.exec c (storage w)). inversion Hstep; subst.
    split; [done|]. apply Hins. intros p.
    rewrite Forall_forall in Hjobs.
    assert (job1 ∈ jobs w) as Hin by by eapply list_elem_of_lookup_2.
    specialize (Hjobs _ Hin).
    destruct job1; try done; by destruct (Hjobs _ eq_refl).
  - destruct (jobs w !! job) as [job1|] eqn:Hjob; [|done].
    destruct (awaited job1) as [[c|r]|] eqn:Haw; try done.
    inversion Hstep; subst.
    split; [done|]. apply Hins. intros p.
    rewrite Forall_forall in Hjobs.
    assert (job1 ∈ jobs w) as Hin by by eapply list_elem_of_lookup_2.
    specialize (Hjobs _ Hin).
    destruct job1; try done; by destruct (Hjobs _ eq_refl).
  - destruct (jobs w !! job) as [job1|] eqn:Hjob; [|done].
    rewrite Forall_forall in Hjobs.
    assert (job1 ∈ jobs w) as Hin by by eapply list_elem_of_lookup_2.
    pose proof (Hjobs _ Hin) as Hjob1. rewrite <-Forall_forall in Hjobs.
    job_cases job1;
      simpl in Hstep; try discriminate.
    all: try (inversion Hstep; subst; split; [done|]; by apply Hins).
    all: try (by destruct (Hjob1 _ eq_refl)).
    + case_bool_decide; [|done]. inversion Hstep; subst.
      split; [done|]. by apply Hins.
    + destruct (agents w !! a') as [ag|]; [|done]. inversion Hstep; subst.
      unfold clearInterval. destruct (TaskAgent.heartbeatInterval ag); simpl;
        (split; [done|]); apply Forall_insert; try done; by apply Happ.
  - destruct (intervals w !! handle) as [[a [|]]|]; try done.
    destruct (agents w !! a) as [ag|]; [|done].
    destruct (TaskAgent.beat ag); inversion Hstep; subst; [done|].
    split; [done|]. by apply Happ.
Qed.

Lemma missed_run ls w w' :
  missed w → Forall not_dispatch ls → run ls w = Some w' → missed w'.
Proof.
  revert w. induction ls as [|l ls IH]; intros w Hw Hls Hrun; simpl in Hrun.
  - by inversion Hrun; subst.
  - destruct (step l w) as [w1|] eqn:Hstep; [|done].
    apply Forall_cons in Hls as [Hl Hls].
    eapply IH; [|done..]. by eapply missed_step.
Qed.

(** C1 fails on this run.  A consumer calls [claim] on an empty store, and
    the store finds no task.  Before the consumer's call goes on, a producer
    dispatches a task: the row is created, the gate's promise is resolved
    with nobody waiting on it, and a new promise is installed.  The call of
    [claim] then goes on, takes the new promise and waits on it.  The task is
    open in the store, and the call stays suspended whatever happens, until
    some later call of [dispatch]. *)
Theorem dispatch_in_the_gap_is_missed :
  ∃ w,
    run Scenario.dispatch_in_the_gap (create Store.empty) = Some w ∧
    jobs w = [claim_await_dispatch 1; dispatch_returned (DispatchResult.mk "T1")] ∧
    deferredDispatch w = 1 ∧ resolved w = [0] ∧
    (λ row, (DbTaskRow.id row, DbTaskRow.status row, DbTaskRow.runId row))
      <$> Store.tasks (storage w) = [("T1", open, None)] ∧
    ∀ ls w',
      Forall not_dispatch ls →
      run ls w = Some w' →
      jobs w' !! 0 = Some (claim_await_dispatch 1).
Proof.
  eexists. split; [vm_compute; reflexivity|].
  split_and!; [vm_compute; reflexivity..|].
  intros ls w' Hls Hrun.
  eapply missed_run in Hrun as (Hj & _); [done| |done].
  split_and!; [done..|]. repeat constructor; done.
Qed.

End BrokerFacts.

(** C6 as written fails for the heartbeat write: the interval callback has
    dropped the promise, and no call goes on with the error. *)
Lemma heartbeat_failure_reaches_nobody :
  ¬ Claimed.failure_propagates Scenario.beating 2 "store is down".
Proof.
  intros Hprop. destruct (Hprop _ eq_refl) as (w2 & Hstep & _).
  vm_compute in Hstep. discriminate.
Qed.

Lemma awaited_failure_reaches_the_caller_witness :
  let w := Broker.add_job (Broker.claim_await_claimTask (sent call_claimTask))
             (Broker.create Store.empty) in
  Broker.step Broker.calls_claim (Broker.create Store.empty) = Some w ∧
  ∃ w1,
    Broker.step (Broker.store_rejects 0 "store is down") w = Some w1 ∧
    Broker.step (Broker.resumes 0) w1
      = Some (Broker.set_job 0 (Broker.threw "store is down") w) ∧
    Broker.jobs (Broker.set_job 0 (Broker.threw "store is down") w) !! 0
      = Some (Broker.threw "store is down") ∧
    ∀ ls w',
      Broker.run ls (Broker.set_job 0 (Broker.threw "store is down") w) = Some w' →
      Broker.jobs w' !! 0 = Some (Broker.threw "store is down").
Proof.
  split; [reflexivity|].
  apply (awaited_failure_reaches_the_caller _ 0
           (Broker.claim_await_claimTask (sent call_claimTask)));
    [reflexivity | exact I].
Defined.

(** C5 as written fails: [complete] has been called and is waiting for
    [setStatus]; the interval fires and a heartbeat is written. *)
Lemma heartbeat_while_complete_waits :
  ¬ Claimed.no_beat_once_complete_is_called Scenario.running 0 result_completed.
Proof.
  intros Hquiet.
  specialize (Hquiet _ 0 [] _ eq_refl eq_refl eq_refl).
  vm_compute in Hquiet. discriminate.
Qed.

Lemma complete_ends_the_run_witness :
  ∃ w',
    Broker.step (Broker.resumes 2) Scenario.completing = Some w' ∧
    Broker.jobs w' !! 2 = Some Broker.returned_void ∧
    Broker.jobs w' !! 3 =
      Some (Broker.unawaited
              (sent (call_emit
                       (TaskStoreEmitOptions.mk "T1" (Some "R1")
                          "Run completed with status: completed" completion)))) ∧
    Broker.storage w' = Broker.storage Scenario.completing ∧
    ∀ ls w'',
      Broker.run ls w' = Some w'' →
      Broker.step (Broker.interval_fires 0) w'' = None.
Proof.
  exact (proj2 (proj2
           (complete_ends_the_run Scenario.completing 0
              (TaskAgent.mk (TaskState.mk Scenario.two_steps "T1" (Some "R1")) (Some 0))
              0 (Broker.interval 0 true) result_completed
              eq_refl eq_refl eq_refl))
           2 value_void eq_refl).
Defined.

Lemma claim_returns_a_claimed_task_or_waits_witness :
  (∃ w',
     Broker.run [Broker.store_answers 1; Broker.resumes 1] Scenario.claiming
       = Some w' ∧
     Broker.storage w' = fst (Store.claimTask (Broker.storage Scenario.claiming)) ∧
     Broker.jobs w' !! 1 = Some (Broker.claim_returned 0) ∧
     Broker.agents w' !! 0 =
       Some (TaskAgent.mk (TaskState.mk Scenario.two_steps "T1" (Some "R1")) (Some 0)) ∧
     Broker.intervals w' !! 0 = Some (Broker.interval 0 true)) ∧
  (∃ w',
     Broker.run [Broker.store_answers 0; Broker.resumes 0] Scenario.asking
       = Some w' ∧
     Broker.storage w' = fst (Store.claimTask (Broker.storage Scenario.asking)) ∧
     Broker.jobs w' !! 0 = Some (Broker.claim_await_dispatch 0) ∧
     Broker.storage w' = Broker.storage Scenario.asking ∧
     Broker.agents w' = Broker.agents Scenario.asking ∧
     Broker.step (Broker.resumes 0) w' = None ∧
     ∃ w'',
       Broker.step (Broker.resumes 0) (Broker.signalDispatch w') = Some w'' ∧
       Broker.jobs w'' !! 0 =
         Some (Broker.claim_await_claimTask (sent call_claimTask)) ∧
       Broker.storage w'' = Broker.storage Scenario.asking ∧
       Broker.agents w'' = Broker.agents Scenario.asking).
Proof.
  split.
  - exact (proj1
             (claim_returns_a_claimed_task_or_waits Scenario.claiming 1
                (ex_intro _ Store.empty
                   (ex_intro _ (take 4 Scenario.dispatched_and_claimed) eq_refl))
                eq_refl)).
  - exact (proj1
             (claim_returns_a_claimed_task_or_waits Scenario.asking 0
                (ex_intro _ Store.empty (ex_intro _ [Broker.calls_claim] eq_refl))
                eq_refl)).
Defined.

Lemma heartbeat_needs_a_run_id_witness :
  ∃ w',
    Broker.step (Broker.interval_fires 0) Scenario.unbound = Some w' ∧
    Broker.intervals w' = Broker.intervals Scenario.unbound ∧
    Broker.storage w' = Broker.storage Scenario.unbound ∧
    Broker.uncaught w' = Broker.uncaught Scenario.unbound ++ ["no run id provided"] ∧
    Broker.jobs w' = Broker.jobs Scenario.unbound.
Proof.
  exact (heartbeat_needs_a_run_id Scenario.unbound 0 0 Scenario.agent_without_run
           eq_refl eq_refl).
Defined.

(** * The scenario of the specification

    A spec with two steps is dispatched and claimed; the agent logs one
    message and completes.  The store then holds task [T1] with status
    [completed], and an observer subscribed from zero receives the [log]
    event and the [completion] event, in that order. *)

Example scenario_broker :
  let ls :=
    Scenario.dispatched_and_claimed ++
    [Broker.calls_emitLog 0 "step 1 done"; Broker.store_answers 2; Broker.resumes 2;
     Broker.calls_complete 0 result_completed; Broker.store_answers 3;
     Broker.resumes 3; Broker.store_answers 4] in
  ∃ w,
    Broker.run ls (Broker.create Store.empty) = Some w ∧
    Broker.jobs w !! 0 = Some (Broker.dispatch_returned (DispatchResult.mk "T1")) ∧
    TaskAgent.getWorkspaceName <$> Broker.agents w = ["T1_R1"] ∧
    (λ row, (DbTaskRow.id row, DbTaskRow.status row)) <$> Store.tasks (Broker.storage w)
      = [("T1", completed)] ∧
    (λ e, (DbTaskEventRow.id e, DbTaskEventRow.type e, DbTaskEventRow.body e))
      <$> Store.events (Broker.storage w)
      = [(1%Z, log, "step 1 done");
         (2%Z, completion, "Run completed with status: completed")] ∧
    Broker.step (Broker.interval_fires 0) w = None.
Proof.
  eexists. split; [vm_compute; reflexivity|].
  split_and!; vm_compute; reflexivity.
Qed.

Example scenario_observer :
  ∃ w,
    Observe.run Scenario.accepts [Observe.store_answers; Observe.resumes]
      (Observe.observe Scenario.two_events Scenario.from_zero tt) = Some w ∧
    (λ i, (Observe.error i, DbTaskEventRow.type <$> Observe.batch i, Observe.cursor i))
      <$> Observe.invocations w
      = [(None, [log; completion], Some 2%Z)].
Proof. eexists. split; vm_compute; reflexivity. Qed.

(** * More on the broker *)

Section MoreBrokerFacts.
Import Broker Claimed Further.

Implicit Types (w : t) (ls : list Label) (j : nat) (job : Job).

Ltac job_cases job :=
  destruct job
    as [[c|[[ |[row|]| | ]|e]]|p| |[c|[[taskId| | | ]|e]]| |[c|[v|e]]
       |a' result [c|[v|e]]| | |].

Lemma step_store_answers w j job c :
  jobs w !! j = Some job →
  awaited job = Some (sent c) →
  step (store_answers j) w =
  Some (set_job j (settle (fulfilled (Store.exec c (storage w)).2) job)
          (set_storage (Store.exec c (storage w)).1 w)).
Proof.
  intros Hj Haw. simpl. rewrite Hj, Haw. by destruct (Store.exec c (storage w)).
Qed.

Lemma step_resumes w j job :
  jobs w !! j = Some job → step (resumes j) w = resume j job w.
Proof. intros Hj. simpl. by rewrite Hj. Qed.

(** X1.  When [dispatch] goes on after [createTask], it returns the task
    id the store gave and resolves the promise of the gate: every call of
    [claim] that waits on that promise can go on, and does so by asking the
    store again; no other job is touched.  In a reachable state the promise
    installed in its place is unresolved, so that a call of [claim] that
    starts waiting afterwards waits for the next dispatch. *)
Theorem dispatch_releases_every_waiter w d taskId :
  jobs w !! d =
    Some (dispatch_await_createTask (settled (fulfilled (value_taskId taskId)))) →
  ∃ w',
    step (resumes d) w = Some w' ∧
    jobs w' = <[d := dispatch_returned (DispatchResult.mk taskId)]> (jobs w) ∧
    storage w' = storage w ∧
    resolved w' = deferredDispatch w :: resolved w ∧
    (reachable w → deferredDispatch w' ∉ resolved w') ∧
    ∀ j,
      jobs w !! j = Some (claim_await_dispatch (deferredDispatch w)) →
      ∃ w'',
        step (resumes j) w' = Some w'' ∧
        jobs w'' !! j = Some (claim_await_claimTask (sent call_claimTask)) ∧
        storage w'' = storage w.
Proof.
  intros Hd.
  assert (d < length (jobs w)) as Hlen by by eapply lookup_lt_Some.
  eexists. split; [by rewrite (step_resumes _ _ _ Hd)|]. simpl.
  split_and!; [done..| |].
  - intros [Hlt Hall]%gate_fresh_reachable [Heq|Hin]%elem_of_cons; [lia|].
    rewrite Forall_forall in Hall. specialize (Hall _ Hin). lia.
  - intros j Hj.
    assert (j ≠ d) as Hne by (intros ->; congruence).
    assert (j < length (jobs w)) as Hlenj by by eapply lookup_lt_Some.
    rewrite list_lookup_insert_ne by done. rewrite Hj. simpl.
    rewrite bool_decide_eq_true_2 by (by left).
    eexists. split; [done|]. simpl. split; [|done].
    apply list_lookup_insert_eq. by rewrite length_insert.
Qed.

Lemma claim_first_snoc run rows row :
  Forall (λ r, DbTaskRow.status r ≠ open) rows →
  DbTaskRow.status row = open →
  Store.claim_first run (rows ++ [row]) =
  Some (Store.claim_row run row, rows ++ [Store.claim_row run row]).
Proof.
  intros Hrows Hrow. induction Hrows as [|r rows Hr _ IH]; simpl.
  - by rewrite bool_decide_eq_true_2.
  - rewrite bool_decide_eq_false_2 by done. by rewrite IH.
Qed.

Lemma run_step l ls w w1 :
  step l w = Some w1 → run (l :: ls) w = run ls w1.
Proof. intros Hstep. simpl. by rewrite Hstep. Qed.

Lemma insert_snoc {A} (l : list A) x y : <[length l := y]> (l ++ [x]) = l ++ [y].
Proof. rewrite insert_app_r_alt by done. by rewrite Nat.sub_diag. Qed.

Lemma lookup_snoc {A} (l : list A) x : (l ++ [x]) !! length l = Some x.
Proof. by apply list_lookup_middle. Qed.

(** X2.  A call of [claim] waits on the gate and the store holds no open
    task.  When a task is then dispatched and each call goes on in turn,
    [dispatch] returns the id of the new task and [claim] returns an agent
    for exactly that task: its spec is the dispatched spec, its task id the
    id [dispatch] returned, its run id the one the store assigned.  The
    store is left without an open task again. *)
Theorem dispatched_task_reaches_the_waiter w j spec :
  jobs w !! j = Some (claim_await_dispatch (deferredDispatch w)) →
  none_open (storage w) →
  let d := length (jobs w) in
  let taskId := "T" +:+ pretty (Store.nextTask (storage w)) in
  let runId := "R" +:+ pretty (Store.nextRun (storage w)) in
  ∃ w',
    run [calls_dispatch spec; store_answers d; resumes d;
         resumes j; store_answers j; resumes j] w = Some w' ∧
    jobs w' !! d = Some (dispatch_returned (DispatchResult.mk taskId)) ∧
    jobs w' !! j = Some (claim_returned (length (agents w))) ∧
    agents w' !! length (agents w) =
      Some (TaskAgent.mk (TaskState.mk spec taskId (Some runId))
              (Some (length (intervals w)))) ∧
    none_open (storage w').
Proof.
  intros Hj Hnone d taskId runId.
  assert (j < length (jobs w)) as Hlen by by eapply lookup_lt_Some.
  destruct w as [s0 g res defs jobs0 ags ivs unc].
  cbn [jobs storage agents intervals deferredDispatch] in *. subst d.
  set (row := DbTaskRow.mk taskId spec open None 0 (Store.now s0) None).
  set (s1 := Store.mk (Store.tasks s0 ++ [row]) (Store.events s0)
               (S (Store.nextTask s0)) (Store.nextRun s0) (Store.nextEvent s0)
               (S (Store.clock s0))).
  set (s2 := Store.mk (Store.tasks s0 ++ [Store.claim_row runId row])
               (Store.events s0) (S (Store.nextTask s0)) (S (Store.nextRun s0))
               (Store.nextEvent s0) (S (S (Store.clock s0)))).
  assert (Store.claimTask s1 = (s2, Some (Store.claim_row runId row))) as Hclaim.
  { unfold Store.claimTask. simpl. fold runId.
    by rewrite (claim_first_snoc runId (Store.tasks s0) row Hnone eq_refl). }
  set (D_ret := dispatch_returned (DispatchResult.mk taskId)).
  (* [dispatch] is called *)
  rewrite (run_step _ _ _
             (mk s0 g res defs
                (jobs0 ++ [dispatch_await_createTask (sent (call_createTask spec))])
                ags ivs unc)) by done.
  (* the store creates the task *)
  rewrite (run_step _ _ _
             (mk s1 g res defs
                (jobs0 ++ [dispatch_await_createTask
                             (settled (fulfilled (value_taskId taskId)))])
                ags ivs unc)).
  2: { erewrite step_store_answers; [|apply lookup_snoc|reflexivity].
       unfold set_job, set_jobs, set_storage. simpl. by rewrite insert_snoc. }
  (* [dispatch] goes on and signals *)
  rewrite (run_step _ _ _ (mk s1 defs (g :: res) (S defs) (jobs0 ++ [D_ret]) ags ivs unc)).
  2: { erewrite step_resumes; [|apply lookup_snoc].
       unfold resume, signalDispatch, set_job, set_jobs. simpl. by rewrite insert_snoc. }
  (* [claim] is released and asks again *)
  rewrite (run_step _ _ _
             (mk s1 defs (g :: res) (S defs)
                (<[j := claim_await_claimTask (sent call_claimTask)]> jobs0 ++ [D_ret])
                ags ivs unc)).
  2: { simpl. rewrite lookup_app_l, Hj by done. simpl.
       rewrite bool_decide_eq_true_2 by (by left).
       unfold set_job, set_jobs. simpl. by rewrite insert_app_l. }
  (* the store hands the task over *)
  rewrite (run_step _ _ _
             (mk s2 defs (g :: res) (S defs)
                (<[j := claim_await_claimTask
                          (settled (fulfilled (value_row (Some (Store.claim_row runId row)))))]>
                   jobs0 ++ [D_ret])
                ags ivs unc)).
  2: { assert ((<[j := claim_await_claimTask (sent call_claimTask)]> jobs0 ++ [D_ret]) !! j
               = Some (claim_await_claimTask (sent call_claimTask))) as Hj4.
       { rewrite lookup_app_l by by rewrite length_insert.
         by apply list_lookup_insert_eq. }
       erewrite step_store_answers; [|exact Hj4|reflexivity].
       cbn [Store.exec storage]. rewrite Hclaim.
       unfold set_job, set_jobs, set_storage. simpl.
       rewrite insert_app_l by by rewrite length_insert.
       by rewrite list_insert_insert_eq. }
  (* [claim] returns the agent *)
  eexists. split.
  { apply run_step with (ls := []).
    assert ((<[j := claim_await_claimTask
                      (settled (fulfilled (value_row (Some (Store.claim_row runId row)))))]>
               jobs0 ++ [D_ret]) !! j
            = Some (claim_await_claimTask
                      (settled (fulfilled (value_row (Some (Store.claim_row runId row)))))))
      as Hj5.
    { rewrite lookup_app_l by by rewrite length_insert.
      by apply list_lookup_insert_eq. }
    erewrite step_resumes; [|exact Hj5].
    unfold resume, TaskAgent_create, set_job, set_jobs. simpl.
    rewrite insert_app_l by by rewrite length_insert.
    by rewrite list_insert_insert_eq. }
  simpl. split_and!.
  - rewrite <-(length_insert jobs0 j (claim_returned (length ags))). apply lookup_snoc.
  - rewrite lookup_app_l by by rewrite length_insert.
    by apply list_lookup_insert_eq.
  - apply lookup_snoc.
  - unfold none_open. simpl. apply Forall_app. split; [done|].
    by repeat constructor.
Qed.

(** *** Agents and their intervals *)



Lemma reachable_ind (P : t → Prop) :
  (∀ s, P (create s)) →
  (∀ l w w', P w → step l w = Some w' → P w') →
  ∀ w, reachable w → P w.
Proof.
  intros Hinit Hstep w (s & ls & Hrun).
  revert Hrun. generalize (Hinit s). generalize (create s). clear s.
  induction ls as [|l ls IH]; intros w0 Hw0 Hrun; simpl in Hrun.
  - by inversion Hrun; subst.
  - destruct (step l w0) as [w1|] eqn:Hl; [|done]. eauto.
Qed.


(** *** Run ids *)

Lemma claim_first_run run rows got rows' :
  Store.claim_first run rows = Some (got, rows') →
  DbTaskRow.runId got = Some run.
Proof.
  revert got rows'. induction rows as [|row rows IH]; intros got rows'; simpl; [done|].
  case_bool_decide.
  - by intros [= <- _].
  - destruct (Store.claim_first run rows) as [[g r]|]; [|done].
    intros [= <- _]. by eapply IH.
Qed.

Lemma exec_row_bound c s row :
  (Store.exec c s).2 = value_row (Some row) → bound (DbTaskRow.runId row).
Proof.
  destruct c; simpl; try discriminate.
  unfold Store.claimTask.
  destruct (Store.claim_first _ _) as [[got rows]|] eqn:Hclaim; simpl; [|done].
  intros [= <-]. by rewrite (claim_first_run _ _ _ _ Hclaim).
Qed.

Lemma bound_beat agent :
  bound (TaskState.runId (TaskAgent.state agent)) →
  ∃ r, TaskState.runId (TaskAgent.state agent) = Some r ∧
       TaskAgent.beat agent = inr (call_heartbeat r).
Proof.
  unfold bound, TaskAgent.beat.
  destruct (TaskState.runId (TaskAgent.state agent)) as [r|]; [|done].
  intros ->. by exists r.
Qed.

Lemma runs_bound_step l w w' : runs_bound w → step l w = Some w' → runs_bound w'.
Proof.
  intros (Hag & Hjobs & Hunc) Hstep.
  assert (∀ k job', brings_bound_row job' →
            Forall brings_bound_row (<[k := job']> (jobs w))) as Hins.
  { intros k job' Hb. by apply Forall_insert. }
  assert (∀ job', brings_bound_row job' →
            Forall brings_bound_row (jobs w ++ [job'])) as Happ.
  { intros job' Hb. apply Forall_app. split; [done|]. by constructor. }
  destruct l; simpl in Hstep.
  - inversion Hstep; subst. split_and!; [done| |done]. by apply Happ.
  - inversion Hstep; subst. split_and!; [done| |done]. by apply Happ.
  - destruct (agents w !! agent); [|done]. inversion Hstep; subst.
    split_and!; [done| |done]. by apply Happ.
  - destruct (agents w !! agent); [|done]. inversion Hstep; subst.
    split_and!; [done| |done]. by apply Happ.
  - destruct (jobs w !! job) as [job1|] eqn:Hjob; [|done].
    destruct (awaited job1) as [[c|r]|] eqn:Haw; try done.
    destruct (Store.exec c (storage w)) as [s v] eqn:Hexec. inversion Hstep; subst.
    split_and!; [done| |done]. apply Hins.
    destruct job1; try done. simpl. destruct v as [ |[row|]| | ]; try done.
    apply (exec_row_bound c (storage w)). by rewrite Hexec.
  - destruct (jobs w !! job) as [job1|] eqn:Hjob; [|done].
    destruct (awaited job1) as [[c|r]|] eqn:Haw; try done.
    inversion Hstep; subst. split_and!; [done| |done]. apply Hins.
    by destruct job1.
  - destruct (jobs w !! job) as [job1|] eqn:Hjob; [|done].
    assert (brings_bound_row job1) as Hjob1.
    { rewrite Forall_forall in Hjobs. apply Hjobs. by eapply list_elem_of_lookup_2. }
    job_cases job1; simpl in Hstep; try discriminate.
    all: try (inversion Hstep; subst; split_and!; [done| |done]; by apply Hins).
    + inversion Hstep; subst. split_and!; [|by apply Hins|done].
      simpl. apply Forall_app. split; [done|]. by constructor.
    + case_bool_decide; [|done]. inversion Hstep; subst.
      split_and!; [done| |done]. by apply Hins.
    + destruct (agents w !! a') as [ag|]; [|done]. inversion Hstep; subst.
      unfold clearInterval. destruct (TaskAgent.heartbeatInterval ag); simpl;
        (split_and!; [done| |done]); simpl;
        apply Forall_insert; try done; by apply Happ.
  - destruct (intervals w !! handle) as [[a [|]]|]; try done.
    destruct (agents w !! a) as [ag|] eqn:Ha; [|done].
    assert (bound (TaskState.runId (TaskAgent.state ag))) as Hb.
    { rewrite Forall_forall in Hag. apply Hag. by eapply list_elem_of_lookup_2. }
    destruct (bound_beat _ Hb) as (r & _ & Hbeat). rewrite Hbeat in Hstep.
    inversion Hstep; subst.
    split_and!; [done| |done]. by apply Happ.
Qed.

(** X4.  On a store that assigns a run id when it hands a task over, every
    agent a broker ever creates has a run id: no interval callback ever
    throws [no run id provided], and every firing of a set interval calls
    [heartbeat] with the run id of its agent. *)
Theorem heartbeat_guard_never_trips w :
  reachable w →
  uncaught w = [] ∧
  ∀ h w',
    step (interval_fires h) w = Some w' →
    ∃ a agent r,
      intervals w !! h = Some (interval a true) ∧
      agents w !! a = Some agent ∧
      TaskState.runId (TaskAgent.state agent) = Some r ∧
      w' = add_job (unawaited (sent (call_heartbeat r))) w.
Proof.
  intros Hreach.
  assert (runs_bound w) as (Hag & _ & Hunc).
  { revert w Hreach. apply reachable_ind.
    - intros s. by split_and!.
    - intros l w w' Hw Hstep. by eapply runs_bound_step. }
  split; [done|]. intros h w' Hstep. simpl in Hstep.
  destruct (intervals w !! h) as [[a [|]]|]; try done.
  destruct (agents w !! a) as [ag|] eqn:Ha; [|done].
  assert (bound (TaskState.runId (TaskAgent.state ag))) as Hb.
  { rewrite Forall_forall in Hag. apply Hag. by eapply list_elem_of_lookup_2. }
  destruct (bound_beat _ Hb) as (r & Hr & Hbeat). rewrite Hbeat in Hstep.
  inversion Hstep; subst. by exists a, ag, r.
Qed.

(** *** Completing more than once *)

(** One call of [complete], with every step taken in turn: the call, the
    store setting the status, the call going on, the store appending the
    completion event. *)
Lemma complete_in_turn w a agent result :
  agents w !! a = Some agent →
  let j := length (jobs w) in
  run [calls_complete a result; store_answers j; resumes j; store_answers (S j)] w =
  Some (mk (Store.emit (TaskAgent.complete_options result agent)
              (Store.setStatus (TaskState.runId (TaskAgent.state agent))
                 (TaskAgent.complete_status result) (storage w)))
          (deferredDispatch w) (resolved w) (deferreds w)
          (jobs w ++ [returned_void; unawaited (settled (fulfilled value_void))])
          (agents w) (intervals (clearInterval agent w)) (uncaught w)).
Proof.
  intros Ha j. subst j.
  destruct w as [s0 g res defs jobs0 ags ivs unc].
  cbn [jobs storage agents intervals deferredDispatch resolved deferreds uncaught] in *.
  set (run_id := TaskState.runId (TaskAgent.state agent)).
  set (st := TaskAgent.complete_status result).
  rewrite (run_step _ _ _
             (mk s0 g res defs
                (jobs0 ++ [complete_await_setStatus a result (sent (call_setStatus run_id st))])
                ags ivs unc)).
  2: { simpl. by rewrite Ha. }
  rewrite (run_step _ _ _
             (mk (Store.setStatus run_id st s0) g res defs
                (jobs0 ++ [complete_await_setStatus a result (settled (fulfilled value_void))])
                ags ivs unc)).
  2: { erewrite step_store_answers; [|apply lookup_snoc|reflexivity].
       unfold set_job, set_jobs, set_storage. simpl. by rewrite insert_snoc. }
  rewrite (run_step _ _ _
             (mk (Store.setStatus run_id st s0) g res defs
                (jobs0 ++ [returned_void;
                           unawaited (sent (call_emit (TaskAgent.complete_options result agent)))])
                ags
                (intervals (clearInterval agent (mk s0 g res defs jobs0 ags ivs unc)))
                unc)).
  2: { erewrite step_resumes; [|apply lookup_snoc].
       unfold resume. cbn [agents]. rewrite Ha.
       unfold clearInterval, add_job, set_job, set_jobs.
       destruct (TaskAgent.heartbeatInterval agent); simpl;
         rewrite <-app_assoc; simpl;
         by rewrite (insert_app_r_alt _ _ (length jobs0)), Nat.sub_diag by done. }
  apply run_step with (ls := []).
  erewrite step_store_answers; cycle 1.
  { cbn [jobs]. rewrite lookup_app_r by lia.
    by replace (S (length jobs0) - length jobs0) with 1 by lia. }
  { reflexivity. }
  unfold set_job, set_jobs, set_storage. simpl. do 2 f_equal.
  rewrite insert_app_r_alt by lia.
  by replace (S (length jobs0) - length jobs0) with 1 by lia.
Qed.

Lemma completions_emit o s :
  completions (Store.emit o s) =
  completions s ++
  (if decide (TaskStoreEmitOptions.type o = completion)
   then [(TaskStoreEmitOptions.runId o, TaskStoreEmitOptions.body o)] else []).
Proof.
  unfold completions. simpl. rewrite filter_app, fmap_app. f_equal.
  rewrite filter_cons. simpl. by destruct (decide _).
Qed.

(** X5.  [complete] does not remember that it has been called.  A second
    call on the same agent, made when the first has run its course (the
    store has set its status and appended its completion event), goes the
    same way, each step taken in turn: it sets the status again and emits
    another completion event, so that the log holds two completion events
    for the run, in the order of the calls, and the rows of the run carry
    the status of the second call. *)
Theorem complete_twice_completes_twice w a agent r1 r2 :
  agents w !! a = Some agent →
  let j := length (jobs w) in
  let run_id := TaskState.runId (TaskAgent.state agent) in
  ∃ w',
    run ([calls_complete a r1; store_answers j; resumes j; store_answers (S j)] ++
         [calls_complete a r2; store_answers (S (S j)); resumes (S (S j));
          store_answers (S (S (S j)))]) w = Some w' ∧
    completions (storage w') =
      completions (storage w) ++
      [(run_id, "Run completed with status: " +:+ result_string r1);
       (run_id, "Run completed with status: " +:+ result_string r2)] ∧
    (∀ r, run_id = Some r →
       Forall (λ row, DbTaskRow.runId row = Some r →
                      DbTaskRow.status row = TaskAgent.complete_status r2)
         (Store.tasks (storage w'))) ∧
    agents w' = agents w.
Proof.
  intros Ha j run_id. subst j.
  rewrite broker_run_app, (complete_in_turn w a agent r1 Ha). cbn [mbind option_bind].
  match goal with |- context [run _ ?w1] => set (w1' := w1) end.
  pose proof (complete_in_turn w1' a agent r2 Ha) as Hrun2.
  cbn zeta in Hrun2. cbn [jobs w1'] in Hrun2. rewrite length_app in Hrun2.
  cbn [length] in Hrun2.
  replace (length (jobs w) + 2) with (S (S (length (jobs w)))) in Hrun2 by lia.
  rewrite Hrun2. eexists. split; [done|].
  cbn [storage agents w1']. split_and!; [|intros r Hrun_id|done].
  - rewrite completions_emit.
    change (completions (Store.setStatus ?r ?st ?s)) with (completions s).
    rewrite completions_emit.
    change (completions (Store.setStatus ?r ?st ?s)) with (completions s).
    simpl. by rewrite <-app_assoc.
  - unfold run_id in Hrun_id. rewrite Hrun_id.
    apply (setStatus_rows r (TaskAgent.complete_status r2)).
Qed.

End MoreBrokerFacts.

(** * More on the event subscription *)

Section MoreObserveFacts.
Import Observe Claimed Further.
Context {O : Type} (callback : Callback O).

Implicit Types (w : t O) (ls : list Label).

(** In an ascending list, the rows past the last row of a prefix are the
    rest of the list. *)
Lemma filter_past_last l1 l2 z :
  ascending (l1 ++ l2) →
  last l1 = Some z →
  filter (λ e, (DbTaskEventRow.id z < DbTaskEventRow.id e)%Z) (l1 ++ l2) = l2.
Proof.
  intros Hasc [l1' ->]%last_Some. rewrite filter_app.
  apply StronglySorted_app in Hasc as (Hcross & Hasc1 & _).
  rewrite filter_none, filter_all; [done| |].
  - rewrite Forall_forall. intros x Hx. apply Hcross; [|done].
    apply elem_of_app. right. by apply list_elem_of_singleton.
  - apply StronglySorted_app in Hasc1 as (Hcross1 & _ & _).
    rewrite Forall_forall. intros x [Hx | ->%list_elem_of_singleton]%elem_of_app.
    + specialize (Hcross1 x z Hx). rewrite list_elem_of_singleton in Hcross1.
      specialize (Hcross1 eq_refl). lia.
    + lia.
Qed.

Lemma wanted_ascending start w : numbered (store w) → ascending (wanted start w).
Proof.
  intros Hnum. apply ascending_filter. by apply persisted_numbered.
Qed.

(** What a poll at the cursor brings: the rows that are wanted and have not
    been handed over. *)
Lemma getEvents_at_cursor start rest w :
  numbered (store w) →
  wanted start w = delivered w ++ rest →
  Store.getEvents
    (TaskStoreGetEventsOptions.mk (taskId w) (cursor_from start (delivered w)))
    (store w) = rest.
Proof.
  intros Hnum Hlog. unfold cursor_from.
  destruct (last (delivered w)) as [z|] eqn:Hlast.
  - rewrite getEvents_persisted.
    assert (past start z) as Hz.
    { assert (z ∈ wanted start w) as Hin.
      { rewrite Hlog. apply elem_of_app. left. by eapply last_Some_elem_of. }
      by apply list_elem_of_filter in Hin as [Hin _]. }
    rewrite <-(filter_past_last (delivered w) rest z); [|rewrite <-Hlog; by apply wanted_ascending|done].
    rewrite <-Hlog. unfold wanted. rewrite list_filter_filter.
    apply list_filter_iff. intros e. split; [|tauto]. intros He. split; [done|].
    destruct start as [a|]; simpl in *; [lia|done].
  - apply last_None in Hlast. rewrite Hlast in Hlog. simpl in Hlog. rewrite <-Hlog.
    unfold Store.getEvents, wanted, persisted. rewrite list_filter_filter.
    apply list_filter_iff. intros e. unfold Store.selected, past. simpl.
    destruct start; tauto.
Qed.

Lemma cursor_from_app start l events :
  events ≠ [] →
  cursor_from start (l ++ events) = DbTaskEventRow.id <$> last events.
Proof.
  intros Hne. unfold cursor_from. rewrite last_app.
  destruct (last events) as [z|] eqn:Hlast; [done|].
  by apply last_None in Hlast.
Qed.

Lemma following_deliver start events rest w :
  numbered (store w) →
  in_rounds (invocations w) →
  after w = cursor_from start (delivered w) →
  (invocations w = [] ∨ delivered w ≠ []) →
  wanted start w = (delivered w ++ events) ++ rest →
  following start (deliver callback events w) ∧
  delivered (deliver callback events w) = delivered w ++ events ∧
  wanted start (deliver callback events w) = wanted start w.
Proof.
  intros Hnum Hcalls Hafter Hsome Hlog.
  destruct (deliver_cases callback events w) as [[-> ->] | [Hne Hd]].
  - rewrite app_nil_r in *. split; [|done].
    unfold following. simpl. split_and!; [done..|by exists rest|done|done].
  - cbn zeta in Hd.
    assert (∀ l : list DbTaskEventRow.t, l ++ events ≠ []) as Hnonempty.
    { intros l Hl. by apply app_eq_nil in Hl as [_ ?]. }
    unfold delivered in Hafter, Hlog, Hsome.
    destruct (throws (callback None events (observer w))) as [e|]; rewrite Hd;
      unfold following, wanted, delivered, persisted in *;
      cbn [store taskId after loop invocations];
      rewrite !delivered_snoc; cbn [batch]; rewrite ?app_nil_r.
    + split; [|done]. split_and!.
      * done.
      * rewrite <-app_assoc. by apply rounds_caught.
      * by rewrite cursor_from_app.
      * exists rest. by rewrite <-Hlog.
      * by right.
      * by destruct (throws _).
    + split; [|done]. split_and!.
      * done.
      * by apply rounds_delivery.
      * by rewrite cursor_from_app.
      * exists rest. by rewrite <-Hlog.
      * by right.
      * done.
Qed.

Lemma following_step start l w w' :
  following start w → step callback l w = Some w' → following start w'.
Proof.
  intros (Hnum & Hcalls & Hafter & [rest Hlog] & Hsome & Hloop) Hstep.
  destruct l; simpl in Hstep.
  - inversion Hstep; subst; clear Hstep.
    assert (∃ k, wanted start (set_store (Store.emit o (store w)) w) = wanted start w ++ k)
      as [k Hk].
    { unfold wanted, persisted. simpl. rewrite !filter_app. by eexists. }
    unfold following. split_and!; [by apply numbered_emit|done|done| |done|].
    + exists (rest ++ k). rewrite Hk, Hlog. by rewrite <-app_assoc.
    + cbn [set_store loop].
      destruct (loop w) as [[c|[v|e]]| | |]; try done.
      destruct Hloop as (events & rest' & -> & Hlog').
      exists events, (rest' ++ k). split; [done|].
      rewrite Hk, Hlog'. by rewrite <-!app_assoc.
  - destruct (loop w) as [[c|r]| | |] eqn:Hl; try discriminate.
    subst c. rewrite Hafter in Hstep. cbn [Store.exec] in Hstep.
    inversion Hstep; subst; clear Hstep.
    unfold following. split_and!; [done..|by exists rest|done|].
    cbn [set_loop loop]. eexists _, []. split; [done|].
    change (wanted start (set_store (store w) w)) with (wanted start w).
    change (delivered (set_store (store w) w)) with (delivered w).
    by rewrite (getEvents_at_cursor start rest), app_nil_r.
  - destruct (loop w) as [[c|r]| | |] eqn:Hl; try discriminate.
    inversion Hstep; subst; clear Hstep.
    unfold following. split_and!; [done..|by exists rest|done|done].
  - destruct (loop w) as [[c|[[ | | |events]|e]]| | |] eqn:Hl; try discriminate;
      inversion Hstep; subst; clear Hstep.
    + destruct Hloop as (events' & rest' & [= <-] & Hlog').
      by apply (following_deliver start events rest').
    + unfold following. split_and!; [done..|by exists rest|done|done].
  - destruct (loop w) eqn:Hl; try discriminate.
    inversion Hstep; subst; clear Hstep.
    unfold loop_head. destruct (cancelled w).
    + unfold following. split_and!; [done..|by exists rest|done|done].
    + unfold following. split_and!; [done..|by exists rest|done|done].
  - inversion Hstep; subst; clear Hstep.
    unfold following. split_and!; [done..|by exists rest|done|done].
Qed.

Lemma following_run start ls w w' :
  following start w → run callback ls w = Some w' → following start w'.
Proof.
  revert w. induction ls as [|l ls IH]; intros w Hw Hrun; simpl in Hrun.
  - by inversion Hrun; subst.
  - destruct (step callback l w) as [w1|] eqn:Hstep; [|done].
    eapply IH; [|done]. by eapply following_step.
Qed.

(** X6.  Whatever cursor a subscription is started with, or with none: the
    calls of the callback come in rounds, a batch that is not empty and
    then at most the call of the [catch] block; the batches handed to the
    callback, end to end, are at every moment the first of the task's
    events past that cursor (all of the task's events when there was none),
    in ascending order and none twice; the cursor stands at the last row
    handed over; the callback is not called at all as long as there is no
    such event; and when a poll is answered and picked up, every such event
    persisted by then has been handed over. *)
Theorem batches_follow_the_cursor s options (o : O) ls w :
  numbered s →
  run callback ls (observe s options o) = Some w →
  let start := TaskStoreGetEventsOptions.after options in
  taskId w = TaskStoreGetEventsOptions.taskId options ∧
  in_rounds (invocations w) ∧
  delivered w `prefix_of` wanted start w ∧
  ascending (delivered w) ∧
  after w = cursor_from start (delivered w) ∧
  (wanted start w = [] → invocations w = []) ∧
  ∀ c,
    loop w = await_getEvents (sent c) →
    ∃ w',
      run callback [store_answers; resumes] w = Some w' ∧
      delivered w' = wanted start w'.
Proof.
  intros Hnum Hrun start.
  pose proof (taskId_run _ _ _ _ Hrun) as Htid.
  apply (following_run start) in Hrun.
  2: { unfold following, observe, loop_head, delivered. simpl.
       split_and!; [done|constructor|done|by eexists|by left|done]. }
  destruct Hrun as (Hnum' & Hcalls & Hafter & [rest Hlog] & Hsome & Hloop).
  pose proof (wanted_ascending start w Hnum') as Hasc.
  split_and!; [done|done|by exists rest| |done| |].
  { rewrite Hlog in Hasc. by apply StronglySorted_app_1_l in Hasc. }
  { intros Hnone. destruct Hsome as [?|Hne]; [done|].
    rewrite Hnone in Hlog. symmetry in Hlog. by apply app_eq_nil in Hlog as [? _]. }
  intros c Hl. rewrite Hl in Hloop. subst c.
  cbn [run step]. rewrite Hl, Hafter. cbn [Store.exec].
  unfold set_loop at 2, set_store. cbn [loop store taskId].
  rewrite (getEvents_at_cursor start rest) by done.
  eexists. split; [done|].
  match goal with
  | |- context [deliver callback rest ?wq] =>
      destruct (following_deliver start rest [] wq Hnum' Hcalls Hafter Hsome)
        as (_ & Hd & Hp)
  end.
  { by rewrite app_nil_r. }
  rewrite Hd, Hp. done.
Qed.

(** X7.  Once the subscription is cancelled, its loop winds down: whatever
    happens around it, the loop itself takes at most three more steps (the
    answer of a poll in flight, its pick-up, the end of the delay), and when
    the delay has elapsed the loop has returned. *)
Theorem cancelled_loop_winds_down ls w w' :
  cancelled w = true →
  run callback ls w = Some w' →
  (length (filter loop_step ls) ≤ steps_left w)%nat ∧
  (delay_elapsed ∈ ls → loop w' = returned).
Proof.
  revert w. induction ls as [|l ls IH]; intros w Hc Hrun; simpl in Hrun.
  { split; [simpl; lia|]. by intros ?%elem_of_nil. }
  destruct (step callback l w) as [w1|] eqn:Hstep; [|done].
  assert (∀ w0, over w0 → run callback ls w0 = Some w' →
                length (filter loop_step ls) = 0) as Hover.
  { clear. intros w0 Hw0. revert w0 Hw0.
    induction ls as [|l ls IH]; intros w0 Hw0 Hrun; simpl in Hrun; [done|].
    destruct (step callback l w0) as [w1|] eqn:Hstep; [|done].
    destruct (over_step callback _ _ _ Hw0 Hstep) as (Hl & _).
    assert (over w1) as Hw1 by (unfold over in *; by rewrite Hl).
    rewrite filter_cons.
    destruct l; simpl in Hstep;
      try (destruct Hw0 as [Hl0 | [e' Hl0]]; rewrite Hl0 in Hstep; discriminate);
      simpl; by eapply IH. }
  rewrite filter_cons. unfold steps_left.
  destruct l; simpl in Hstep.
  - inversion Hstep; subst. simpl.
    apply IH in Hrun as [Hlen Hret]; [|exact Hc].
    split; [done|]. intros [[=]|Hin]%elem_of_cons. by apply Hret.
  - destruct (loop w) as [[c|r]| | |] eqn:Hl; try discriminate.
    destruct (Store.exec c (store w)) as [s v]. inversion Hstep; subst.
    apply IH in Hrun as [Hlen Hret]; [|exact Hc]. unfold steps_left in Hlen. simpl in *.
    split; [lia|]. intros [[=]|Hin]%elem_of_cons. by apply Hret.
  - destruct (loop w) as [[c|r]| | |] eqn:Hl; try discriminate.
    inversion Hstep; subst.
    apply IH in Hrun as [Hlen Hret]; [|exact Hc]. unfold steps_left in Hlen. simpl in *.
    split; [lia|]. intros [[=]|Hin]%elem_of_cons. by apply Hret.
  - destruct (loop w) as [[c|[[ | | |events]|e]]| | |] eqn:Hl; try discriminate;
      inversion Hstep; subst; clear Hstep.
    + destruct (deliver_after_unsubscribe callback events w Hc) as (_ & Hc1 & _).
      apply IH in Hrun as [Hlen Hret]; [|exact Hc1]. unfold steps_left in Hlen.
      split; [|intros [[=]|Hin]%elem_of_cons; by apply Hret].
      simpl. destruct (deliver_cases callback events w) as [[-> Hd] | [_ Hd]].
      * rewrite Hd in Hlen. simpl in Hlen. lia.
      * cbn zeta in Hd. destruct (throws (callback None events (observer w)));
          rewrite Hd in Hlen; simpl in Hlen; [destruct (throws _)|]; simpl in Hlen; lia.
    + simpl. rewrite (Hover (set_loop (threw e) w)); [|by right; eexists|done].
      split; [lia|]. intros [[=]|Hin]%elem_of_cons.
      assert (over (set_loop (threw e) w)) as Ho by (right; by eexists).
      exfalso. clear -Hin Ho Hrun. revert Ho Hrun. generalize (set_loop (threw e) w).
      induction ls as [|l ls IH]; intros w0 Ho Hrun; [by apply elem_of_nil in Hin|].
      simpl in Hrun. destruct (step callback l w0) as [w1|] eqn:Hstep; [|done].
      destruct (over_step callback _ _ _ Ho Hstep) as (Hl & _).
      assert (over w1) as Hw1 by (unfold over in *; by rewrite Hl).
      apply elem_of_cons in Hin as [<-|Hin]; [|by eapply IH].
      simpl in Hstep. by destruct Ho as [Hl0 | [e' Hl0]]; rewrite Hl0 in Hstep.
  - destruct (loop w) eqn:Hl; try discriminate. inversion Hstep; subst; clear Hstep.
    unfold loop_head in Hrun. rewrite Hc in Hrun. simpl.
    assert (over (set_loop returned w)) as Ho by by left.
    rewrite (Hover _ Ho Hrun). split; [lia|]. intros _.
    by destruct (over_run callback _ _ _ Ho Hrun) as (-> & _).
  - inversion Hstep; subst. simpl.
    apply IH in Hrun as [Hlen Hret]; [|reflexivity].
    split; [done|]. intros [[=]|Hin]%elem_of_cons. by apply Hret.
Qed.

(** The first poll of a subscription, answered and picked up. *)
Lemma first_poll s options (o : O) :
  numbered s →
  ∃ w',
    run callback [store_answers; resumes] (observe s options o) = Some w' ∧
    delivered w' =
      filter (past (TaskStoreGetEventsOptions.after options))
        (filter (λ e, DbTaskEventRow.taskId e = TaskStoreGetEventsOptions.taskId options)
           (Store.events s)).
Proof.
  intros Hnum. set (start := TaskStoreGetEventsOptions.after options).
  set (w := observe s options o).
  assert (following start w) as (Hnum' & Hcalls & Hafter & [rest Hlog] & Hsome & Hloop).
  { unfold following, w, observe, loop_head, delivered. simpl.
    split_and!; [done|constructor|done|by eexists|by left|done]. }
  assert (loop w =
          await_getEvents
            (sent (call_getEvents (TaskStoreGetEventsOptions.mk (taskId w) (after w)))))
    as Hl by done.
  cbn [run step]. rewrite Hl, Hafter. cbn [Store.exec].
  unfold set_loop at 2, set_store. cbn [loop store taskId].
  rewrite (getEvents_at_cursor start rest) by done.
  eexists. split; [done|].
  match goal with
  | |- context [deliver callback rest ?wq] =>
      destruct (following_deliver start rest [] wq Hnum' Hcalls Hafter Hsome)
        as (_ & Hd & Hp)
  end.
  { by rewrite app_nil_r. }
  rewrite Hd. change (delivered _ ++ rest) with (delivered w ++ rest).
  by rewrite <-Hlog.
Qed.

End MoreObserveFacts.

(** * From the agent's log to the observer *)

Section LogFacts.
Import Claimed Further.
Context {O : Type} (callback : Observe.Callback O).

(** X20.  A message that an agent logs reaches the observers of its task.
    [emitLog] returns once the store has taken the message, as one [log]
    event of the agent's task and run; a subscription to that task made
    afterwards, with no cursor or one from before the message, is handed the
    event by its first poll, as the last of the batch. *)
Theorem a_logged_message_reaches_the_observer
    (w : Broker.t) a agent message after (o : O) :
  Broker.agents w !! a = Some agent →
  numbered (Broker.storage w) →
  (∀ c, after = Some c → (c < Store.nextEvent (Broker.storage w))%Z) →
  let j := length (Broker.jobs w) in
  let taskId := TaskState.taskId (TaskAgent.state agent) in
  ∃ w',
    Broker.run [Broker.calls_emitLog a message; Broker.store_answers j;
                Broker.resumes j] w = Some w' ∧
    Broker.jobs w' !! j = Some Broker.returned_void ∧
    ∃ ow earlier,
      Observe.run callback [Observe.store_answers; Observe.resumes]
        (Observe.observe (Broker.storage w')
           (TaskStoreGetEventsOptions.mk taskId after) o) = Some ow ∧
      delivered ow =
        earlier ++
        [DbTaskEventRow.mk (Store.nextEvent (Broker.storage w))
           (TaskState.runId (TaskAgent.state agent)) taskId message log
           (Store.now (Broker.storage w))].
Proof.
  intros Ha Hnum Hafter j taskId. subst j.
  destruct w as [s0 g res defs jobs0 ags ivs unc].
  cbn [Broker.jobs Broker.storage Broker.agents] in *.
  set (opts := TaskAgent.emitLog_options message agent).
  rewrite (run_step _ _ _
             (Broker.mk s0 g res defs
                (jobs0 ++ [Broker.emitLog_await_emit (sent (call_emit opts))])
                ags ivs unc)).
  2: { simpl. by rewrite Ha. }
  rewrite (run_step _ _ _
             (Broker.mk (Store.emit opts s0) g res defs
                (jobs0 ++ [Broker.emitLog_await_emit (settled (fulfilled value_void))])
                ags ivs unc)).
  2: { erewrite step_store_answers; [|apply lookup_snoc|reflexivity].
       unfold Broker.set_job, Broker.set_jobs, Broker.set_storage. simpl.
       by rewrite insert_snoc. }
  rewrite (run_step _ _ _
             (Broker.mk (Store.emit opts s0) g res defs (jobs0 ++ [Broker.returned_void])
                ags ivs unc)).
  2: { erewrite step_resumes; [|apply lookup_snoc].
       unfold Broker.resume, Broker.set_job, Broker.set_jobs. simpl.
       by rewrite insert_snoc. }
  eexists. split; [reflexivity|]. cbn [Broker.jobs Broker.storage].
  split; [apply lookup_snoc|].
  destruct (first_poll callback (Store.emit opts s0)
              (TaskStoreGetEventsOptions.mk taskId after) o
              (numbered_emit _ _ Hnum)) as (ow & Hrun & Hdel).
  exists ow. eexists. split; [exact Hrun|]. rewrite Hdel.
  cbn [Store.emit Store.events TaskStoreGetEventsOptions.after
       TaskStoreGetEventsOptions.taskId].
  rewrite !filter_app. f_equal.
  rewrite filter_cons, decide_True by done. rewrite filter_nil.
  rewrite filter_cons, decide_True; [done|].
  unfold past. destruct after as [c|]; [|done]. simpl. by apply Hafter.
Qed.

End LogFacts.

(** * The collectors of a traversal *)

Section InsertionOrder.
Import Collect.
Context {A : Type} `{EqDecision A}.

Implicit Types (l acc : list A).

Lemma foldl_set_add acc l :
  ∃ extra,
    foldl set_add acc l = acc ++ extra ∧
    (NoDup acc → NoDup (acc ++ extra)) ∧
    ∀ x, x ∈ acc ++ extra ↔ x ∈ acc ∨ x ∈ l.
Proof.
  revert acc. induction l as [|y l IH]; intros acc; simpl.
  - exists []. rewrite app_nil_r. split_and!; [done..|].
    intros x. rewrite elem_of_nil. tauto.
  - unfold set_add at 2. destruct (decide (y ∈ acc)) as [Hy|Hy].
    + destruct (IH acc) as (extra & -> & Hnd & Hin). exists extra.
      split_and!; [done..|]. intros x. rewrite Hin, elem_of_cons.
      split; [tauto|]. intros [?|[->|?]]; tauto.
    + destruct (IH (acc ++ [y])) as (extra & -> & Hnd & Hin). exists (y :: extra).
      replace (acc ++ y :: extra) with ((acc ++ [y]) ++ extra)
        by by rewrite <-app_assoc.
      split_and!; [done| |].
      * intros Hacc. apply Hnd.
        apply NoDup_app. split_and!; [done| |apply NoDup_singleton].
        intros x Hx ->%list_elem_of_singleton. done.
      * intros x. rewrite Hin.
        rewrite elem_of_app, list_elem_of_singleton, elem_of_cons. tauto.
Qed.

Lemma insertion_order_NoDup l : NoDup (insertion_order l).
Proof.
  unfold insertion_order. destruct (foldl_set_add [] l) as (extra & -> & Hnd & _).
  apply Hnd, NoDup_nil_2.
Qed.

Lemma insertion_order_elem_of l x : x ∈ insertion_order l ↔ x ∈ l.
Proof.
  unfold insertion_order. destruct (foldl_set_add [] l) as (extra & -> & _ & Hin).
  rewrite Hin, elem_of_nil. tauto.
Qed.

Lemma foldl_set_add_fresh acc l :
  NoDup (acc ++ l) → foldl set_add acc l = acc ++ l.
Proof.
  revert acc. induction l as [|y l IH]; intros acc Hnd; simpl.
  - by rewrite app_nil_r.
  - unfold set_add at 2. rewrite decide_False.
    + rewrite IH; rewrite <-app_assoc; done.
    + apply NoDup_app in Hnd as (_ & Hdisj & _). intros Hy.
      apply (Hdisj y Hy). by left.
Qed.

End InsertionOrder.

(** X8.  The fields asked of the catalog.  With no fields restriction, or
    an empty one, none is passed on (full entities are fetched).  Otherwise
    the list passed on starts with the four fields needed to form entity
    refs and follow relations, in that order, holds no field twice, and holds
    exactly these four and the requested fields. *)
Theorem fields_keep_what_the_traversal_needs (requested : option (list string)) :
  match requested with
  | None | Some [] => TraverseCatalog.fields requested = None
  | Some fs =>
      ∃ extra,
        TraverseCatalog.fields requested = Some (TraverseCatalog.required ++ extra) ∧
        NoDup (TraverseCatalog.required ++ extra) ∧
        ∀ x, x ∈ TraverseCatalog.required ++ extra ↔
             x ∈ TraverseCatalog.required ∨ x ∈ fs
  end.
Proof.
  destruct requested as [[|f fs]|]; [done| |done].
  unfold TraverseCatalog.fields, Collect.insertion_order. rewrite foldl_app.
  assert (NoDup TraverseCatalog.required) as Hreq.
  { apply (bool_decide_unpack _). by vm_compute. }
  rewrite (foldl_set_add_fresh [] TraverseCatalog.required Hreq). simpl app at 1.
  destruct (foldl_set_add TraverseCatalog.required (f :: fs)) as (extra & -> & Hnd & Hin).
  exists extra. split_and!; [done|by apply Hnd|done].
Qed.

(** Equations between unions of sets of refs. *)
Ltac refs_eq :=
  apply set_eq; intros ?;
  rewrite ?elem_of_union, ?elem_of_singleton, ?elem_of_union, ?elem_of_empty;
  intuition (subst; auto).

Section CollectFacts.
Import Collect Further.
Context {Entity R : Type}.

Implicit Types (c : t Entity R) (ls : list (Label Entity)).

Lemma collect_run_snoc ls l c :
  run (ls ++ [l]) c = run ls c ≫= step l.
Proof.
  revert c. induction ls as [|l0 ls IH]; intros c; simpl.
  - by destruct (step l c).
  - destruct (step l0 c); simpl; [apply IH | done].
Qed.

(** No step changes the bounds or the [visit] function. *)
Lemma step_frame l c c' :
  step l c = Some c' →
  minDepth c' = minDepth c ∧ maxDepth c' = maxDepth c ∧ visit c' = visit c.
Proof.
  destruct l as [node|k entity|k]; simpl.
  - intros [= <-]. unfold visitNode. destruct (decide _); [done|].
    by destruct (visit c node).
  - unfold settle_load. destruct (loading c !! k) as [[node|]|]; try done.
    destruct entity, (visit c node); by intros [= <-].
  - unfold settle_load. destruct (loading c !! k) as [[node|]|]; try done.
    by intros [= <-].
Qed.

Lemma run_frame ls c c' :
  run ls c = Some c' →
  minDepth c' = minDepth c ∧ maxDepth c' = maxDepth c ∧ visit c' = visit c.
Proof.
  revert c. induction ls as [|l ls IH]; intros c Hrun; simpl in Hrun.
  - by inversion Hrun.
  - destruct (step l c) as [c1|] eqn:Hstep; [|done].
    destruct (step_frame _ _ _ Hstep) as (H1 & H2 & H3).
    destruct (IH _ Hrun) as (H4 & H5 & H6). split_and!; congruence.
Qed.

Lemma window_refs_frame {R'} ls c (c1 : t Entity R') :
  minDepth c1 = minDepth c → maxDepth c1 = maxDepth c →
  window_refs c1 ls = window_refs c ls.
Proof. unfold window_refs. by intros -> ->. Qed.

Lemma window_refs_visits node ls c :
  window_refs c (visits node :: ls) =
    if decide (in_window (minDepth c) (maxDepth c) node)
    then TraverseCatalogNode.entityRef node :: window_refs c ls
    else window_refs c ls.
Proof.
  unfold window_refs, nodes_of. simpl. rewrite filter_cons. by destruct (decide _).
Qed.

Lemma window_refs_loaded k entity ls c :
  window_refs c (entity_loaded k entity :: ls) = window_refs c ls.
Proof. done. Qed.

Lemma window_refs_failed k ls c :
  window_refs c (entity_failed k :: ls) = window_refs c ls.
Proof. done. Qed.

(** A node that is not skipped lies within the bounds; one within the
    bounds is skipped only if its ref was seen. *)
Lemma skipped_in_window node c :
  skipped node c ↔
    ¬ in_window (minDepth c) (maxDepth c) node ∨
    TraverseCatalogNode.entityRef node ∈ seenRefs c.
Proof. unfold skipped, in_window. intuition lia. Qed.

(** X9.  Handing the same node to a collector twice is the same as handing
    it over once, whatever the collector does with its nodes. *)
Theorem visitNode_twice node c :
  visitNode node (visitNode node c) = visitNode node c.
Proof.
  unfold visitNode at 2 3. destruct (decide (skipped node c)) as [Hs|Hs].
  - unfold visitNode. by rewrite decide_True.
  - destruct (visit c node); unfold visitNode;
      by rewrite decide_True
        by (right; right; simpl; apply elem_of_union_r, elem_of_singleton; done).
Qed.

Lemma seenRefs_run ls c c' :
  run ls c = Some c' →
  seenRefs c' = seenRefs c ∪ list_to_set (window_refs c ls).
Proof.
  revert c. induction ls as [|l ls IH]; intros c Hrun; simpl in Hrun.
  - inversion Hrun; subst. unfold window_refs. simpl. refs_eq.
  - destruct (step l c) as [c1|] eqn:Hstep; [|done].
    destruct (step_frame _ _ _ Hstep) as (Hmin & Hmax & _).
    rewrite (IH _ Hrun).
    assert (window_refs c1 ls = window_refs c ls) as ->.
    { unfold window_refs. by rewrite Hmin, Hmax. }
    destruct l as [node|k entity|k]; simpl in Hstep.
    + inversion Hstep; subst; clear Hstep.
      unfold window_refs, nodes_of. simpl. fold (nodes_of ls).
      rewrite filter_cons. unfold visitNode.
      destruct (decide (skipped node c)) as [Hs|Hs];
        destruct (decide (in_window (minDepth c) (maxDepth c) node)) as [Hw|Hw]; simpl.
      * destruct Hs as [?|[?|Hseen]]; [unfold in_window in Hw; lia..|].
        simpl. refs_eq.
      * done.
      * destruct (visit c node); simpl; refs_eq.
      * destruct Hs. unfold skipped, in_window in *. lia.
    + unfold settle_load in Hstep. destruct (loading c !! k) as [[node|]|]; try done.
      destruct entity, (visit c node); by inversion Hstep.
    + unfold settle_load in Hstep. destruct (loading c !! k) as [[node|]|]; try done.
      by inversion Hstep.
Qed.

(** X10.  Whatever a collector does with its nodes, the refs it remembers
    are those of the nodes it was handed within its depth bounds: a node
    outside the bounds leaves no trace, and is collected if it comes again
    within them. *)
Theorem seenRefs_are_the_refs_in_the_window ls c c' :
  run ls c = Some c' →
  ∀ ref,
    ref ∈ seenRefs c' ↔
    ref ∈ seenRefs c ∨
    ∃ node,
      node ∈ nodes_of ls ∧ TraverseCatalogNode.entityRef node = ref ∧
      (minDepth c ≤ TraverseCatalogNode.depth node ≤ maxDepth c)%Z.
Proof.
  intros Hrun ref. rewrite (seenRefs_run _ _ _ Hrun). unfold window_refs.
  rewrite elem_of_union, elem_of_list_to_set, list_elem_of_fmap.
  split; (intros [?|Hin]; [by left|right]).
  - destruct Hin as (node & -> & (Hw & Hin)%list_elem_of_filter). by exists node.
  - destruct Hin as (node & Hin & <- & Hw). exists node. split; [done|].
    by apply list_elem_of_filter.
Qed.

End CollectFacts.

Section StandardCollectors.
Import Collect Further.
Context {Entity : Type}.

Implicit Types (ls : list (Label Entity)).

(** *** [toEntityRefArray] and [toEntityRefSet] without loads *)

Lemma ref_array_run ls (c c' : t Entity (list string)) :
  visit c = visit_ref_array true →
  loading c = [] →
  (∀ x, x ∈ seenRefs c ↔ x ∈ result c) →
  run ls c = Some c' →
  result c' = foldl set_add (result c) (window_refs c ls).
Proof.
  revert c. induction ls as [|l ls IH]; intros c Hv Hload Hseen Hrun; simpl in Hrun.
  - by inversion Hrun; subst.
  - destruct (step l c) as [c1|] eqn:Hstep; [|done].
    destruct (step_frame _ _ _ Hstep) as (Hmin & Hmax & Hv1).
    rewrite Hv in Hv1.
    pose proof (window_refs_frame ls c c1 Hmin Hmax) as Hrefs.
    destruct l as [node|k entity|k]; simpl in Hstep.
    + inversion Hstep as [Hc1]; clear Hstep.
      rewrite window_refs_visits, <-Hrefs.
      unfold visitNode in Hc1. rewrite Hv in Hc1. simpl in Hc1.
      destruct (decide (skipped node c)) as [Hs|Hs].
      * subst c1. apply skipped_in_window in Hs as [Hs|Hs].
        -- rewrite decide_False by done. by apply IH.
        -- destruct (decide _); [|by apply IH]. simpl.
           unfold set_add at 2. rewrite decide_True by by apply Hseen.
           by apply IH.
      * rewrite skipped_in_window in Hs.
        rewrite decide_True by (destruct (decide (in_window (minDepth c) (maxDepth c) node)); tauto).
        simpl. unfold set_add at 2. rewrite decide_False.
        2: { intros Hin%Hseen. tauto. }
        rewrite (IH c1 Hv1); subst c1; simpl; [done..| |done].
        intros x.
        rewrite elem_of_union, elem_of_singleton, elem_of_app, list_elem_of_singleton.
        by rewrite Hseen.
    + unfold settle_load in Hstep. by rewrite Hload in Hstep.
    + unfold settle_load in Hstep. by rewrite Hload in Hstep.
Qed.

(** X11.  [toEntityRefArray], as long as missing entities are included
    (the default): the array holds the refs of the nodes handed over within
    the depth bounds (0 to 100 unless given), each once, in the order in
    which they first came. *)
Theorem toEntityRefArray_keeps_first_visits options ls c :
  options ≫= RefOptions.includeMissing ≠ Some false →
  run ls (toEntityRefArray (Entity := Entity) options) = Some c →
  let lo := default 0%Z (options ≫= RefOptions.minDepth) in
  let hi := default 100%Z (options ≫= RefOptions.maxDepth) in
  complete c =
    insertion_order
      (TraverseCatalogNode.entityRef <$> filter (in_window lo hi) (nodes_of ls)) ∧
  NoDup (complete c).
Proof.
  intros Hinc Hrun lo hi.
  assert (complete c =
          insertion_order
            (TraverseCatalogNode.entityRef <$> filter (in_window lo hi) (nodes_of ls)))
    as Hc.
  { apply ref_array_run in Hrun.
    - exact Hrun.
    - unfold toEntityRefArray, collectNodes. simpl.
      destruct options as [[? ? [[|]|]]|]; simpl in *; done.
    - done.
    - simpl. intros x. by rewrite elem_of_empty, elem_of_nil. }
  split; [done|]. rewrite Hc. apply insertion_order_NoDup.
Qed.

Lemma ref_set_run ls (c c' : t Entity (gset string)) :
  visit c = visit_ref_set true →
  loading c = [] →
  seenRefs c = result c →
  run ls c = Some c' →
  result c' = seenRefs c'.
Proof.
  revert c. induction ls as [|l ls IH]; intros c Hv Hload Hseen Hrun; simpl in Hrun.
  - by inversion Hrun; subst.
  - destruct (step l c) as [c1|] eqn:Hstep; [|done].
    destruct (step_frame _ _ _ Hstep) as (Hmin & Hmax & Hv1).
    rewrite Hv in Hv1.
    destruct l as [node|k entity|k]; simpl in Hstep.
    + inversion Hstep as [Hc1]; clear Hstep.
      unfold visitNode in Hc1. rewrite Hv in Hc1. simpl in Hc1.
      destruct (decide (skipped node c)) as [Hs|Hs].
      * subst c1. by apply (IH c).
      * apply (IH c1 Hv1); subst c1; simpl; [done| |done]. by rewrite Hseen.
    + unfold settle_load in Hstep. by rewrite Hload in Hstep.
    + unfold settle_load in Hstep. by rewrite Hload in Hstep.
Qed.

(** X12.  [toEntityRefSet], as long as missing entities are included (the
    default): the set holds exactly the refs of the nodes handed over
    within the depth bounds (0 to 100 unless given). *)
Theorem toEntityRefSet_holds_the_window options ls c :
  options ≫= RefOptions.includeMissing ≠ Some false →
  run ls (toEntityRefSet (Entity := Entity) options) = Some c →
  let lo := default 0%Z (options ≫= RefOptions.minDepth) in
  let hi := default 100%Z (options ≫= RefOptions.maxDepth) in
  ∀ ref,
    ref ∈ complete c ↔
    ∃ node,
      node ∈ nodes_of ls ∧ TraverseCatalogNode.entityRef node = ref ∧
      (lo ≤ TraverseCatalogNode.depth node ≤ hi)%Z.
Proof.
  intros Hinc Hrun lo hi ref.
  pose proof (seenRefs_run _ _ _ Hrun) as Hseen.
  apply ref_set_run in Hrun as Hres; [| |done..].
  2: { unfold toEntityRefSet, collectNodes. simpl.
       destruct options as [[? ? [[|]|]]|]; simpl in *; done. }
  unfold complete. rewrite Hres, Hseen. unfold window_refs. simpl.
  rewrite elem_of_union, elem_of_empty, elem_of_list_to_set, list_elem_of_fmap.
  fold lo hi. split.
  - intros [[]|(node & -> & (Hw & Hin)%list_elem_of_filter)]. by exists node.
  - intros (node & Hin & <- & Hw). right. exists node. split; [done|].
    by apply list_elem_of_filter.
Qed.

(** *** Collectors that wait for the entities *)

(** Settling load [k] takes one call out of those that wait. *)
Lemma settle_waiting {A} (l : list (option A)) k x :
  l !! k = Some (Some x) →
  ∃ l1 l2,
    omap id l = l1 ++ x :: l2 ∧ omap id (<[k := None]> l) = l1 ++ l2.
Proof.
  revert k. induction l as [|y l IH]; intros [|k] Hk; try done.
  - simpl in Hk. inversion Hk; subst. by exists [], (omap id l).
  - simpl in Hk. destruct (IH _ Hk) as (l1 & l2 & H1 & H2).
    destruct y as [a|].
    + exists (a :: l1), l2.
      split; [exact (f_equal (cons a) H1) | exact (f_equal (cons a) H2)].
    + exists l1, l2. split; [exact H1 | exact H2].
Qed.

Lemma NoDup_without {A} (l0 l1 l2 : list A) x :
  NoDup (l0 ++ l1 ++ x :: l2) → NoDup (l0 ++ l1 ++ l2).
Proof.
  rewrite <-Permutation_middle, <-Permutation_middle. by intros [_ ?]%NoDup_cons.
Qed.

Lemma entity_array_run ls (c c' : t Entity (list Entity)) :
  visit c = visit (toEntityArray None) →
  run ls c = Some c' →
  result c' = result c ++ found ls ∧
  (length (loading c) = size (seenRefs c) →
   length (loading c') = size (seenRefs c')) ∧
  (length (result c) + length (omap id (loading c)) ≤ length (loading c) →
   length (result c') + length (omap id (loading c')) ≤ length (loading c'))%nat.
Proof.
  revert c. induction ls as [|l ls IH]; intros c Hv Hrun; simpl in Hrun.
  - inversion Hrun; subst. by rewrite app_nil_r.
  - destruct (step l c) as [c1|] eqn:Hstep; [|done].
    destruct (step_frame _ _ _ Hstep) as (_ & _ & Hv1). rewrite Hv in Hv1.
    destruct (IH c1 Hv1 Hrun) as (Hres & Hsize & Hlen). clear IH Hrun.
    destruct l as [node|k entity|k]; simpl in Hstep.
    + inversion Hstep as [Hc1]; clear Hstep.
      unfold visitNode in Hc1. rewrite Hv in Hc1. simpl in Hc1.
      destruct (decide (skipped node c)) as [Hs|Hs]; [by subst c1|].
      assert (TraverseCatalogNode.entityRef node ∉ seenRefs c) as Hfresh.
      { intros Hin. apply Hs. by right; right. }
      subst c1. simpl in *. split_and!; [done| |].
      * intros Hc. apply Hsize. rewrite length_app, size_union, size_singleton.
        -- simpl. by rewrite Hc.
        -- intros x Hx ->%elem_of_singleton. done.
      * intros Hc. apply Hlen. rewrite omap_app, !length_app. simpl. lia.
    + unfold settle_load in Hstep.
      destruct (loading c !! k) as [[node|]|] eqn:Hk; try done.
      destruct (settle_waiting _ _ _ Hk) as (l1 & l2 & Hw & Hw').
      rewrite Hv in Hstep. simpl in Hstep.
      inversion Hstep as [Hc1]; clear Hstep. subst c1. simpl in *.
      rewrite length_insert in *. rewrite Hw' in Hlen.
      rewrite Hw. rewrite !length_app in *. simpl.
      destruct entity as [e|]; simpl in *.
      * split_and!; [by rewrite Hres, <-app_assoc|done|].
        intros Hc. apply Hlen. rewrite length_app. simpl. lia.
      * split_and!; [done..|]. intros Hc. apply Hlen. lia.
    + unfold settle_load in Hstep.
      destruct (loading c !! k) as [[node|]|] eqn:Hk; try done.
      destruct (settle_waiting _ _ _ Hk) as (l1 & l2 & Hw & Hw').
      rewrite Hv in Hstep. simpl in Hstep.
      inversion Hstep as [Hc1]; clear Hstep. subst c1. simpl in *.
      rewrite length_insert in *. rewrite Hw' in Hlen.
      rewrite Hw. rewrite !length_app in *. simpl.
      split_and!; [done..|]. intros Hc. apply Hlen. lia.
Qed.

(** X13.  [toEntityArray]: the array holds the entities that the loads
    came back with, in the order in which the loads came back (not the
    order in which the nodes were handed over); a load that finds nothing
    or fails adds nothing.  There are at most as many entities as distinct
    refs among the nodes handed over within the depth bounds. *)
Theorem toEntityArray_keeps_the_loaded_entities options ls c :
  run ls (toEntityArray (Entity := Entity) options) = Some c →
  let lo := default 0%Z (options ≫= DepthOptions.minDepth) in
  let hi := default 100%Z (options ≫= DepthOptions.maxDepth) in
  complete c = found ls ∧
  (length (complete c) ≤
     length (insertion_order
               (TraverseCatalogNode.entityRef
                  <$> filter (in_window lo hi) (nodes_of ls))))%nat.
Proof.
  intros Hrun lo hi.
  pose proof (seenRefs_run _ _ _ Hrun) as Hseen.
  apply entity_array_run in Hrun as (Hres & Hsize & Hlen); [|done].
  split; [done|].
  specialize (Hsize (eq_sym (size_empty (C := gset string)))).
  specialize (Hlen (Nat.le_0_l _)).
  unfold complete.
  assert (size (seenRefs c) =
          length (insertion_order
                    (TraverseCatalogNode.entityRef
                       <$> filter (in_window lo hi) (nodes_of ls)))) as <-.
  { rewrite Hseen. unfold window_refs. simpl. fold lo hi.
    rewrite <-(size_list_to_set (C := gset string) (insertion_order _))
      by apply insertion_order_NoDup.
    f_equal. apply set_eq. intros x.
    rewrite elem_of_union, elem_of_empty, !elem_of_list_to_set,
      insertion_order_elem_of. tauto. }
  lia.
Qed.

Lemma ref_array_waiting_run ls (c c' : t Entity (list string)) :
  visit c = visit_ref_array false →
  NoDup (result c ++ waiting_refs c) →
  (∀ x, x ∈ result c ++ waiting_refs c → x ∈ seenRefs c) →
  run ls c = Some c' →
  NoDup (result c' ++ waiting_refs c') ∧
  (∀ x, x ∈ result c' ++ waiting_refs c' → x ∈ seenRefs c') ∧
  length (result c') = (length (result c) + length (found ls))%nat.
Proof.
  revert c. induction ls as [|l ls IH]; intros c Hv Hnd Hin Hrun; simpl in Hrun.
  - inversion Hrun; subst. split_and!; [done..|]. simpl. lia.
  - destruct (step l c) as [c1|] eqn:Hstep; [|done].
    destruct (step_frame _ _ _ Hstep) as (_ & _ & Hv1). rewrite Hv in Hv1.
    specialize (IH c1 Hv1).
    destruct l as [node|k entity|k]; simpl in Hstep.
    + inversion Hstep as [Hc1]; clear Hstep.
      unfold visitNode in Hc1. rewrite Hv in Hc1. simpl in Hc1.
      destruct (decide (skipped node c)) as [Hs|Hs]; [subst c1; by apply IH|].
      assert (TraverseCatalogNode.entityRef node ∉ seenRefs c) as Hfresh.
      { intros Hx. apply Hs. by right; right. }
      apply IH in Hrun as (H1 & H2 & H3); [|subst c1..].
      * split_and!; [done..|]. rewrite H3. by subst c1.
      * unfold waiting_refs. simpl. rewrite omap_app, fmap_app, app_assoc. simpl.
        apply NoDup_app. split_and!; [done| |apply NoDup_singleton].
        intros x Hx ->%list_elem_of_singleton. by apply Hfresh, Hin.
      * unfold waiting_refs. simpl. rewrite omap_app, fmap_app, app_assoc. simpl.
        intros x [Hx| ->%list_elem_of_singleton]%elem_of_app.
        -- by apply elem_of_union_l, Hin.
        -- by apply elem_of_union_r, elem_of_singleton.
    + unfold settle_load in Hstep.
      destruct (loading c !! k) as [[node|]|] eqn:Hk; try done.
      destruct (settle_waiting _ _ _ Hk) as (l1 & l2 & Hw & Hw').
      rewrite Hv in Hstep. simpl in Hstep.
      unfold waiting_refs in Hnd, Hin. rewrite Hw, fmap_app, fmap_cons in Hnd, Hin.
      destruct entity as [e|]; inversion Hstep as [Hc1]; clear Hstep.
      * apply IH in Hrun as (H1 & H2 & H3); [|subst c1..].
        -- split_and!; [done..|]. rewrite H3. subst c1. simpl.
           rewrite length_app. simpl. lia.
        -- unfold waiting_refs. simpl. rewrite Hw', fmap_app, <-app_assoc. simpl.
           by rewrite Permutation_middle.
        -- unfold waiting_refs. simpl. rewrite Hw', fmap_app, <-app_assoc. simpl.
           intros x Hx. apply Hin. revert Hx.
           rewrite !elem_of_app, !elem_of_cons, !elem_of_app. tauto.
      * apply IH in Hrun as (H1 & H2 & H3); [|subst c1..].
        -- split_and!; [done..|]. rewrite H3. by subst c1.
        -- unfold waiting_refs. simpl. rewrite Hw', fmap_app.
           by apply NoDup_without in Hnd.
        -- unfold waiting_refs. simpl. rewrite Hw', fmap_app.
           intros x Hx. apply Hin. revert Hx.
           rewrite !elem_of_app, !elem_of_cons. tauto.
    + unfold settle_load in Hstep.
      destruct (loading c !! k) as [[node|]|] eqn:Hk; try done.
      destruct (settle_waiting _ _ _ Hk) as (l1 & l2 & Hw & Hw').
      rewrite Hv in Hstep. simpl in Hstep.
      unfold waiting_refs in Hnd, Hin. rewrite Hw, fmap_app, fmap_cons in Hnd, Hin.
      inversion Hstep as [Hc1]; clear Hstep.
      apply IH in Hrun as (H1 & H2 & H3); [|subst c1..].
      * split_and!; [done..|]. rewrite H3. by subst c1.
      * unfold waiting_refs. simpl. rewrite Hw', fmap_app.
        by apply NoDup_without in Hnd.
      * unfold waiting_refs. simpl. rewrite Hw', fmap_app.
        intros x Hx. apply Hin. revert Hx.
        rewrite !elem_of_app, !elem_of_cons. tauto.
Qed.

(** X14.  [toEntityRefArray] when missing entities are left out
    ([includeMissing: false]): there is one ref for each load that came back
    with an entity, no ref comes twice, and every ref is that of a node
    handed over within the depth bounds. *)
Theorem toEntityRefArray_leaves_out_the_missing options ls c :
  options ≫= RefOptions.includeMissing = Some false →
  run ls (toEntityRefArray (Entity := Entity) options) = Some c →
  let lo := default 0%Z (options ≫= RefOptions.minDepth) in
  let hi := default 100%Z (options ≫= RefOptions.maxDepth) in
  length (complete c) = length (found ls) ∧
  NoDup (complete c) ∧
  ∀ ref, ref ∈ complete c →
    ∃ node,
      node ∈ nodes_of ls ∧ TraverseCatalogNode.entityRef node = ref ∧
      (lo ≤ TraverseCatalogNode.depth node ≤ hi)%Z.
Proof.
  intros Hinc Hrun lo hi.
  pose proof (seenRefs_run _ _ _ Hrun) as Hseen.
  apply ref_array_waiting_run in Hrun as (Hnd & Hin & Hlen).
  - unfold complete. split_and!.
    + by rewrite Hlen.
    + by apply NoDup_app in Hnd as (? & _).
    + intros ref Href.
      assert (ref ∈ seenRefs c) as Hs by (apply Hin, elem_of_app; by left).
      revert Hs. rewrite Hseen. unfold window_refs. simpl. fold lo hi.
      rewrite elem_of_union, elem_of_empty, elem_of_list_to_set, list_elem_of_fmap.
      intros [[]|(node & -> & (Hw & Hn)%list_elem_of_filter)]. by exists node.
  - unfold toEntityRefArray, collectNodes. simpl. by rewrite Hinc.
  - apply NoDup_nil_2.
  - simpl. intros x. unfold waiting_refs. simpl. by rewrite elem_of_nil.
Qed.

End StandardCollectors.

(** * The traversal of the catalog *)

Section TraverseFacts.
Import Traverse Further.
Context {Entity EdgeData Filter : Type}.
Variable stringifyEntityRef : Entity → string.

#[local] Abbreviation World := (Traverse.t EdgeData Filter).
#[local] Abbreviation step := (Traverse.step stringifyEntityRef).
#[local] Abbreviation run := (Traverse.run stringifyEntityRef).

Implicit Types (w : World) (ls : list (Label Entity EdgeData))
  (n current : InternalNode EdgeData) (initial : TraverseCatalogInitialSet Filter).

(** Case analysis on a step that is taken. *)
Ltac step_cases Hstep :=
  match type of Hstep with
  | Traverse.step _ ?l ?w = Some _ =>
      destruct l; simpl in Hstep;
      repeat match type of Hstep with
        | context [match ?x with _ => _ end] =>
            let E := fresh "E" in destruct x eqn:E; try discriminate Hstep
        end;
      inversion Hstep; subst; clear Hstep
  end.

Lemma traverse_run_snoc ls l w :
  run (ls ++ [l]) w = run ls w ≫= step l.
Proof.
  revert w. induction ls as [|l0 ls IH]; intros w; simpl.
  - by destruct (step l w).
  - destruct (step l0 w); simpl; [apply IH | done].
Qed.

Lemma collected_app (cs1 cs2 : list (Call EdgeData Filter)) :
  collected (cs1 ++ cs2) = collected cs1 ++ collected cs2.
Proof. apply omap_app. Qed.

Lemma followed_app (cs1 cs2 : list (Call EdgeData Filter)) :
  followed (cs1 ++ cs2) = followed cs1 ++ followed cs2.
Proof. apply omap_app. Qed.

(** What [next_edge] does: the callback stands at a later point, and only
    [visitEdge] is called. *)
Lemma next_edge_shape j current i w :
  ∃ at_ cs,
    next_edge j current i w = set_callback j current at_ (add_calls cs w) ∧
    at_ ≠ await_collect_visitNode ∧ at_ ≠ await_follow_visitNode ∧
    (∀ e, at_ ≠ rejected_with e) ∧
    collected cs = [] ∧ followed cs = [] ∧ collect_complete ∉ cs.
Proof.
  unfold next_edge. destruct (nextLayer w !! i) as [next|].
  - exists (await_collect_visitEdge i),
      (optional (has_visitEdge w) (collect_visitEdge (node current) next)).
    split_and!; try done.
    + by destruct (has_visitEdge w).
    + by destruct (has_visitEdge w).
    + destruct (has_visitEdge w); simpl; [|apply not_elem_of_nil].
      by intros ?%list_elem_of_singleton.
  - exists finished, []. split_and!; try done.
    + unfold add_calls, set_callback, set_currentLayer. simpl. by rewrite app_nil_r.
    + apply not_elem_of_nil.
Qed.

(** A callback that moves on from [await collect.visitNode] is one
    callback less that waits there; any other move changes nothing to those
    that wait. *)
Lemma pending_update (layer : list (InternalNode EdgeData * Callback)) j current at0 at_ :
  layer !! j = Some (current, at0) →
  at_ ≠ await_collect_visitNode →
  (at0 = await_collect_visitNode ∧
   ∃ l1 l2, pending layer = l1 ++ current :: l2 ∧
            pending (<[j := (current, at_)]> layer) = l1 ++ l2) ∨
  (at0 ≠ await_collect_visitNode ∧
   pending (<[j := (current, at_)]> layer) = pending layer).
Proof.
  intros Hj Hat. revert j Hj.
  induction layer as [|[n0 a0] layer IH]; intros [|j] Hj; try done.
  - simpl in Hj. inversion Hj; subst. simpl.
    destruct at0; [left|right..]; (split; [done|]);
      [exists [], (pending layer)|..]; by destruct at_.
  - simpl in Hj. destruct (IH _ Hj) as [(-> & l1 & l2 & H1 & H2)|(Hne & H1)].
    + left. split; [done|]. destruct a0.
      * exists (n0 :: l1), l2.
        split; [exact (f_equal (cons n0) H1) | exact (f_equal (cons n0) H2)].
      * exists l1, l2. split; [exact H1 | exact H2].
      * exists l1, l2. split; [exact H1 | exact H2].
      * exists l1, l2. split; [exact H1 | exact H2].
      * exists l1, l2. split; [exact H1 | exact H2].
    + right. split; [done|]. destruct a0; try exact H1.
      exact (f_equal (cons n0) H1).
Qed.

Lemma pending_snoc (layer : list (InternalNode EdgeData * Callback)) current at_ :
  pending (layer ++ [(current, at_)]) =
    pending layer ++
    match at_ with await_collect_visitNode => [current] | _ => [] end.
Proof. unfold pending. rewrite omap_app. by destruct at_. Qed.

(** *** Every entity is handed over once *)

Lemma NoDup_refs_snoc (ns : list (InternalNode EdgeData)) n :
  NoDup (ref_of <$> ns) →
  (∀ m, m ∈ ns → ref_of m ≠ ref_of n) →
  NoDup (ref_of <$> ns ++ [n]).
Proof.
  intros Hnd Hfresh. rewrite fmap_app. apply NoDup_app.
  split_and!; [done| |apply NoDup_singleton].
  intros r (m & -> & Hm)%list_elem_of_fmap Hr. simpl in Hr.
  apply list_elem_of_singleton in Hr. by apply (Hfresh m).
Qed.

Lemma once_enter current thrown w : once w → once (enter current thrown w).
Proof.
  intros (Hc & Hcv & Hf & Hfv). unfold enter.
  destruct (decide (_ ∈ visitedNodes w)) as [Hin|Hin].
  - unfold once. simpl. rewrite pending_snoc, app_nil_r. done.
  - assert (∀ n, ref_of n ∈ visitedNodes w → ref_of n ≠ ref_of current) as Hfresh.
    { intros n Hn Heq. apply Hin. unfold ref_of in Heq. by rewrite <-Heq. }
    assert (followed (Filter := Filter)
              (optional (has_visitNode w) (collect_visitNode current)) = [])
      as Hfo by by destruct (has_visitNode w).
    assert (NoDup (ref_of <$> collected
                     (calls w ++ optional (has_visitNode w) (collect_visitNode current))))
      as Hc'.
    { rewrite collected_app. destruct (has_visitNode w); simpl; [|by rewrite app_nil_r].
      apply NoDup_refs_snoc; [done|]. intros m Hm. by apply Hfresh, Hcv. }
    assert (∀ n, n ∈ collected
                   (calls w ++ optional (has_visitNode w) (collect_visitNode current)) →
                 ref_of n ∈ visitedNodes w ∪ {[ref_of current]}) as Hcv'.
    { rewrite collected_app.
      intros n [Hn|Hn]%elem_of_app; [by apply elem_of_union_l, Hcv|].
      destruct (has_visitNode w); simpl in Hn; [|by apply elem_of_nil in Hn].
      apply list_elem_of_singleton in Hn as ->.
      by apply elem_of_union_r, elem_of_singleton. }
    destruct (if has_visitNode w then thrown else None) as [e|];
      unfold once; simpl; rewrite pending_snoc, followed_app, Hfo, !app_nil_r;
      (split_and!; [exact Hc'|exact Hcv'|..]).
    + done.
    + intros n Hn. by apply elem_of_union_l, Hfv.
    + rewrite app_assoc. apply NoDup_refs_snoc; [done|].
      intros m Hm. by apply Hfresh, Hfv.
    + rewrite app_assoc. intros n [Hn|Hn]%elem_of_app; [by apply elem_of_union_l, Hfv|].
      apply list_elem_of_singleton in Hn as ->.
      by apply elem_of_union_r, elem_of_singleton.
Qed.

Lemma once_loop_head w : once w → once (loop_head w).
Proof.
  intros (Hc & Hcv & Hf & Hfv). unfold loop_head.
  destruct (nextLayer w) as [|n layer] eqn:Hnext.
  - unfold once. simpl. rewrite collected_app, followed_app. simpl.
    by rewrite !app_nil_r.
  - unfold once. simpl. rewrite app_nil_r.
    rewrite fmap_app in Hf. apply NoDup_app in Hf as (Hf & _).
    split_and!; [done..|]. intros m Hm. apply Hfv, elem_of_app. by left.
Qed.

(** A callback moves on. *)
Lemma once_move j current at0 at_ cs w w' :
  once w →
  currentLayer w !! j = Some (current, at0) →
  at_ ≠ await_collect_visitNode →
  visitedNodes w' = visitedNodes w →
  currentLayer w' = <[j := (current, at_)]> (currentLayer w) →
  calls w' = calls w ++ cs →
  collected cs = [] →
  followed cs = [] ∨ (followed cs = [current] ∧ at0 = await_collect_visitNode) →
  once w'.
Proof.
  intros (Hc & Hcv & Hf & Hfv) Hj Hat Hv Hl Hcalls Hcs Hfs.
  unfold once. rewrite Hv, Hl, Hcalls, collected_app, followed_app, Hcs, app_nil_r.
  split_and!; [done..| |].
  - destruct (pending_update _ _ _ _ at_ Hj Hat)
      as [(-> & l1 & l2 & H1 & H2)|(Hne & ->)].
    + rewrite H2. rewrite H1 in Hf. destruct Hfs as [->|[-> _]].
      * rewrite app_nil_r. revert Hf. rewrite !fmap_app, fmap_cons.
        apply NoDup_without.
      * revert Hf. rewrite !fmap_app, !fmap_cons. simpl.
        rewrite <-!app_assoc. simpl. by rewrite <-Permutation_middle.
    + destruct Hfs as [->|[_ ?]]; [|done]. by rewrite app_nil_r.
  - intros m Hm. apply Hfv. revert Hm.
    destruct (pending_update _ _ _ _ at_ Hj Hat)
      as [(-> & l1 & l2 & H1 & H2)|(Hne & ->)].
    + rewrite H1, H2. destruct Hfs as [->|[-> _]];
        rewrite !elem_of_app, ?elem_of_cons, ?elem_of_nil; tauto.
    + destruct Hfs as [->|[_ ?]]; [|done]. by rewrite app_nil_r.
Qed.

Lemma once_step l w w' : once w → step l w = Some w' → once w'.
Proof.
  intros Hw Hstep. step_cases Hstep;
    try (eapply once_move;
         [exact Hw|eassumption| |reflexivity|reflexivity|by rewrite app_nil_r| |];
         [done|reflexivity|left; reflexivity]).
  - by apply once_loop_head.
  - exact Hw.
  - exact (once_enter _ _ _ Hw).
  - eapply once_move;
      [exact Hw|eassumption| |reflexivity|reflexivity|reflexivity| |];
      [done|reflexivity|right; split; reflexivity].
  - destruct (next_edge_shape j i (S i0) w)
      as (at_ & cs & -> & Hat & _ & _ & Hcs & Hfs & _).
    eapply once_move; [exact Hw|eassumption|exact Hat|reflexivity..|done|by left].
  - exact Hw.
  - destruct (next_edge_shape j i 0 w)
      as (at_ & cs & -> & Hat & _ & _ & Hcs & Hfs & _).
    eapply once_move; [exact Hw|eassumption|exact Hat|reflexivity..|done|by left].
  - exact Hw.
  - by apply once_loop_head.
Qed.

Lemma once_run ls w w' : once w → run ls w = Some w' → once w'.
Proof.
  revert w. induction ls as [|l ls IH]; intros w Hw Hrun; simpl in Hrun.
  - by inversion Hrun; subst.
  - destruct (step l w) as [w1|] eqn:Hstep; [|done].
    eapply IH; [|exact Hrun]. by eapply once_step.
Qed.

Lemma once_empty hn he : once (Traverse.empty (EdgeData := EdgeData) (Filter := Filter) hn he).
Proof. unfold once. simpl. split_and!; try apply NoDup_nil_2; by intros ? ?%elem_of_nil. Qed.

Lemma once_traverseCatalog fields initial hn he :
  once (traverseCatalog (EdgeData := EdgeData) fields initial hn he).
Proof.
  destruct initial; simpl.
  - apply once_loop_head, once_empty.
  - apply once_loop_head, once_empty.
  - apply once_empty.
Qed.

(** X15.  In a traversal each distinct entity is visited once, whatever
    the initial set and whatever the follower puts forward, however often:
    no two calls of [collect.visitNode] are for the same entity ref, and
    no two calls of [follow.visitNode] are. *)
Theorem each_entity_is_visited_once fields initial hn he ls w :
  run ls (traverseCatalog fields initial hn he) = Some w →
  NoDup (ref_of <$> collected (calls w)) ∧
  NoDup (ref_of <$> followed (calls w)).
Proof.
  intros Hrun. apply once_run in Hrun as (Hc & _ & Hf & _);
    [|apply once_traverseCatalog].
  split; [done|]. rewrite fmap_app in Hf. by apply NoDup_app in Hf as (? & _).
Qed.

(** *** The callbacks and the function that waits for them *)

(** What the start of a callback changes. *)
Lemma enter_frame current thrown w :
  let w' := enter current thrown w in
  main w' = main w ∧ nextLayer w' = nextLayer w ∧
  has_visitNode w' = has_visitNode w ∧ has_visitEdge w' = has_visitEdge w ∧
  (rejection w' = rejection w ∨ ∃ e, rejection w' = first_rejection e w) ∧
  (∃ cs, calls w' = calls w ++ cs ∧ (collect_complete ∉ cs) ∧ followed cs = [] ∧
         (cs = [] ∨ cs = [collect_visitNode current])) ∧
  (∃ at_, currentLayer w' = currentLayer w ++ [(current, at_)] ∧
          at_ ≠ await_follow_visitNode).
Proof.
  unfold enter. destruct (decide (_ ∈ visitedNodes w)); simpl.
  - split_and!; try done; [by left| |by exists finished].
    exists []. rewrite app_nil_r. split_and!; [done|apply not_elem_of_nil|done|by left].
  - assert (∃ cs, calls w ++ optional (has_visitNode w) (collect_visitNode current)
                  = calls w ++ cs ∧ (collect_complete ∉ cs) ∧
                    followed (Filter := Filter) cs = [] ∧
                    (cs = [] ∨ cs = [collect_visitNode current])) as Hcs.
    { eexists. split; [reflexivity|].
      destruct (has_visitNode w); simpl;
        (split_and!; [|done|]); [|by right|apply not_elem_of_nil|by left].
      by intros ?%list_elem_of_singleton. }
    destruct (if has_visitNode w then thrown else None) as [e|]; simpl;
      (split_and!; try done).
    + right. by exists e.
    + by exists (rejected_with e).
    + by left.
    + by exists await_collect_visitNode.
Qed.

Lemma orderly_loop_head w :
  collect_complete ∉ calls w →
  rejection w = None →
  all_finished w →
  orderly (loop_head w).
Proof.
  intros Hcc Hrej Hfin. unfold loop_head.
  destruct (nextLayer w) as [|n layer] eqn:Hnext.
  - unfold orderly. simpl. split_and!; [done..|]. by exists (calls w).
  - unfold orderly. simpl. done.
Qed.

(** A callback that stands at an [await] belongs to a traversal that
    waits for its callbacks, or that has failed already. *)
Lemma orderly_busy w j current at_ :
  orderly w →
  mapping w = false →
  currentLayer w !! j = Some (current, at_) →
  at_ ≠ finished →
  (collect_complete ∉ calls w) ∧
  (main w = await_all ∨ ∃ e, main w = threw e ∧ rejection w = Some e).
Proof.
  unfold orderly, mapping. intros Hw Hmap Hj Hat. destruct (main w) as [| | | |e].
  - destruct Hw as ((Hl & _) & _). by rewrite Hl in Hj.
  - done.
  - split; [done|]. by left.
  - destruct Hw as (Hfin & _). unfold all_finished in Hfin.
    rewrite Forall_lookup in Hfin. by specialize (Hfin _ _ Hj).
  - destruct Hw as (Hcc & [Hrej|[_ Hl]]); [|by rewrite Hl in Hj].
    split; [done|]. right. by exists e.
Qed.

(** A callback moves on, or fails. *)
Lemma orderly_move j current at0 w w' :
  orderly w →
  mapping w = false →
  currentLayer w !! j = Some (current, at0) →
  at0 ≠ finished →
  main w' = main w →
  (rejection w' = rejection w ∨ ∃ e, rejection w' = first_rejection e w) →
  (∃ cs, calls w' = calls w ++ cs ∧ collect_complete ∉ cs) →
  orderly w'.
Proof.
  intros Hw Hmap Hj Hat Hmain Hrej (cs & Hcalls & Hcs).
  destruct (orderly_busy _ _ _ _ Hw Hmap Hj Hat) as (Hcc & [Hm|(e & Hm & He)]);
    unfold orderly; rewrite Hmain, Hm, Hcalls, elem_of_app; [tauto|].
  split; [tauto|]. left. destruct Hrej as [->|(e' & ->)]; [done|].
  unfold first_rejection. by rewrite He.
Qed.

Lemma next_edge_frame j current i w :
  main (next_edge j current i w) = main w ∧
  rejection (next_edge j current i w) = rejection w ∧
  nextLayer (next_edge j current i w) = nextLayer w ∧
  visitedNodes (next_edge j current i w) = visitedNodes w.
Proof. unfold next_edge. by destruct (nextLayer w !! i). Qed.

Lemma orderly_map_from rest w :
  collect_complete ∉ calls w → orderly (set_main (map_from rest) w).
Proof. intros Hcc. unfold orderly. by destruct rest. Qed.

Lemma orderly_step l w w' : orderly w → step l w = Some w' → orderly w'.
Proof.
  intros Hw Hstep. step_cases Hstep;
    try (eapply orderly_move;
         [exact Hw|eassumption|eassumption|done|reflexivity|..];
         [first [by left | right; eexists; reflexivity]
         |exists []; split; [by rewrite app_nil_r|apply not_elem_of_nil]]).
  - (* the catalog answers *)
    unfold orderly in Hw. rewrite E in Hw.
    destruct Hw as ((Hl & _ & _ & _ & _ & Hrej) & Hcc).
    apply orderly_loop_head; [done..|]. unfold all_finished. simpl. rewrite Hl.
    constructor.
  - (* the catalog fails *)
    unfold orderly in *. rewrite E in Hw. simpl.
    destruct Hw as ((Hl & _ & _ & _ & _ & Hrej) & Hcc). split; [done|]. by right.
  - (* the next callback starts *)
    unfold orderly in Hw. rewrite E in Hw.
    destruct (enter_frame i thrown w) as (_ & _ & _ & _ & _ & (cs & Hcs & Hcc & _) & _).
    apply orderly_map_from. rewrite Hcs, elem_of_app. tauto.
  - eapply orderly_move; [exact Hw|eassumption|eassumption|done|reflexivity|by left|].
    eexists. split; [reflexivity|]. by intros ?%list_elem_of_singleton.
  - destruct (next_edge_shape j i (S i0) w)
      as (at_ & cs & -> & _ & _ & _ & _ & _ & Hcs).
    eapply orderly_move; [exact Hw|eassumption|eassumption|done|reflexivity|by left|].
    by exists cs.
  - (* the follower puts a node forward *)
    unfold orderly in *. simpl. destruct (main w); try done.
    destruct Hw as ((_ & _ & _ & _ & Hf & _) & _).
    unfold visit_closures in E. change (followed (calls w) !! k = Some i) in E.
    by rewrite Hf in E.
  - destruct (next_edge_shape j i 0 w)
      as (at_ & cs & -> & _ & _ & _ & _ & _ & Hcs).
    eapply orderly_move; [exact Hw|eassumption|eassumption|done|reflexivity|by left|].
    by exists cs.
  - (* the callbacks have settled, one of them with a failure *)
    unfold orderly in *. rewrite E in Hw. simpl. split; [done|]. by left.
  - (* the callbacks have settled, the next layer is up *)
    unfold orderly in Hw. rewrite E in Hw. by apply orderly_loop_head.
Qed.

Lemma orderly_run ls w w' : orderly w → run ls w = Some w' → orderly w'.
Proof.
  revert w. induction ls as [|l ls IH]; intros w Hw Hrun; simpl in Hrun.
  - by inversion Hrun; subst.
  - destruct (step l w) as [w1|] eqn:Hstep; [|done].
    eapply IH; [|exact Hrun]. by eapply orderly_step.
Qed.

Lemma orderly_traverseCatalog fields initial hn he :
  orderly (traverseCatalog (EdgeData := EdgeData) fields initial hn he).
Proof.
  destruct initial; simpl.
  - apply orderly_loop_head; [apply not_elem_of_nil|done|constructor].
  - apply orderly_loop_head; [apply not_elem_of_nil|done|constructor].
  - unfold orderly, untouched. simpl. split_and!; try done.
    by intros ?%list_elem_of_singleton.
Qed.

(** *** Layer by layer *)

Lemma rooted_mono (cs cs' : list (Call EdgeData Filter)) n :
  rooted cs n → rooted (cs ++ cs') n.
Proof.
  intros [H0|(m & Hm & Hd)]; [by left|]. right. exists m. split; [|done].
  rewrite followed_app, elem_of_app. by left.
Qed.

Lemma depths_snoc (P : InternalNode EdgeData → Prop) (ns : list (InternalNode EdgeData)) n d :
  StronglySorted Z.le (depth_of <$> ns) →
  Forall (λ m, (0 ≤ depth_of m ≤ d)%Z ∧ P m) ns →
  depth_of n = d →
  StronglySorted Z.le (depth_of <$> ns ++ [n]).
Proof.
  intros Hs Hns Hn. rewrite fmap_app. apply StronglySorted_app_2; [|done|].
  - intros x1 x2 (m & -> & Hm)%list_elem_of_fmap Hx2. simpl in Hx2.
    apply list_elem_of_singleton in Hx2 as ->.
    rewrite Forall_forall in Hns. destruct (Hns _ Hm) as [? _]. lia.
  - simpl. repeat constructor.
Qed.

Lemma same_ref_same_node (ns : list (InternalNode EdgeData)) n m :
  NoDup (ref_of <$> ns) → n ∈ ns → m ∈ ns → ref_of n = ref_of m → n = m.
Proof.
  induction ns as [|x ns IH]; simpl; [by intros _ ?%elem_of_nil|].
  intros [Hx Hnd]%NoDup_cons [->|Hn]%elem_of_cons [->|Hm]%elem_of_cons Href;
    [done| | |by apply IH].
  - exfalso. apply Hx. rewrite Href. by apply list_elem_of_fmap_2.
  - exfalso. apply Hx. rewrite <-Href. by apply list_elem_of_fmap_2.
Qed.

(** More calls, none of them to [follow.visitNode] or [collect.visitNode]. *)
Lemma layered_move d j current at0 at_ cs w w' :
  layered d w →
  currentLayer w !! j = Some (current, at0) →
  main w' = main w →
  nextLayer w' = nextLayer w →
  currentLayer w' = <[j := (current, at_)]> (currentLayer w) →
  calls w' = calls w ++ cs →
  collected cs = [] →
  (followed cs = [] ∧ at_ ≠ await_follow_visitNode) ∨ followed cs = [current] →
  layered d w'.
Proof.
  intros (Hd & Hmap & Hcur & Hnext & Hcol & Hfol & Hsc & Hsf) Hj Hm Hn Hl Hcalls Hcs Hfs.
  pose proof (proj1 (Forall_lookup _ _) Hcur _ _ Hj) as (Hdc & Hd0 & Hrc & Hfc).
  simpl in Hdc, Hd0, Hrc, Hfc.
  unfold layered, to_map. rewrite Hm, Hn, Hl, Hcalls, collected_app, Hcs, app_nil_r.
  split_and!; [done| | | | | |done|].
  - eapply Forall_impl; [exact Hmap|]. intros m (? & ? & ?).
    split_and!; [done|done|by apply rooted_mono].
  - apply Forall_insert.
    + eapply Forall_impl; [exact Hcur|]. intros [m a] (? & ? & ? & Hf). simpl in *.
      split_and!; [done|done|by apply rooted_mono|].
      intros Ha. rewrite followed_app, elem_of_app. left. by apply Hf.
    + simpl. split_and!; [done|done|by apply rooted_mono|].
      intros ->. destruct Hfs as [[_ ?]|Hfs]; [done|].
      rewrite followed_app, Hfs, elem_of_app, list_elem_of_singleton. by right.
  - eapply Forall_impl; [exact Hnext|]. intros m [? ?].
    split; [done|by apply rooted_mono].
  - eapply Forall_impl; [exact Hcol|]. intros m [? ?].
    split; [done|by apply rooted_mono].
  - rewrite followed_app. apply Forall_app. split.
    + eapply Forall_impl; [exact Hfol|]. intros m [? ?].
      split; [done|by apply rooted_mono].
    + destruct Hfs as [[-> _]| ->]; constructor; [|constructor].
      split; [lia|by apply rooted_mono].
  - rewrite followed_app. destruct Hfs as [[-> _]| ->]; [by rewrite app_nil_r|].
    by eapply depths_snoc.
Qed.

(** The next callback of the layer starts. *)
Lemma layered_enter d current rest thrown w :
  layered d w →
  main w = in_map (current :: rest) →
  layered d (set_main (map_from rest) (enter current thrown w)).
Proof.
  intros (Hd & Hmap & Hcur & Hnext & Hcol & Hfol & Hsc & Hsf) Hmain.
  unfold to_map in Hmap. rewrite Hmain in Hmap.
  apply Forall_cons in Hmap as ((Hdc & Hd0 & Hrc) & Hmap).
  destruct (enter_frame current thrown w)
    as (_ & Hn & _ & _ & _ & (cs & Hcs & _ & Hfs & Hcol') & (at_ & Hl & Hat)).
  unfold layered. cbn [nextLayer currentLayer calls set_main].
  rewrite Hn, Hl, Hcs, collected_app, followed_app, Hfs, app_nil_r.
  assert (to_map (set_main (map_from rest) (enter current thrown w)) = rest) as ->
    by by destruct rest.
  split_and!; [done| | | | | | |done].
  - eapply Forall_impl; [exact Hmap|]. intros m (? & ? & ?).
    split_and!; [done|done|by apply rooted_mono].
  - apply Forall_app. split.
    + eapply Forall_impl; [exact Hcur|]. intros [m a] (? & ? & ? & Ha). simpl in *.
      split_and!; [done|done|by apply rooted_mono|done].
    + constructor; [|constructor]. simpl.
      split_and!; [done|done|by apply rooted_mono|done].
  - eapply Forall_impl; [exact Hnext|]. intros m [? ?].
    split; [done|by apply rooted_mono].
  - apply Forall_app. split.
    + eapply Forall_impl; [exact Hcol|]. intros m [? ?].
      split; [done|by apply rooted_mono].
    + destruct Hcol' as [->| ->]; simpl; constructor; [|constructor].
      split; [lia|by apply rooted_mono].
  - eapply Forall_impl; [exact Hfol|]. intros m [? ?].
    split; [done|by apply rooted_mono].
  - destruct Hcol' as [->| ->]; simpl; [by rewrite app_nil_r|].
    by eapply depths_snoc.
Qed.

Lemma layered_loop_head d w :
  layered d w → ∃ d', layered d' (loop_head w).
Proof.
  intros (Hd & Hmap & Hcur & Hnext & Hcol & Hfol & Hsc & Hsf). unfold loop_head.
  destruct (nextLayer w) as [|n layer] eqn:Hn.
  - exists d. unfold layered, to_map. simpl. rewrite Hn, collected_app, followed_app.
    simpl. rewrite !app_nil_r. split_and!; try done.
    + eapply Forall_impl; [exact Hcur|]. intros [m a] (? & ? & ? & Ha). simpl in *.
      split_and!; [done|done|by apply rooted_mono|done].
    + eapply Forall_impl; [exact Hcol|]. intros m [? ?].
      split; [done|by apply rooted_mono].
    + eapply Forall_impl; [exact Hfol|]. intros m [? ?].
      split; [done|by apply rooted_mono].
  - exists (d + 1)%Z. unfold layered, to_map. simpl. split_and!; try done; try lia.
    + eapply Forall_impl; [exact Hnext|]. intros m [? ?]. split_and!; [done|lia|done].
    + eapply Forall_impl; [exact Hcol|]. intros m [? ?]. split; [lia|done].
    + eapply Forall_impl; [exact Hfol|]. intros m [? ?]. split; [lia|done].
Qed.

(** A call of [visit] in time is a call from the layer at hand. *)
Lemma in_time_depth d k current r ed w :
  once w → layered d w →
  followed (calls w) !! k = Some current →
  in_time (Entity := Entity) (follower_visits k r ed) w = true →
  depth_of current = d.
Proof.
  intros (_ & _ & Hnd & _) (_ & _ & Hcur & _) Hk Htime.
  unfold in_time in Htime. rewrite Hk in Htime.
  apply existsb_exists in Htime as ([m a] & Hin & Hc). simpl in Hc.
  apply andb_true_iff in Hc as [Href Ha]. apply String.eqb_eq in Href.
  destruct a; try discriminate Ha. clear Ha.
  apply list_elem_of_In in Hin. rewrite Forall_forall in Hcur.
  destruct (Hcur _ Hin) as (Hdm & _ & _ & Hf). simpl in Hdm, Hf.
  specialize (Hf eq_refl).
  rewrite fmap_app in Hnd. apply NoDup_app in Hnd as (Hnd & _).
  rewrite <-(same_ref_same_node _ m current Hnd Hf); [done| |done].
  by eapply list_elem_of_lookup_2.
Qed.

Lemma layered_step l w w' :
  orderly w → once w → (∃ d, layered d w) → in_time l w = true →
  step l w = Some w' → ∃ d, layered d w'.
Proof.
  intros Ho Hon [d Hw] Htime Hstep. step_cases Hstep;
    try (exists d; eapply layered_move;
         [exact Hw|eassumption|reflexivity|reflexivity|reflexivity
         |by rewrite app_nil_r|..];
         [reflexivity|by left]).
  - (* the catalog answers *)
    unfold orderly in Ho. rewrite E in Ho.
    destruct Ho as ((Hl & Hn & _ & Hc & Hf & _) & _).
    apply (layered_loop_head (-1)). unfold layered, to_map. simpl.
    rewrite E, Hl, Hc, Hf.
    split_and!; try done; try constructor.
    apply Forall_fmap, Forall_true. intros entity. simpl. split; [done|by left].
  - exists d. destruct Hw as (? & _ & ? & ? & ? & ? & ? & ?).
    unfold layered, to_map. simpl. by split_and!.
  - exists d. by apply layered_enter.
  - exists d. eapply layered_move;
      [exact Hw|eassumption|reflexivity|reflexivity|reflexivity|reflexivity
      |reflexivity|by right].
  - destruct (next_edge_shape j i (S i0) w)
      as (at_ & cs & -> & _ & Hat & _ & Hcs & Hfs & _).
    exists d. eapply layered_move;
      [exact Hw|eassumption|reflexivity|reflexivity|reflexivity|reflexivity
      |done|by left].
  - (* the follower puts a node forward *)
    pose proof (in_time_depth _ _ _ _ _ _ Hon Hw E Htime) as Hdi.
    destruct Hw as (Hd & Hmap & Hcur & Hnext & Hcol & Hfol & Hsc & Hsf).
    exists d. unfold layered. simpl. split_and!; try done.
    apply Forall_app. split; [done|]. constructor; [|constructor]. split.
    + unfold depth_of in *. simpl. lia.
    + right. exists i. split; [by eapply list_elem_of_lookup_2|done].
  - destruct (next_edge_shape j i 0 w)
      as (at_ & cs & -> & _ & Hat & _ & Hcs & Hfs & _).
    exists d. eapply layered_move;
      [exact Hw|eassumption|reflexivity|reflexivity|reflexivity|reflexivity
      |done|by left].
  - exists d. destruct Hw as (? & _ & ? & ? & ? & ? & ? & ?).
    unfold layered, to_map. simpl. by split_and!.
  - by eapply layered_loop_head.
Qed.

Lemma layered_traverseCatalog fields initial hn he :
  ∃ d, layered d (traverseCatalog (EdgeData := EdgeData) fields initial hn he).
Proof.
  destruct initial; simpl.
  - apply (layered_loop_head (-1)). unfold layered, to_map. simpl.
    split_and!; try done; repeat constructor.
  - apply (layered_loop_head (-1)). unfold layered, to_map. simpl.
    split_and!; try done; try constructor.
    apply Forall_fmap, Forall_true. intros r. simpl. split; [done|by left].
  - exists (-1)%Z. unfold layered, to_map. simpl. split_and!; try done; constructor.
Qed.

Lemma traverse_invariants fields initial hn he ls w :
  run ls (traverseCatalog fields initial hn he) = Some w →
  timely stringifyEntityRef ls (traverseCatalog fields initial hn he) = true →
  ∃ d, layered d w.
Proof.
  pose proof (orderly_traverseCatalog fields initial hn he) as Ho.
  pose proof (once_traverseCatalog fields initial hn he) as Hon.
  pose proof (layered_traverseCatalog fields initial hn he) as Hl.
  revert Ho Hon Hl.
  generalize (traverseCatalog (EdgeData := EdgeData) fields initial hn he).
  induction ls as [|l ls IH]; intros w0 Ho Hon Hl Hrun Htime; simpl in Hrun, Htime.
  - by inversion Hrun; subst.
  - destruct (step l w0) as [w1|] eqn:Hstep; [|done].
    apply andb_true_iff in Htime as [Hl0 Htime].
    eapply IH; [| | |exact Hrun|exact Htime];
      [by eapply orderly_step|by eapply once_step|by eapply layered_step].
Qed.

(** X16.  A traversal goes breadth first, as long as the follower calls
    [visit] in time, that is while the callback that handed it the closure
    waits for it.  The nodes handed to [collect.visitNode] then come in
    ascending order of depth, and so do those handed to [follow.visitNode];
    each of them is at depth 0, or one step below a node that was handed to
    the follower. *)
Theorem traversal_is_breadth_first fields initial hn he ls w :
  run ls (traverseCatalog fields initial hn he) = Some w →
  timely stringifyEntityRef ls (traverseCatalog fields initial hn he) = true →
  StronglySorted Z.le (depth_of <$> collected (calls w)) ∧
  StronglySorted Z.le (depth_of <$> followed (calls w)) ∧
  ∀ n, n ∈ collected (calls w) ∨ n ∈ followed (calls w) →
       depth_of n = 0%Z ∨
       ∃ m, m ∈ followed (calls w) ∧ depth_of n = (depth_of m + 1)%Z.
Proof.
  intros Hrun Htime.
  destruct (traverse_invariants _ _ _ _ _ _ Hrun Htime)
    as (d & (Hd & Hmap & Hcur & Hnext & Hcol & Hfol & Hsc & Hsf)).
  split_and!; [done..|]. rewrite Forall_forall in Hcol, Hfol.
  intros n [Hn|Hn]; [by apply Hcol|by apply Hfol].
Qed.

(** A call of [visit] that comes late puts its node in a layer further
    down than its depth says: here the collector is handed nodes at depths
    0, 1, 2 and 1, in this order. *)
Example a_late_visit_is_out_of_order :
  Traverse.run id Cases.late_visit Cases.from_web = Some Cases.visited_late ∧
  timely id Cases.late_visit Cases.from_web = false ∧
  depth_of <$> collected (calls Cases.visited_late) = [0; 1; 2; 1]%Z.
Proof. vm_compute. done. Qed.

(** *** What a traversal reaches *)

Lemma enter_visited current thrown w r :
  r ∈ visitedNodes (enter current thrown w) ↔ r ∈ visitedNodes w ∨ r = ref_of current.
Proof.
  unfold enter. destruct (decide (_ ∈ visitedNodes w)) as [Hin|Hin]; simpl.
  - split; [tauto|]. intros [?| ->]; done.
  - destruct (if has_visitNode w then thrown else None); simpl;
      by rewrite elem_of_union, elem_of_singleton.
Qed.

Lemma pointed_loop_head refs w :
  mapping w = false → pointed refs w → pointed refs (loop_head w).
Proof.
  unfold pointed, loop_head, mapping, to_map. intros Hmap Hw r. rewrite Hw.
  destruct (nextLayer w) as [|n layer] eqn:Hn; simpl.
  - rewrite Hn. destruct (main w); try done; simpl; tauto.
  - destruct (main w); try done; simpl; rewrite !elem_of_nil; tauto.
Qed.

Lemma accounted_enter current thrown w : accounted w → accounted (enter current thrown w).
Proof.
  intros [Hf Hc]. split.
  - intros r [Hr| ->]%enter_visited.
    + destruct (enter_frame current thrown w)
        as (_ & _ & _ & _ & _ & (cs & -> & _) & (at_ & -> & _)).
      destruct (Hf r Hr) as [Hr'|(j & n & a & Hj & ? & ?)].
      * left. by rewrite followed_app, fmap_app, elem_of_app; left.
      * right. exists j, n, a. split_and!; [|done..]. by apply lookup_app_l_Some.
    + unfold enter. destruct (decide (_ ∈ visitedNodes w)) as [Hin|Hin]; simpl.
      * destruct (Hf _ Hin) as [?|(j & n & a & Hj & ? & ?)]; [by left|].
        right. exists j, n, a. split_and!; [|done..]. by apply lookup_app_l_Some.
      * right. exists (length (currentLayer w)), current.
        destruct (if has_visitNode w then thrown else None) as [e|]; simpl.
        -- exists (rejected_with e).
           split_and!; [by apply list_lookup_middle|done|right; by exists e].
        -- exists await_collect_visitNode.
           split_and!; [by apply list_lookup_middle|done|by left].
  - destruct (enter_frame current thrown w) as (_ & _ & -> & _).
    intros Hn r [Hr| ->]%enter_visited.
    + destruct (enter_frame current thrown w)
        as (_ & _ & _ & _ & _ & (cs & -> & _) & _).
      rewrite collected_app, fmap_app, elem_of_app. left. by apply Hc.
    + unfold enter. destruct (decide (_ ∈ visitedNodes w)) as [Hin|Hin]; simpl.
      * by apply Hc.
      * rewrite Hn. destruct thrown; simpl;
          rewrite collected_app, fmap_app, elem_of_app; right;
          by apply list_elem_of_singleton.
Qed.

Lemma accounted_loop_head w :
  accounted w → all_finished w → accounted (loop_head w).
Proof.
  intros [Hf Hc] Hfin. unfold loop_head.
  destruct (nextLayer w) as [|n layer] eqn:Hn.
  - split; simpl.
    + intros r Hr. destruct (Hf r Hr) as [Hr'|?]; [|by right].
      left. by rewrite followed_app, fmap_app, elem_of_app; left.
    + intros Hv r Hr. rewrite collected_app, fmap_app, elem_of_app. left.
      by apply Hc.
  - split; simpl; [|done].
    intros r Hr. destruct (Hf r Hr) as [?|(j & m & at_ & Hj & _ & Hat)]; [by left|].
    unfold all_finished in Hfin. rewrite Forall_lookup in Hfin.
    specialize (Hfin _ _ Hj). simpl in Hfin. subst at_.
    by destruct Hat as [?|[? ?]].
Qed.

(** A callback moves on from an [await]. *)
Lemma accounted_move j current at0 at_ cs w w' :
  accounted w →
  currentLayer w !! j = Some (current, at0) →
  (∀ e, at0 ≠ rejected_with e) →
  has_visitNode w' = has_visitNode w →
  visitedNodes w' = visitedNodes w →
  currentLayer w' = <[j := (current, at_)]> (currentLayer w) →
  calls w' = calls w ++ cs →
  (at0 = await_collect_visitNode →
   followed cs = [current] ∨ ∃ e, at_ = rejected_with e) →
  accounted w'.
Proof.
  intros [Hf Hc] Hj Hat0 Hhn Hv Hl Hcalls Hmove. split.
  - rewrite Hv, Hl, Hcalls, followed_app, fmap_app. intros r Hr.
    destruct (Hf r Hr) as [Hr'|(j' & n & a & Hj' & Hn & Ha)].
    { left. apply elem_of_app. by left. }
    destruct (decide (j' = j)) as [->|Hne].
    + rewrite Hj in Hj'. inversion Hj'; subst n a. clear Hj'.
      destruct Ha as [->|[e ->]]; [|by destruct (Hat0 e)].
      destruct (Hmove eq_refl) as [->|[e ->]].
      * left. apply elem_of_app. right. simpl. by apply list_elem_of_singleton.
      * right. exists j, current, (rejected_with e). split_and!; [|done|by right; exists e].
        apply list_lookup_insert_eq. by eapply lookup_lt_Some.
    + right. exists j', n, a. split_and!; [|done..].
      by rewrite list_lookup_insert_ne.
  - rewrite Hhn, Hv, Hcalls, collected_app, fmap_app. intros Hn r Hr.
    apply elem_of_app. left. by apply Hc.
Qed.

Lemma accounted_step l w w' :
  orderly w → accounted w → step l w = Some w' → accounted w'.
Proof.
  intros Ho Hw Hstep. step_cases Hstep;
    try (eapply accounted_move;
         [exact Hw|eassumption|done|reflexivity|reflexivity|reflexivity
         |by rewrite app_nil_r|]; first [done | by right; eexists]).
  - (* the catalog answers *)
    unfold orderly in Ho. rewrite E in Ho.
    destruct Ho as ((Hl & _) & _).
    apply accounted_loop_head; [exact Hw|]. unfold all_finished. simpl.
    rewrite Hl. constructor.
  - exact Hw.
  - exact (accounted_enter _ _ _ Hw).
  - eapply accounted_move;
      [exact Hw|eassumption|done|reflexivity|reflexivity|reflexivity
      |reflexivity|by left].
  - destruct (next_edge_shape j i (S i0) w)
      as (at_ & cs & -> & _ & _ & _ & _ & _ & _).
    eapply accounted_move;
      [exact Hw|eassumption|done|reflexivity|reflexivity|reflexivity
      |reflexivity|done].
  - exact Hw.
  - destruct (next_edge_shape j i 0 w)
      as (at_ & cs & -> & _ & _ & _ & _ & _ & _).
    eapply accounted_move;
      [exact Hw|eassumption|done|reflexivity|reflexivity|reflexivity
      |reflexivity|done].
  - exact Hw.
  - by apply accounted_loop_head.
Qed.

(** A step that leaves alone what [pointed] looks at. *)
Lemma pointed_frame refs w w' :
  pointed refs w →
  visitedNodes w' = visitedNodes w → to_map w' = to_map w →
  nextLayer w' = nextLayer w →
  pointed refs w'.
Proof. unfold pointed. by intros Hw -> -> ->. Qed.

Lemma pointed_step refs l w w' :
  orderly w → pointed refs w → step l w = Some w' →
  pointed (refs ++ named stringifyEntityRef l) w'.
Proof.
  intros Ho Hw Hstep. step_cases Hstep; simpl; rewrite ?app_nil_r;
    try (eapply pointed_frame; [exact Hw|try reflexivity..];
         unfold to_map, mapping in *; simpl; by destruct (main w)).
  - (* the catalog answers *)
    apply pointed_loop_head; [unfold mapping; simpl; by rewrite E|].
    intros r. rewrite elem_of_app, (Hw r). unfold to_map. simpl. rewrite E. simpl.
    rewrite <-list_fmap_compose. unfold ref_of, compose. simpl.
    unfold orderly in Ho. rewrite E in Ho. destruct Ho as ((_ & -> & _) & _).
    simpl. rewrite !elem_of_nil. tauto.
  - (* the next callback starts *)
    intros r. rewrite (Hw r). cbn [visitedNodes nextLayer set_main].
    assert (to_map (set_main (map_from l) (enter i thrown w)) = l) as ->
      by by destruct l.
    destruct (enter_frame i thrown w) as (_ & -> & _).
    rewrite enter_visited. unfold to_map. rewrite E. rewrite fmap_cons, elem_of_cons.
    tauto.
  - destruct (next_edge_frame j i (S i0) w) as (Hm & _ & Hn & Hv).
    eapply pointed_frame; [exact Hw|done| |done]. unfold to_map. by rewrite Hm.
  - (* the follower puts a node forward *)
    intros r. rewrite elem_of_app, (Hw r). simpl.
    rewrite fmap_app, elem_of_app. simpl. unfold ref_of at 4. simpl.
    unfold to_map. simpl. tauto.
  - destruct (next_edge_frame j i 0 w) as (Hm & _ & Hn & Hv).
    eapply pointed_frame; [exact Hw|done| |done]. unfold to_map. by rewrite Hm.
  - (* the callbacks have settled, the next layer is up *)
    apply pointed_loop_head; [unfold mapping; by rewrite E|done].
Qed.

Lemma loop_head_has_visitNode w :
  has_visitNode (loop_head w) = has_visitNode w.
Proof. unfold loop_head. by destruct (nextLayer w) as [|n layer]. Qed.

Lemma step_has_visitNode l w w' :
  step l w = Some w' → has_visitNode w' = has_visitNode w.
Proof.
  intros Hstep. step_cases Hstep; try done;
    try (unfold next_edge; by destruct (nextLayer w !! _));
    try by rewrite loop_head_has_visitNode.
  destruct (enter_frame i thrown w) as (_ & _ & Hhn & _). exact Hhn.
Qed.

(** What holds of every state of a traversal. *)
Lemma traverse_reach fields initial hn he ls w :
  run ls (traverseCatalog fields initial hn he) = Some w →
  has_visitNode w = hn ∧ orderly w ∧ once w ∧ accounted w ∧
  pointed (asked stringifyEntityRef initial ls) w.
Proof.
  unfold asked.
  assert (has_visitNode (traverseCatalog (EdgeData := EdgeData) fields initial hn he)
          = hn) as Hhn.
  { destruct initial; simpl; try done; by rewrite loop_head_has_visitNode. }
  assert (accounted (traverseCatalog (EdgeData := EdgeData) fields initial hn he))
    as Ha.
  { assert (accounted (Traverse.empty (EdgeData := EdgeData) (Filter := Filter) hn he))
      as He by (split; simpl; intros; set_unfold; done).
    destruct initial; simpl; [| |done];
      (apply accounted_loop_head; [exact He|constructor]). }
  assert (pointed
            match initial with
            | initial_entityRef entityRef => [entityRef]
            | initial_entityRefs entityRefs => entityRefs
            | initial_filter _ => []
            end
            (traverseCatalog (EdgeData := EdgeData) fields initial hn he)) as Hp.
  { destruct initial; simpl.
    - apply pointed_loop_head; [done|]. intros r. unfold to_map. simpl.
      rewrite !elem_of_nil, elem_of_empty. tauto.
    - apply pointed_loop_head; [done|]. intros r. unfold to_map. simpl.
      rewrite <-list_fmap_compose. unfold ref_of, compose. simpl.
      rewrite list_fmap_id, !elem_of_nil, elem_of_empty. tauto.
    - intros r. unfold to_map. simpl. rewrite !elem_of_nil, elem_of_empty. tauto. }
  pose proof (orderly_traverseCatalog fields initial hn he) as Ho.
  pose proof (once_traverseCatalog fields initial hn he) as Hon.
  revert Hhn Ho Hon Ha Hp.
  generalize (traverseCatalog (EdgeData := EdgeData) fields initial hn he).
  generalize (match initial with
              | initial_entityRef entityRef => [entityRef]
              | initial_entityRefs entityRefs => entityRefs
              | initial_filter _ => []
              end).
  clear fields initial.
  induction ls as [|l ls IH]; intros refs w0 Hhn Ho Hon Ha Hp Hrun; simpl in Hrun.
  - inversion Hrun; subst. simpl. by rewrite app_nil_r.
  - destruct (step l w0) as [w1|] eqn:Hstep; [|done].
    simpl. rewrite app_assoc. eapply IH; [| | | | |exact Hrun].
    + by rewrite (step_has_visitNode _ _ _ Hstep).
    + by eapply orderly_step.
    + by eapply once_step.
    + by eapply accounted_step.
    + by eapply pointed_step.
Qed.

(** What has happened when [traverseCatalog] returns. *)
Lemma at_return fields initial hn he ls w :
  run ls (traverseCatalog fields initial hn he) = Some w →
  main w = returned →
  nextLayer w = [] →
  (∀ r, r ∈ asked stringifyEntityRef initial ls ↔ r ∈ ref_of <$> followed (calls w)) ∧
  (hn = true →
   ∀ r, r ∈ asked stringifyEntityRef initial ls ↔ r ∈ ref_of <$> collected (calls w)).
Proof.
  intros Hrun Hmain Hnext.
  apply traverse_reach in Hrun as (Hhn & Ho & Hon & [Haf Hac] & Hp).
  unfold orderly in Ho. rewrite Hmain in Ho.
  destruct Ho as (Hfin & Hrej & Hcalls).
  destruct Hon as (_ & Hcv & _ & Hfv).
  unfold all_finished in Hfin. rewrite Forall_lookup in Hfin.
  assert (∀ r, r ∈ asked stringifyEntityRef initial ls ↔ r ∈ visitedNodes w) as Hv.
  { intros r. rewrite (Hp r), Hnext. unfold to_map. rewrite Hmain. simpl.
    rewrite !elem_of_nil. tauto. }
  split.
  - intros r. rewrite Hv. split.
    + intros Hr. destruct (Haf r Hr) as [?|(j & n & at_ & Hj & _ & Hat)]; [done|].
      specialize (Hfin _ _ Hj). simpl in Hfin. subst at_.
      by destruct Hat as [?|[? ?]].
    + intros (n & -> & Hn)%list_elem_of_fmap. apply Hfv, elem_of_app. by left.
  - intros -> r. rewrite Hv. split.
    + by apply Hac.
    + intros (n & -> & Hn)%list_elem_of_fmap. by apply Hcv.
Qed.

Lemma loop_head_returned w :
  main (loop_head w) = returned → nextLayer (loop_head w) = [].
Proof.
  unfold loop_head. destruct (nextLayer w) eqn:Hn; simpl; [by rewrite Hn|done].
Qed.

(** The step on which [traverseCatalog] returns leaves no node to visit. *)
Lemma returns_with_nothing_left l w w' :
  step l w = Some w' → main w ≠ returned → main w' = returned → nextLayer w' = [].
Proof.
  intros Hstep Hw Hw'. step_cases Hstep;
    try (by apply loop_head_returned); simpl in *; try done;
    try (destruct (next_edge_frame j i 0 w) as (Hm & _); congruence);
    try (destruct (next_edge_frame j i (S i0) w) as (Hm & _); congruence).
  by destruct l.
Qed.

(** After the return only [visit] can still be called, to no effect on
    the calls made. *)
Lemma after_return l w w' :
  orderly w → main w = returned → step l w = Some w' →
  is_visit l ∧ main w' = returned ∧ calls w' = calls w ∧ orderly w'.
Proof.
  intros Ho Hmain Hstep. pose proof (orderly_step _ _ _ Ho Hstep) as Ho'.
  unfold orderly in Ho. rewrite Hmain in Ho. destruct Ho as (Hfin & _).
  unfold all_finished in Hfin. rewrite Forall_lookup in Hfin.
  step_cases Hstep;
    try match goal with Hj : currentLayer w !! _ = Some _ |- _ =>
          by specialize (Hfin _ _ Hj)
        end; try congruence.
  done.
Qed.

Lemma returned_at_once fields initial hn he :
  main (traverseCatalog (EdgeData := EdgeData) fields initial hn he) = returned →
  nextLayer (traverseCatalog (EdgeData := EdgeData) fields initial hn he) = [].
Proof. destruct initial as [r|[|r rs]|f]; simpl; done. Qed.

(** X17.  What a traversal has done when it returns.  At the moment of
    the return the entities handed to the follower are exactly those that
    the traversal was pointed to, by the initial set, by the catalog's
    answer and by the follower itself; the same holds of those handed to
    the collector, if it has a [visitNode].  [collect.complete] is the last
    call and the only one of its kind.  After the return nothing can happen
    but calls of [visit], and these bring no further call about: a run that
    has returned is a run up to the return, where no node is left to visit,
    and calls of [visit] from then on. *)
Theorem a_traversal_returns_when_all_is_followed fields initial hn he ls w :
  run ls (traverseCatalog fields initial hn he) = Some w →
  main w = returned →
  ∃ ls1 ls2 w1,
    ls = ls1 ++ ls2 ∧
    run ls1 (traverseCatalog fields initial hn he) = Some w1 ∧
    main w1 = returned ∧ nextLayer w1 = [] ∧
    Forall is_visit ls2 ∧ calls w = calls w1 ∧
    (∀ r, r ∈ asked stringifyEntityRef initial ls1 ↔
          r ∈ ref_of <$> followed (calls w)) ∧
    (hn = true →
     ∀ r, r ∈ asked stringifyEntityRef initial ls1 ↔
          r ∈ ref_of <$> collected (calls w)) ∧
    (∃ cs, calls w = cs ++ [collect_complete] ∧ collect_complete ∉ cs) ∧
    (∀ l w', step l w = Some w' →
             is_visit l ∧ main w' = returned ∧ calls w' = calls w).
Proof.
  intros Hrun Hmain.
  assert (orderly w) as Ho by by apply traverse_reach in Hrun as (_ & ? & _).
  assert (∀ l w', step l w = Some w' →
                  is_visit l ∧ main w' = returned ∧ calls w' = calls w) as Hafter.
  { intros l w' Hstep.
    by destruct (after_return _ _ _ Ho Hmain Hstep) as (? & ? & ? & _). }
  assert (∃ cs, calls w = cs ++ [collect_complete] ∧ collect_complete ∉ cs) as Hlast.
  { unfold orderly in Ho. rewrite Hmain in Ho. by destruct Ho as (_ & _ & ?). }
  clear Ho. revert w Hrun Hmain Hafter Hlast.
  induction ls as [|l ls IH] using rev_ind; intros w Hrun Hmain Hafter Hlast.
  - simpl in Hrun. inversion Hrun as [Hw]. subst w.
    pose proof (returned_at_once _ _ _ _ Hmain) as Hnext.
    destruct (at_return fields initial hn he [] _ eq_refl Hmain Hnext) as [Hf Hc].
    exists [], [], (traverseCatalog fields initial hn he).
    by split_and!.
  - rewrite traverse_run_snoc in Hrun.
    destruct (run ls (traverseCatalog fields initial hn he)) as [wp|] eqn:Hls;
      [|done].
    simpl in Hrun.
    assert (orderly wp) as Hop
      by by apply traverse_reach in Hls as (_ & ? & _).
    assert (main wp = returned ∨ main wp ≠ returned) as [Hret|Hret]
      by (destruct (main wp); auto).
    + destruct (after_return _ _ _ Hop Hret Hrun) as (Hl & _ & Hcalls & _).
      destruct (IH wp eq_refl Hret)
        as (ls1 & ls2 & w1 & -> & Hls1 & Hm1 & Hn1 & Hls2 & Hc1 & Hf & Hc & _).
      { intros l' w' Hstep.
        by destruct (after_return _ _ _ Hop Hret Hstep) as (? & ? & ? & _). }
      { unfold orderly in Hop. rewrite Hret in Hop. by destruct Hop as (_ & _ & ?). }
      exists ls1, (ls2 ++ [l]), w1. rewrite Hcalls.
      split_and!; try done.
      * by rewrite app_assoc.
      * apply Forall_app. split; [done|]. by constructor.
      * by rewrite <-Hcalls.
      * by rewrite <-Hcalls.
    + pose proof (returns_with_nothing_left _ _ _ Hrun Hret Hmain) as Hnext.
      assert (run (ls ++ [l]) (traverseCatalog fields initial hn he) = Some w)
        as Hfull by by rewrite traverse_run_snoc, Hls.
      destruct (at_return _ _ _ _ _ _ Hfull Hmain Hnext) as [Hf Hc].
      exists (ls ++ [l]), [], w. rewrite app_nil_r.
      by split_and!.
Qed.

Lemma fst_insert (layer : list (InternalNode EdgeData * Callback)) j current at0 at_ :
  layer !! j = Some (current, at0) →
  (<[j := (current, at_)]> layer).*1 = layer.*1.
Proof.
  intros Hj. rewrite list_fmap_insert. simpl. apply list_insert_id.
  by rewrite list_lookup_fmap, Hj.
Qed.

(** A step of a traversal of which a callback has failed. *)
Lemma failed_step l w w' e :
  orderly w → rejection w = Some e → step l w = Some w' →
  rejection w' = Some e ∧
  (currentLayer w').*1 ++ to_map w' = (currentLayer w).*1 ++ to_map w ∧
  ∃ more, collected (calls w') = collected (calls w) ++ more ∧
          sublist (more ++ to_map w') (to_map w).
Proof.
  intros Ho Hrej Hstep.
  assert (∀ w1, rejection w1 = Some e → to_map w1 = to_map w →
                (currentLayer w1).*1 = (currentLayer w).*1 →
                collected (calls w1) = collected (calls w) →
                rejection w1 = Some e ∧
                (currentLayer w1).*1 ++ to_map w1 = (currentLayer w).*1 ++ to_map w ∧
                ∃ more, collected (calls w1) = collected (calls w) ++ more ∧
                        sublist (more ++ to_map w1) (to_map w)) as Hsame.
  { intros w1 ? -> -> ->. split_and!; [done..|]. exists []. by rewrite app_nil_r. }
  assert (∀ j current at0 at_ cs,
            currentLayer w !! j = Some (current, at0) → collected cs = [] →
            let w1 := set_callback j current at_ (add_calls cs w) in
            rejection w1 = Some e ∧
            (currentLayer w1).*1 ++ to_map w1 = (currentLayer w).*1 ++ to_map w ∧
            ∃ more, collected (calls w1) = collected (calls w) ++ more ∧
                    sublist (more ++ to_map w1) (to_map w)) as Hmove.
  { intros j current at0 at_ cs Hj Hcs. apply Hsame; simpl; [done|done| |].
    - by eapply fst_insert.
    - by rewrite collected_app, Hcs, app_nil_r. }
  assert (∀ j current at0 e',
            currentLayer w !! j = Some (current, at0) →
            let w1 := reject j current e' w in
            rejection w1 = Some e ∧
            (currentLayer w1).*1 ++ to_map w1 = (currentLayer w).*1 ++ to_map w ∧
            ∃ more, collected (calls w1) = collected (calls w) ++ more ∧
                    sublist (more ++ to_map w1) (to_map w)) as Hreject.
  { intros j current at0 e' Hj. apply Hsame; simpl; [|done| |done].
    - unfold first_rejection. by rewrite Hrej.
    - by eapply fst_insert. }
  step_cases Hstep; try (by eapply Hreject); try (by eapply Hmove).
  - unfold orderly in Ho. rewrite E in Ho.
    destruct Ho as ((_ & _ & _ & _ & _ & ?) & _). congruence.
  - unfold orderly in Ho. rewrite E in Ho.
    destruct Ho as ((_ & _ & _ & _ & _ & ?) & _). congruence.
  - (* the next callback starts *)
    destruct (enter_frame i thrown w)
      as (_ & _ & _ & _ & Hr & (cs & Hcs & _ & _ & Hcol) & (at_ & Hl & _)).
    cbn [rejection currentLayer calls set_main].
    assert (to_map (set_main (map_from l) (enter i thrown w)) = l) as ->
      by by destruct l.
    unfold to_map. rewrite E, Hl, Hcs, collected_app, fmap_app, <-app_assoc.
    split_and!; [|done|].
    + destruct Hr as [->|[e' ->]]; [done|]. unfold first_rejection. by rewrite Hrej.
    + exists (collected cs). split; [done|].
      destruct Hcol as [->| ->]; simpl; [by apply sublist_cons|done].
  - destruct (next_edge_shape j i (S i0) w) as (at_ & cs & -> & _ & _ & _ & Hcs & _).
    by eapply Hmove.
  - by apply Hsame.
  - destruct (next_edge_shape j i 0 w) as (at_ & cs & -> & _ & _ & _ & Hcs & _).
    by eapply Hmove.
  - apply Hsame; [simpl; congruence| |reflexivity|reflexivity].
    unfold to_map. simpl. by rewrite E.
  - congruence.
Qed.

(** X18.  Once a callback of a traversal has failed, the traversal cannot
    but fail, and with that first error: it is still in the layer at hand,
    starting its callbacks or waiting for them, or it has thrown that error.
    No result is asked of the collector and no further layer is begun,
    whatever the other callbacks go on to do; the only nodes still handed to
    the collector are nodes of the layer at hand whose callbacks had not
    started when the failure came, which is when [collect.visitNode] threw
    rather than returned a promise that rejects. *)
Theorem a_failed_callback_fails_the_traversal fields initial hn he ls w e ls' w' :
  run ls (traverseCatalog fields initial hn he) = Some w →
  rejection w = Some e →
  run ls' w = Some w' →
  rejection w' = Some e ∧
  ((∃ rest, main w' = in_map rest) ∨ main w' = await_all ∨ main w' = threw e) ∧
  (collect_complete ∉ calls w') ∧
  (currentLayer w').*1 ++ to_map w' = (currentLayer w).*1 ++ to_map w ∧
  ∃ more, collected (calls w') = collected (calls w) ++ more ∧
          sublist more (to_map w).
Proof.
  intros Hrun Hrej Hrun'.
  apply traverse_reach in Hrun as (_ & Ho & _). clear fields initial hn he ls.
  revert w Ho Hrej Hrun'. induction ls' as [|l ls' IH]; intros w Ho Hrej Hrun';
    simpl in Hrun'.
  - inversion Hrun' as [Hw]; subst w'.
    split_and!;
      [done| | |done|exists []; split; [by rewrite app_nil_r|apply sublist_nil_l]];
      unfold orderly in Ho; destruct (main w) as [|rest| | |e0].
    + destruct Ho as ((_ & _ & _ & _ & _ & ?) & _). congruence.
    + left. by exists rest.
    + right. by left.
    + destruct Ho as (_ & ? & _). congruence.
    + right. right. destruct Ho as (_ & [?|[? _]]); congruence.
    + by destruct Ho as (_ & ?).
    + done.
    + done.
    + destruct Ho as (_ & ? & _). congruence.
    + by destruct Ho as (? & _).
  - destruct (step l w) as [w1|] eqn:Hstep; [|done].
    destruct (failed_step _ _ _ _ Ho Hrej Hstep)
      as (Hrej1 & Hlayer1 & more1 & Hcol1 & Hsub1).
    destruct (IH w1) as (Hrej' & Hmain' & Hcc' & Hlayer' & more & Hcol' & Hsub');
      [by eapply orderly_step|done|done|].
    split_and!; [done|done|done|congruence|].
    exists (more1 ++ more). split; [by rewrite Hcol', Hcol1, app_assoc|].
    etrans; [|exact Hsub1]. by apply sublist_app.
Qed.

(** X19.  A traversal that collects with [toEntityRefArray] (missing
    entities included, the default): the array lists the entities that were
    visited at a depth within the bounds, in the order in which they were
    visited. *)
Theorem a_traversal_collects_refs_in_visiting_order
    fields initial he ls w options cl c :
  run ls (traverseCatalog fields initial true he) = Some w →
  nodes_of cl = node <$> collected (calls w) →
  Collect.run cl (Collect.toEntityRefArray (Entity := Entity) options) = Some c →
  options ≫= RefOptions.includeMissing ≠ Some false →
  let lo := default 0%Z (options ≫= RefOptions.minDepth) in
  let hi := default 100%Z (options ≫= RefOptions.maxDepth) in
  Collect.complete c =
    TraverseCatalogNode.entityRef
      <$> filter (in_window lo hi) (node <$> collected (calls w)).
Proof.
  intros Hrun Hnodes Hc Hinc lo hi.
  apply traverse_reach in Hrun as (_ & _ & (Hnd & _) & _).
  apply ref_array_run in Hc.
  - unfold Collect.complete. rewrite Hc. unfold window_refs. simpl.
    fold lo hi. rewrite Hnodes.
    apply (foldl_set_add_fresh []). simpl.
    eapply sublist_NoDup; [exact Hnd|].
    change ref_of with (TraverseCatalogNode.entityRef ∘ node (EdgeData := EdgeData)).
    rewrite (list_fmap_compose node TraverseCatalogNode.entityRef).
    apply fmap_sublist, sublist_filter.
  - unfold Collect.toEntityRefArray, Collect.collectNodes. simpl.
    destruct options as [[? ? [[|]|]]|]; simpl in *; done.
  - done.
  - simpl. intros x. by rewrite elem_of_empty, elem_of_nil.
Qed.

End TraverseFacts.

(** * The further properties at work *)

Lemma dispatch_releases_every_waiter_witness :
  ∃ w',
    Broker.step (Broker.resumes 1) Cases.dispatch_answered = Some w' ∧
    Broker.jobs w' =
      <[1 := Broker.dispatch_returned (DispatchResult.mk "T1")]>
        (Broker.jobs Cases.dispatch_answered) ∧
    Broker.storage w' = Broker.storage Cases.dispatch_answered ∧
    Broker.resolved w' =
      Broker.deferredDispatch Cases.dispatch_answered
        :: Broker.resolved Cases.dispatch_answered ∧
    (Claimed.reachable Cases.dispatch_answered →
     Broker.deferredDispatch w' ∉ Broker.resolved w') ∧
    ∀ j,
      Broker.jobs Cases.dispatch_answered !! j =
        Some (Broker.claim_await_dispatch
                (Broker.deferredDispatch Cases.dispatch_answered)) →
      ∃ w'',
        Broker.step (Broker.resumes j) w' = Some w'' ∧
        Broker.jobs w'' !! j =
          Some (Broker.claim_await_claimTask (sent call_claimTask)) ∧
        Broker.storage w'' = Broker.storage Cases.dispatch_answered.
Proof.
  exact (dispatch_releases_every_waiter Cases.dispatch_answered 1 "T1" eq_refl).
Defined.

Lemma dispatched_task_reaches_the_waiter_witness :
  ∃ w',
    Broker.run
      [Broker.calls_dispatch Scenario.two_steps; Broker.store_answers 1;
       Broker.resumes 1; Broker.resumes 0; Broker.store_answers 0;
       Broker.resumes 0] Cases.waiting = Some w' ∧
    Broker.jobs w' !! 1 = Some (Broker.dispatch_returned (DispatchResult.mk "T1")) ∧
    Broker.jobs w' !! 0 = Some (Broker.claim_returned 0) ∧
    Broker.agents w' !! 0 =
      Some (TaskAgent.mk (TaskState.mk Scenario.two_steps "T1" (Some "R1")) (Some 0)) ∧
    Further.none_open (Broker.storage w').
Proof.
  exact (dispatched_task_reaches_the_waiter Cases.waiting 0 Scenario.two_steps
           eq_refl (Forall_nil_2 _)).
Defined.


Lemma heartbeat_guard_never_trips_witness :
  Broker.uncaught Scenario.running = [] ∧
  ∀ h w',
    Broker.step (Broker.interval_fires h) Scenario.running = Some w' →
    ∃ a agent r,
      Broker.intervals Scenario.running !! h = Some (Broker.interval a true) ∧
      Broker.agents Scenario.running !! a = Some agent ∧
      TaskState.runId (TaskAgent.state agent) = Some r ∧
      w' = Broker.add_job (Broker.unawaited (sent (call_heartbeat r))) Scenario.running.
Proof.
  apply (heartbeat_guard_never_trips Scenario.running).
  exists Store.empty, Scenario.dispatched_and_claimed. vm_compute; reflexivity.
Defined.

Lemma complete_twice_completes_twice_witness :
  ∃ w',
    Broker.run
      ([Broker.calls_complete 0 result_failed; Broker.store_answers 2;
        Broker.resumes 2; Broker.store_answers 3] ++
       [Broker.calls_complete 0 result_completed; Broker.store_answers 4;
        Broker.resumes 4; Broker.store_answers 5]) Scenario.running = Some w' ∧
    Further.completions (Broker.storage w') =
      Further.completions (Broker.storage Scenario.running) ++
      [(Some "R1", "Run completed with status: failed");
       (Some "R1", "Run completed with status: completed")] ∧
    (∀ r, Some "R1" = Some r →
       Forall (λ row, DbTaskRow.runId row = Some r →
                      DbTaskRow.status row = TaskAgent.complete_status result_completed)
         (Store.tasks (Broker.storage w'))) ∧
    Broker.agents w' = Broker.agents Scenario.running.
Proof.
  exact (complete_twice_completes_twice Scenario.running 0
           (TaskAgent.mk (TaskState.mk Scenario.two_steps "T1" (Some "R1")) (Some 0))
           result_failed result_completed eq_refl).
Defined.

Lemma batches_follow_the_cursor_witness :
  Observe.taskId Cases.polled = "T1" ∧
  Claimed.in_rounds (Observe.invocations Cases.polled) ∧
  Claimed.delivered Cases.polled `prefix_of` Further.wanted (Some 0%Z) Cases.polled ∧
  Claimed.ascending (Claimed.delivered Cases.polled) ∧
  Observe.after Cases.polled =
    Further.cursor_from (Some 0%Z) (Claimed.delivered Cases.polled) ∧
  (Further.wanted (Some 0%Z) Cases.polled = [] → Observe.invocations Cases.polled = []) ∧
  ∀ c,
    Observe.loop Cases.polled = Observe.await_getEvents (sent c) →
    ∃ w',
      Observe.run Scenario.accepts [Observe.store_answers; Observe.resumes] Cases.polled
        = Some w' ∧
      Claimed.delivered w' = Further.wanted (Some 0%Z) w'.
Proof.
  exact (batches_follow_the_cursor Scenario.accepts Scenario.two_events
           Scenario.from_zero tt [Observe.store_answers; Observe.resumes] Cases.polled
           (numbered_emit _ _ numbered_one_event) eq_refl).
Defined.

Lemma cancelled_loop_winds_down_witness :
  ∃ w',
    Observe.run Scenario.accepts
      [Observe.store_answers; Observe.resumes; Observe.delay_elapsed]
      Cases.unsubscribed = Some w' ∧
    (length (filter (H := Further.loop_step_dec) Further.loop_step
               [Observe.store_answers; Observe.resumes; Observe.delay_elapsed])
       ≤ Further.steps_left Cases.unsubscribed)%nat ∧
    (Observe.delay_elapsed
       ∈ [Observe.store_answers; Observe.resumes; Observe.delay_elapsed] →
     Observe.loop w' = Observe.returned).
Proof.
  eexists. split; [vm_compute; reflexivity|].
  apply (cancelled_loop_winds_down Scenario.accepts
           [Observe.store_answers; Observe.resumes; Observe.delay_elapsed]
           Cases.unsubscribed);
    [reflexivity | vm_compute; reflexivity].
Defined.

Lemma seenRefs_are_the_refs_in_the_window_witness :
  ∃ c',
    Collect.run Cases.visits_only (Collect.toEntityArray None) = Some c' ∧
    ∀ ref,
      ref ∈ Collect.seenRefs c' ↔
      ref ∈ Collect.seenRefs (Collect.toEntityArray (Entity := string) None) ∨
      ∃ node,
        node ∈ Further.nodes_of Cases.visits_only ∧
        TraverseCatalogNode.entityRef node = ref ∧
        (0 ≤ TraverseCatalogNode.depth node ≤ 100)%Z.
Proof.
  eexists. split; [vm_compute; reflexivity|].
  apply (seenRefs_are_the_refs_in_the_window Cases.visits_only
           (Collect.toEntityArray None)).
  vm_compute; reflexivity.
Defined.

Lemma toEntityRefArray_keeps_first_visits_witness :
  ∃ c,
    Collect.run Cases.visits_only (Collect.toEntityRefArray Cases.from_depth_one)
      = Some c ∧
    Collect.complete c =
      Collect.insertion_order
        (TraverseCatalogNode.entityRef
           <$> filter (Further.in_window 1 100) (Further.nodes_of Cases.visits_only)) ∧
    NoDup (Collect.complete c).
Proof.
  eexists. split; [vm_compute; reflexivity|].
  apply (toEntityRefArray_keeps_first_visits Cases.from_depth_one Cases.visits_only);
    [discriminate | vm_compute; reflexivity].
Defined.

Lemma toEntityRefSet_holds_the_window_witness :
  ∃ c,
    Collect.run Cases.visits_only (Collect.toEntityRefSet Cases.from_depth_one)
      = Some c ∧
    ∀ ref,
      ref ∈ Collect.complete c ↔
      ∃ node,
        node ∈ Further.nodes_of Cases.visits_only ∧
        TraverseCatalogNode.entityRef node = ref ∧
        (1 ≤ TraverseCatalogNode.depth node ≤ 100)%Z.
Proof.
  eexists. split; [vm_compute; reflexivity|].
  apply (toEntityRefSet_holds_the_window Cases.from_depth_one Cases.visits_only);
    [discriminate | vm_compute; reflexivity].
Defined.

Lemma toEntityArray_keeps_the_loaded_entities_witness :
  ∃ c,
    Collect.run Cases.visits_and_loads (Collect.toEntityArray None) = Some c ∧
    Collect.complete c = Further.found Cases.visits_and_loads ∧
    (length (Collect.complete c) ≤
       length (Collect.insertion_order
                 (TraverseCatalogNode.entityRef
                    <$> filter (Further.in_window 0 100)
                          (Further.nodes_of Cases.visits_and_loads))))%nat.
Proof.
  eexists. split; [vm_compute; reflexivity|].
  apply (toEntityArray_keeps_the_loaded_entities None Cases.visits_and_loads).
  vm_compute; reflexivity.
Defined.

Lemma toEntityRefArray_leaves_out_the_missing_witness :
  ∃ c,
    Collect.run Cases.visits_and_loads (Collect.toEntityRefArray Cases.without_missing)
      = Some c ∧
    length (Collect.complete c) = length (Further.found Cases.visits_and_loads) ∧
    NoDup (Collect.complete c) ∧
    ∀ ref, ref ∈ Collect.complete c →
      ∃ node,
        node ∈ Further.nodes_of Cases.visits_and_loads ∧
        TraverseCatalogNode.entityRef node = ref ∧
        (0 ≤ TraverseCatalogNode.depth node ≤ 100)%Z.
Proof.
  eexists. split; [vm_compute; reflexivity|].
  apply (toEntityRefArray_leaves_out_the_missing Cases.without_missing
           Cases.visits_and_loads);
    [reflexivity | vm_compute; reflexivity].
Defined.
Lemma each_entity_is_visited_once_witness :
  NoDup (Further.ref_of <$> Further.collected (Traverse.calls Cases.traversed)) ∧
  NoDup (Further.ref_of <$> Further.followed (Traverse.calls Cases.traversed)).
Proof.
  apply (each_entity_is_visited_once id None
           (Traverse.initial_entityRef "component:default/web") true false
           (Cases.first_layer ++ Cases.second_layer)).
  vm_compute; reflexivity.
Defined.

Lemma traversal_is_breadth_first_witness :
  StronglySorted Z.le
    (Further.depth_of <$> Further.collected (Traverse.calls Cases.traversed)) ∧
  StronglySorted Z.le
    (Further.depth_of <$> Further.followed (Traverse.calls Cases.traversed)) ∧
  ∀ n,
    n ∈ Further.collected (Traverse.calls Cases.traversed) ∨
    n ∈ Further.followed (Traverse.calls Cases.traversed) →
    Further.depth_of n = 0%Z ∨
    ∃ m, m ∈ Further.followed (Traverse.calls Cases.traversed) ∧
         Further.depth_of n = (Further.depth_of m + 1)%Z.
Proof.
  apply (traversal_is_breadth_first id None
           (Traverse.initial_entityRef "component:default/web") true false
           (Cases.first_layer ++ Cases.second_layer));
    vm_compute; reflexivity.
Defined.

Lemma a_traversal_returns_when_all_is_followed_witness :
  ∃ ls1 ls2 w1,
    Cases.visit_after_return = ls1 ++ ls2 ∧
    Traverse.run id ls1 Cases.from_web = Some w1 ∧
    Traverse.main w1 = Traverse.returned ∧ Traverse.nextLayer w1 = [] ∧
    Forall Further.is_visit ls2 ∧
    Traverse.calls Cases.visited_after_return = Traverse.calls w1 ∧
    (∀ r,
       r ∈ Further.asked id (Traverse.initial_entityRef (Filter := unit)
                               "component:default/web") ls1 ↔
       r ∈ Further.ref_of
             <$> Further.followed (Traverse.calls Cases.visited_after_return)) ∧
    (true = true →
     ∀ r,
       r ∈ Further.asked id (Traverse.initial_entityRef (Filter := unit)
                               "component:default/web") ls1 ↔
       r ∈ Further.ref_of
             <$> Further.collected (Traverse.calls Cases.visited_after_return)) ∧
    (∃ cs, Traverse.calls Cases.visited_after_return
             = cs ++ [Traverse.collect_complete] ∧
           Traverse.collect_complete ∉ cs) ∧
    (∀ (l : Traverse.Label string string) w',
       Traverse.step id l Cases.visited_after_return = Some w' →
       Further.is_visit l ∧ Traverse.main w' = Traverse.returned ∧
       Traverse.calls w' = Traverse.calls Cases.visited_after_return).
Proof.
  apply (a_traversal_returns_when_all_is_followed id None
           (Traverse.initial_entityRef "component:default/web") true false
           Cases.visit_after_return);
    vm_compute; reflexivity.
Defined.

Lemma a_failed_callback_fails_the_traversal_witness :
  Traverse.rejection Cases.failed_through
    = Some (thrown_error "collector is broken") ∧
  ((∃ rest, Traverse.main Cases.failed_through = Traverse.in_map rest) ∨
   Traverse.main Cases.failed_through = Traverse.await_all ∨
   Traverse.main Cases.failed_through = Traverse.threw "collector is broken") ∧
  (Traverse.collect_complete ∉ Traverse.calls Cases.failed_through) ∧
  (Traverse.currentLayer Cases.failed_through).*1 ++ Further.to_map Cases.failed_through
    = (Traverse.currentLayer Cases.failing).*1 ++ Further.to_map Cases.failing ∧
  ∃ more,
    Further.collected (Traverse.calls Cases.failed_through)
      = Further.collected (Traverse.calls Cases.failing) ++ more ∧
    sublist more (Further.to_map Cases.failing).
Proof.
  apply (a_failed_callback_fails_the_traversal id None
           (Traverse.initial_entityRef "component:default/web") true false
           Cases.collector_fails Cases.failing
           (thrown_error "collector is broken")
           [Traverse.callback_starts None; Traverse.collect_resolves 1;
            Traverse.all_settles]);
    vm_compute; reflexivity.
Defined.

Lemma a_traversal_collects_refs_in_visiting_order_witness :
  ∃ c,
    Collect.run Cases.handed_over (Collect.toEntityRefArray Cases.from_depth_one)
      = Some c ∧
    Collect.complete c =
      TraverseCatalogNode.entityRef
        <$> filter (Further.in_window 1 100)
              (Traverse.node <$> Further.collected (Traverse.calls Cases.traversed)).
Proof.
  eexists. split; [vm_compute; reflexivity|].
  apply (a_traversal_collects_refs_in_visiting_order id None
           (Traverse.initial_entityRef "component:default/web") false
           (Cases.first_layer ++ Cases.second_layer) Cases.traversed
           Cases.from_depth_one Cases.handed_over);
    [vm_compute; reflexivity | vm_compute; reflexivity | vm_compute; reflexivity
    | discriminate].
Defined.


Lemma a_logged_message_reaches_the_observer_witness :
  ∃ w',
    Broker.run [Broker.calls_emitLog 0 "step 1 done"; Broker.store_answers 2;
                Broker.resumes 2] Scenario.running = Some w' ∧
    Broker.jobs w' !! 2 = Some Broker.returned_void ∧
    ∃ ow earlier,
      Observe.run Scenario.accepts [Observe.store_answers; Observe.resumes]
        (Observe.observe (Broker.storage w')
           (TaskStoreGetEventsOptions.mk "T1" None) tt) = Some ow ∧
      Claimed.delivered ow =
        earlier ++
        [DbTaskEventRow.mk (Store.nextEvent (Broker.storage Scenario.running))
           (Some "R1") "T1" "step 1 done" log
           (Store.now (Broker.storage Scenario.running))].
Proof.
  apply (a_logged_message_reaches_the_observer Scenario.accepts Scenario.running 0
           (TaskAgent.mk (TaskState.mk Scenario.two_steps "T1" (Some "R1")) (Some 0))
           "step 1 done" None tt).
  - vm_compute; reflexivity.
  - unfold Claimed.numbered. split_and!; [constructor|constructor|reflexivity].
  - discriminate.
Defined.
